(** * vutrace: trace ingestion and snapshot navigation

    A shallow embedding of the trace loader ([parse_trace]) and of the
    navigation routines ([walk_until_pc_equal], [walk_until_mem_access],
    the byte search of [memory_window]) of [vutrace.cpp], with the
    properties of the specification stated and proved over it.

    Conventions.
    - Unsigned machine integers are [Z] values; arithmetic that can leave
      the range of its C++ type has the wrap-around written out
      ([to_size_t], [to_int]).
    - A file is the list of its bytes.  [fread] either delivers the bytes
      asked for or fails the way [check_eof] does.
    - A function that can call [exit(1)], or whose C++ behaviour is
      undefined, returns an [outcome]: [Done] with its result, or [Fail]
      with the reason.
    - [std::vector] and fixed arrays are lists; [std::map] is [gmap]. *)

From Stdlib Require Import ZArith Lia Strings.Byte Strings.String.
From stdpp Require Import base option list gmap.

Local Open Scope Z_scope.

#[global] Instance byte_eq_dec : EqDecision byte := Byte.byte_eq_dec.

(** ** Outcomes *)

Inductive failure :=
  (* the [exit(1)] paths of [parse_trace] *)
  | UnexpectedEof
  | FormatTooNew
  | BadProgramCounter
  | BadRegisterIndex
  | AddressTooBig
  | InvalidPacketType (packet_type : byte)
  (* undefined behaviour *)
  | DivisionByZero
  | OutOfBounds
  (* the loop budget of the model ran out *)
  | OutOfFuel.

Inductive outcome (A : Type) :=
  | Done (a : A)
  | Fail (f : failure).

Arguments Done {A} a.
Arguments Fail {A} f.

Definition bind {A B} (k : A -> outcome B) (m : outcome A) : outcome B :=
  match m with
  | Done a => k a
  | Fail f => Fail f
  end.

(** Sequencing is written with stdpp's [x ← m; k]. *)
#[global] Instance outcome_bind : MBind outcome := @bind.

(** ** Machine integers *)

(** Conversion to [std::size_t] (64 bits). *)
Definition to_size_t (z : Z) : Z := z mod 2 ^ 64.

(** Conversion to [int] (32 bits, two's complement). *)
Definition to_int (z : Z) : Z :=
  let r := z mod 2 ^ 32 in
  if r <? 2 ^ 31 then r else r - 2 ^ 32.

(** The value of an unsigned integer stored little-endian in [bs]. *)
Fixpoint le_value (bs : list byte) : Z :=
  match bs with
  | [] => 0
  | b :: bs => Z.of_N (Byte.to_N b) + 256 * le_value bs
  end.

(** ** Definitions of [pcsx2defs.h] *)

(** A legacy register structure: its size and the byte offsets of the
    fields [parse_trace] copies out of it. *)
Record OldVURegs := {
  old_sizeof : nat;
  old_VF : nat;
  old_VI : nat;
  old_ACC : nat;
  old_q : nat;
  old_p : nat
}.

(** Modelled from the spec: the header [pcsx2defs.h] is not part of the
    sources at hand.  It supplies the sizes of the two memory images (the
    data model's "fixed size, e.g. 16 KiB"), the index [TPC] of the
    program-counter register among the integer registers, and the two
    legacy register layouts of format versions 1 and 2.  The development
    is parametric in them. *)
Class Pcsx2Defs := {
  VU1_MEMSIZE : Z;
  VU1_PROGSIZE : Z;
  TPC : nat;
  old_pcsx2_structs_v1 : OldVURegs;
  old_pcsx2_structs_v2 : OldVURegs
}.

Definition INSN_PAIR_SIZE : Z := 8.

(** ** Data model *)

(** Modelled from the spec: a register cell.  The types [VECTOR] and
    [REG_VI] come from the missing header; a register patch carries a
    "128-bit raw value" for any register, and the loader copies 16 bytes
    into whichever register it names, so every register (vector, integer,
    accumulator, [q], [p]) is a 16-byte cell, held here as its object
    representation. *)
Definition cell := list byte.

Definition CELL_SIZE : nat := 16.

(** The [UL] member of a cell: its first four bytes, little-endian. *)
Definition UL (c : cell) : Z := le_value (take 4 c).

Record VURegs := {
  VF : list cell;
  VI : list cell;
  ACC : cell;
  q : cell;
  p : cell
}.

Record Snapshot := {
  registers : VURegs;
  memory : list byte;
  program : list byte;
  read_addr : Z;
  read_size : Z;
  write_addr : Z;
  write_size : Z
}.

Record Instruction := {
  is_executed : bool;
  branch_to_times : gmap Z Z;
  branch_from_times : gmap Z Z;
  times_executed : Z
}.

(** The fields of [AppState] that the loader and the navigation routines
    touch.  Paths, comments and the highlight filter belong to the user
    interface, and so do the disassembly strings filled in after loading. *)
Record AppState := {
  current_snapshot : Z;
  snapshots : list Snapshot;
  snapshots_scroll_to : bool;
  disassembly_scroll_to : bool;
  instructions : list Instruction
}.

Definition zero_cell : cell := replicate CELL_SIZE x00.

(** [VURegs registers = {}] *)
Definition zero_registers : VURegs :=
  {| VF := replicate 32 zero_cell; VI := replicate 32 zero_cell;
     ACC := zero_cell; q := zero_cell; p := zero_cell |}.

(** A default-constructed [Instruction]. *)
Definition new_instruction : Instruction :=
  {| is_executed := false; branch_to_times := ∅; branch_from_times := ∅;
     times_executed := 0 |}.

(** A default-constructed [AppState]. *)
Definition new_app : AppState :=
  {| current_snapshot := 0; snapshots := []; snapshots_scroll_to := false;
     disassembly_scroll_to := false; instructions := [] |}.

(** [v.size()] *)
Definition size {A} (v : list A) : Z := Z.of_nat (length v).

(** [v[i]]: indexing past the end is undefined behaviour. *)
Definition at_index {A} (v : list A) (i : Z) : outcome A :=
  if (0 <=? i) && (i <? size v) then
    match v !! Z.to_nat i with
    | Some x => Done x
    | None => Fail OutOfBounds
    end
  else Fail OutOfBounds.

Section Vutrace.
Context `{defs : Pcsx2Defs}.

(** [snap.registers.VI[TPC].UL] *)
Definition pc_of (snap : Snapshot) : Z :=
  UL (default [] (VI (registers snap) !! TPC)).

(** ** Navigation *)

Definition set_cursor (app : AppState) (snapshot : Z) : AppState :=
  {| current_snapshot := snapshot; snapshots := snapshots app;
     snapshots_scroll_to := true;
     disassembly_scroll_to := disassembly_scroll_to app;
     instructions := instructions app |}.

(** The [do ... while] loop of [walk_until_pc_equal]; [snapshot] is the
    local variable of that name.  [None] is the early [return false],
    [Some s] the exit of the loop with [snapshot = s]. *)
Fixpoint walk_pc_loop (fuel : nat) (app : AppState) (target_pc step snapshot : Z)
    : outcome (option Z) :=
  match fuel with
  | O => Fail OutOfFuel
  | S fuel =>
    if (- step >? to_int snapshot)
       || (to_size_t (snapshot + step) >=? size (snapshots app))
    then Done None
    else
      let snapshot := to_size_t (snapshot + step) in
      snap ← at_index (snapshots app) snapshot;
      if negb (pc_of snap =? target_pc)
      then walk_pc_loop fuel app target_pc step snapshot
      else Done (Some snapshot)
  end.

Definition walk_until_pc_equal (fuel : nat) (app : AppState) (target_pc step : Z)
    : outcome (bool * AppState) :=
  r ← walk_pc_loop fuel app target_pc step (current_snapshot app);
  match r with
  | None => Done (false, app)
  | Some snapshot => Done (true, set_cursor app snapshot)
  end.

(** The test of [walk_until_mem_access]: the snapshot records a read or a
    write in the 16-byte block of [address]. *)
Definition accesses (snap : Snapshot) (address : Z) : bool :=
  ((read_size snap >? 0) && (read_addr snap / 16 =? address / 16))
  || ((write_size snap >? 0) && (write_addr snap / 16 =? address / 16)).

(** The three assignments made when the match is at [snapshot_index >= 1]. *)
Definition land_before (app : AppState) (snapshot_index : Z) : AppState :=
  {| current_snapshot := snapshot_index - 1; snapshots := snapshots app;
     snapshots_scroll_to := true; disassembly_scroll_to := true;
     instructions := instructions app |}.

(** The [do ... while] loop of [walk_until_mem_access].  Next to the
    outcome it returns the indices at which it read [app.snapshots], in
    order. *)
Fixpoint walk_mem_loop (fuel : nat) (app : AppState) (address snapshot_index : Z)
    : list Z * outcome AppState :=
  match fuel with
  | O => ([], Fail OutOfFuel)
  | S fuel =>
    if size (snapshots app) =? 0 then ([], Fail DivisionByZero)
    else
      let snapshot_index := to_size_t (snapshot_index + 1) mod size (snapshots app) in
      match at_index (snapshots app) snapshot_index with
      | Fail f => ([snapshot_index], Fail f)
      | Done snap =>
        if accesses snap address then
          ([snapshot_index],
           Done (if snapshot_index >=? 1 then land_before app snapshot_index else app))
        else if negb (snapshot_index =? current_snapshot app) then
          let '(visited, r) := walk_mem_loop fuel app address snapshot_index in
          (snapshot_index :: visited, r)
        else ([snapshot_index], Done app)
      end
  end.

Definition walk_until_mem_access (fuel : nat) (app : AppState) (address : Z)
    : list Z * outcome AppState :=
  walk_mem_loop fuel app address (current_snapshot app).

(** ** Byte search *)

Definition byte_of_Z (z : Z) : byte :=
  default x00 (Byte.of_N (Z.to_N (z mod 256))).

Definition nibble_of (c : byte) : option Z :=
  let c := Z.of_N (Byte.to_N c) in
  if (48 <=? c) && (c <=? 57) then Some (c - 48)
  else if (65 <=? c) && (c <=? 90) then Some (c - 65 + 10)
  else if (97 <=? c) && (c <=? 122) then Some (c - 97 + 10)
  else None.

Fixpoint decode_hex_loop (input : list byte) (current_byte : Z)
    (reading_second_nibble : bool) : list byte :=
  match input with
  | [] => []
  | c :: input =>
    match nibble_of c with
    | None => decode_hex_loop input current_byte reading_second_nibble
    | Some nibble =>
      if negb reading_second_nibble then
        decode_hex_loop input ((nibble * 16) mod 256) true
      else
        let current_byte := Z.lor current_byte nibble mod 256 in
        byte_of_Z current_byte :: decode_hex_loop input current_byte false
    end
  end.

Definition decode_hex (input : string) : list byte :=
  decode_hex_loop (list_byte_of_string input) 0 false.

(** [memcmp(value_raw.data(), &memory[i], value_raw.size()) == 0]; a
    comparison that extends past the end of the array is undefined. *)
Definition memcmp_at (value_raw memory : list byte) (i : Z) : outcome bool :=
  if (0 <=? i) && (i + size value_raw <=? size memory) then
    Done (bool_decide (take (length value_raw) (drop (Z.to_nat i) memory) = value_raw))
  else Fail OutOfBounds.

(** The search loop of [memory_window], from index [i] with [remaining]
    iterations to go.  [Some i] stands for the message "Found match at
    0x<i>", [None] for "No match found". *)
Fixpoint find_bytes_from (memory value_raw : list byte) (i : Z) (remaining : nat)
    : outcome (option Z) :=
  match remaining with
  | O => Done None
  | S remaining =>
    same ← memcmp_at value_raw memory i;
    if same : bool then Done (Some i)
    else find_bytes_from memory value_raw (i + 1) remaining
  end.

Definition find_bytes (memory value_raw : list byte) : outcome (option Z) :=
  find_bytes_from memory value_raw 0
    (Z.to_nat (to_size_t (VU1_MEMSIZE - size value_raw))).

(** ** Reading the trace *)

(** [check_eof(fread(buf, n, 1, trace))]: the [n] bytes read, and the rest
    of the file.  [fread] returns 0, and [check_eof] exits, when fewer
    than [n] bytes are left; an element size of 0 also makes it return 0. *)
Definition fread (n : nat) (trace : list byte) : outcome (list byte * list byte) :=
  if (0 <? n)%nat && (n <=? length trace)%nat
  then Done (take n trace, drop n trace)
  else Fail UnexpectedEof.

(** An array of [count] cells laid out in [buf]. *)
Fixpoint cells (count : nat) (buf : list byte) : list cell :=
  match count with
  | O => []
  | S count => take CELL_SIZE buf :: cells count (drop CELL_SIZE buf)
  end.

(** The five copies out of a legacy structure held in [old_regs]. *)
Definition regs_of_old (layout : OldVURegs) (old_regs : list byte) : VURegs :=
  {| VF := cells 32 (drop (old_VF layout) old_regs);
     VI := cells 32 (drop (old_VI layout) old_regs);
     ACC := take CELL_SIZE (drop (old_ACC layout) old_regs);
     q := take CELL_SIZE (drop (old_q layout) old_regs);
     p := take CELL_SIZE (drop (old_p layout) old_regs) |}.

(** The payload of a [VUTRACE_SETREGISTERS] packet. *)
Definition read_registers (version : Z) (trace : list byte)
    : outcome (VURegs * list byte) :=
  if version =? 1 then
    '(old_regs, trace) ← fread (old_sizeof old_pcsx2_structs_v1) trace;
    Done (regs_of_old old_pcsx2_structs_v1 old_regs, trace)
  else if version =? 2 then
    '(old_regs, trace) ← fread (old_sizeof old_pcsx2_structs_v2) trace;
    Done (regs_of_old old_pcsx2_structs_v2 old_regs, trace)
  else
    '(vf, trace) ← fread (32 * CELL_SIZE) trace;
    '(vi, trace) ← fread (32 * CELL_SIZE) trace;
    '(acc, trace) ← fread CELL_SIZE trace;
    '(rq, trace) ← fread CELL_SIZE trace;
    '(rp, trace) ← fread CELL_SIZE trace;
    Done ({| VF := cells 32 vf; VI := cells 32 vi; ACC := acc; q := rq; p := rp |},
          trace).

(** Field updates of [current]. *)
Definition set_registers (current : Snapshot) (regs : VURegs) : Snapshot :=
  {| registers := regs; memory := memory current; program := program current;
     read_addr := read_addr current; read_size := read_size current;
     write_addr := write_addr current; write_size := write_size current |}.

Definition set_memory (current : Snapshot) (mem : list byte) : Snapshot :=
  {| registers := registers current; memory := mem; program := program current;
     read_addr := read_addr current; read_size := read_size current;
     write_addr := write_addr current; write_size := write_size current |}.

Definition set_program (current : Snapshot) (prog : list byte) : Snapshot :=
  {| registers := registers current; memory := memory current; program := prog;
     read_addr := read_addr current; read_size := read_size current;
     write_addr := write_addr current; write_size := write_size current |}.

Definition set_read (current : Snapshot) (addr sz : Z) : Snapshot :=
  {| registers := registers current; memory := memory current;
     program := program current;
     read_addr := addr; read_size := sz;
     write_addr := write_addr current; write_size := write_size current |}.

Definition set_write (current : Snapshot) (addr sz : Z) : Snapshot :=
  {| registers := registers current; memory := memory current;
     program := program current;
     read_addr := read_addr current; read_size := read_size current;
     write_addr := addr; write_size := sz |}.

(** The four assignments that end the [VUTRACE_PUSHSNAPSHOT] case. *)
Definition clear_access (current : Snapshot) : Snapshot :=
  {| registers := registers current; memory := memory current;
     program := program current;
     read_addr := 0; read_size := 0; write_addr := 0; write_size := 0 |}.

(** The [memcpy] of the [VUTRACE_PATCHREGISTER] case, by register index. *)
Definition patch_register (regs : VURegs) (index : Z) (data : cell) : outcome VURegs :=
  if index <? 32 then
    Done {| VF := <[Z.to_nat index := data]> (VF regs); VI := VI regs;
            ACC := ACC regs; q := q regs; p := p regs |}
  else if index <? 64 then
    Done {| VF := VF regs; VI := <[Z.to_nat (index - 32) := data]> (VI regs);
            ACC := ACC regs; q := q regs; p := p regs |}
  else if index =? 64 then
    Done {| VF := VF regs; VI := VI regs; ACC := data; q := q regs; p := p regs |}
  else if index =? 65 then
    Done {| VF := VF regs; VI := VI regs; ACC := ACC regs; q := data; p := p regs |}
  else if index =? 66 then
    Done {| VF := VF regs; VI := VI regs; ACC := ACC regs; q := q regs; p := data |}
  else Fail BadRegisterIndex.

(** ** Flow analysis *)

(** [n++] on a [std::size_t]. *)
Definition size_t_incr (n : Z) : Z := to_size_t (n + 1).

(** [m[k]++] on a [std::map<u32, std::size_t>]: a missing key starts at 0. *)
Definition map_incr (m : gmap Z Z) (k : Z) : gmap Z Z :=
  <[k := size_t_incr (default 0 (m !! k))]> m.

Definition mark_executed (i : Instruction) : Instruction :=
  {| is_executed := true; branch_to_times := branch_to_times i;
     branch_from_times := branch_from_times i;
     times_executed := times_executed i |}.

Definition add_branch_to (pc : Z) (i : Instruction) : Instruction :=
  {| is_executed := is_executed i;
     branch_to_times := map_incr (branch_to_times i) pc;
     branch_from_times := branch_from_times i;
     times_executed := times_executed i |}.

Definition add_branch_from (last_pc : Z) (i : Instruction) : Instruction :=
  {| is_executed := is_executed i; branch_to_times := branch_to_times i;
     branch_from_times := map_incr (branch_from_times i) last_pc;
     times_executed := times_executed i |}.

Definition count_execution (i : Instruction) : Instruction :=
  {| is_executed := is_executed i; branch_to_times := branch_to_times i;
     branch_from_times := branch_from_times i;
     times_executed := size_t_incr (times_executed i) |}.

(** An update through [v[i]]. *)
Definition update_at {A} (v : list A) (i : Z) (f : A -> A) : outcome (list A) :=
  x ← at_index v i;
  Done (<[Z.to_nat i := f x]> v).

(** The branch bookkeeping of a push, on the store [snaps] that already
    holds the pushed snapshot. *)
Definition record_branch (snaps : list Snapshot) (pc : Z) (instrs : list Instruction)
    : outcome (list Instruction) :=
  if size snaps >=? 2 then
    last ← at_index snaps (size snaps - 2);
    let last_pc := pc_of last in
    if negb ((last_pc + INSN_PAIR_SIZE) mod 2 ^ 32 =? pc) then
      instrs ← update_at instrs (last_pc / INSN_PAIR_SIZE) (add_branch_to pc);
      update_at instrs (pc / INSN_PAIR_SIZE) (add_branch_from last_pc)
    else Done instrs
  else Done instrs.

(** The [VUTRACE_PUSHSNAPSHOT] case. *)
Definition push_snapshot (app : AppState) (current : Snapshot)
    : outcome (AppState * Snapshot) :=
  let pc := pc_of current in
  if (pc >=? VU1_PROGSIZE) || negb (pc mod INSN_PAIR_SIZE =? 0)
  then Fail BadProgramCounter
  else
    let snaps := snapshots app ++ [current] in
    instrs ← update_at (instructions app) (pc / INSN_PAIR_SIZE) mark_executed;
    instrs ← record_branch snaps pc instrs;
    instrs ← update_at instrs (pc / INSN_PAIR_SIZE) count_execution;
    Done ({| current_snapshot := current_snapshot app; snapshots := snaps;
             snapshots_scroll_to := snapshots_scroll_to app;
             disassembly_scroll_to := disassembly_scroll_to app;
             instructions := instrs |},
          clear_access current).

(** ** The packet loop *)

(** One turn of the [switch]: the packet of type [packet_type] whose
    payload starts [trace]; returns the new state and the rest of the
    file. *)
Definition packet_step (version : Z) (packet_type : byte) (trace : list byte)
    (app : AppState) (current : Snapshot)
    : outcome (AppState * Snapshot * list byte) :=
  match packet_type with
  | "P"%byte =>
    '(app, current) ← push_snapshot app current;
    Done (app, current, trace)
  | "R"%byte =>
    '(regs, trace) ← read_registers version trace;
    Done (app, set_registers current regs, trace)
  | "M"%byte =>
    '(mem, trace) ← fread (Z.to_nat VU1_MEMSIZE) trace;
    Done (app, set_memory current mem, trace)
  | "I"%byte =>
    '(prog, trace) ← fread (Z.to_nat VU1_PROGSIZE) trace;
    Done (app, set_program current prog, trace)
  | "L"%byte =>
    '(addr, trace) ← fread 4 trace;
    '(sz, trace) ← fread 4 trace;
    Done (app, set_read current (le_value addr) (le_value sz), trace)
  | "S"%byte =>
    '(addr, trace) ← fread 4 trace;
    '(sz, trace) ← fread 4 trace;
    Done (app, set_write current (le_value addr) (le_value sz), trace)
  | "r"%byte =>
    '(index, trace) ← fread 1 trace;
    '(data, trace) ← fread 16 trace;
    regs ← patch_register (registers current) (le_value index) data;
    Done (app, set_registers current regs, trace)
  | "m"%byte =>
    '(address, trace) ← fread 2 trace;
    '(data, trace) ← fread 4 trace;
    let address := le_value address in
    if address <? VU1_MEMSIZE - 4 then
      Done (app,
            set_memory current (list_inserts (Z.to_nat address) data (memory current)),
            trace)
    else Fail AddressTooBig
  | _ => Fail (InvalidPacketType packet_type)
  end.

(** The [while] loop over the packets.  Every turn consumes at least the
    type byte, so a budget of one turn per byte (and one for the final
    end-of-file test) is enough. *)
Fixpoint parse_packets (fuel : nat) (version : Z) (trace : list byte)
    (app : AppState) (current : Snapshot) : outcome (AppState * Snapshot) :=
  match fuel with
  | O => Fail OutOfFuel
  | S fuel =>
    match trace with
    | [] => Done (app, current)
    | packet_type :: trace =>
      '(app, current, trace) ← packet_step version packet_type trace app current;
      parse_packets fuel version trace app current
    end
  end.

(** [Snapshot current;]: zeroed registers and access records; the two
    arrays are left uninitialised, [memory0] and [program0] stand for
    whatever they hold. *)
Definition new_current (memory0 program0 : list byte) : Snapshot :=
  {| registers := zero_registers; memory := memory0; program := program0;
     read_addr := 0; read_size := 0; write_addr := 0; write_size := 0 |}.

(** [app.instructions.resize(...)] and [app.snapshots = {}]. *)
Definition reset_app (app : AppState) : AppState :=
  {| current_snapshot := current_snapshot app; snapshots := [];
     snapshots_scroll_to := snapshots_scroll_to app;
     disassembly_scroll_to := disassembly_scroll_to app;
     instructions :=
       resize (Z.to_nat (VU1_PROGSIZE / INSN_PAIR_SIZE)) new_instruction
              (instructions app) |}.

(** The packet loop of [parse_trace] over [body], the part of the file
    after the header, read at format [version]. *)
Definition read_packets (version : Z) (body : list byte) (app : AppState)
    (memory0 program0 : list byte) : outcome AppState :=
  '(app, _) ← parse_packets (S (length body)) version body
                 app (new_current memory0 program0);
  Done app.

Definition magic_tag : list byte := ["V"; "U"; "T"; "R"]%byte.

(** [parse_trace] on the content [trace] of the trace file.  Opening the
    file and the disassembly pass that follows the loop are outside the
    model: the former has no part in the format, the latter writes only
    the disassembly strings. *)
Definition parse_trace (app : AppState) (trace : list byte)
    (memory0 program0 : list byte) : outcome AppState :=
  let app := reset_app app in
  '(magic, rest) ← fread 4 trace;
  '(version, body) ←
    (if bool_decide (magic = magic_tag) then
       '(version, rest) ← fread 4 rest;
       Done (le_value version, rest)
     else Done (1, trace));
  if version >? 3 then Fail FormatTooNew
  else read_packets version body app memory0 program0.

(** ** Notions used to state the properties *)

(** The program counter of the snapshot at index [i], if there is one. *)
Definition pc_at (app : AppState) (i : Z) : option Z :=
  pc_of <$> snapshots app !! Z.to_nat i.

(** The cyclic order of a search by memory access: the indices after the
    cursor up to the end of the store, then those from 0 up to the cursor
    itself. *)
Definition scan_order (app : AppState) : list Z :=
  map (fun k => (current_snapshot app + 1 + Z.of_nat k) mod size (snapshots app))
      (seq 0 (length (snapshots app))).

(** The snapshot at index [j] records an access to the block of [address]. *)
Definition accessed_at (app : AppState) (address j : Z) : bool :=
  match snapshots app !! Z.to_nat j with
  | Some snap => accesses snap address
  | None => false
  end.

(** The first index of the cyclic order with such an access. *)
Definition first_access (app : AppState) (address : Z) : option Z :=
  List.find (accessed_at app address) (scan_order app).

(** The pattern occurs in [memory] at address [a]. *)
Definition occurs_at (memory value_raw : list byte) (a : Z) : Prop :=
  0 <= a /\ a + size value_raw <= size memory /\
  take (length value_raw) (drop (Z.to_nat a) memory) = value_raw.

(** The packet table of the format: the payload length of each packet
    type. *)
Definition payload_size (version : Z) (packet_type : byte) : option nat :=
  match packet_type with
  | "P"%byte => Some 0%nat
  | "R"%byte =>
    Some (if version =? 1 then old_sizeof old_pcsx2_structs_v1
          else if version =? 2 then old_sizeof old_pcsx2_structs_v2
          else (32 * CELL_SIZE + 32 * CELL_SIZE + CELL_SIZE + CELL_SIZE + CELL_SIZE)%nat)
  | "M"%byte => Some (Z.to_nat VU1_MEMSIZE)
  | "I"%byte => Some (Z.to_nat VU1_PROGSIZE)
  | "L"%byte | "S"%byte => Some 8%nat
  | "r"%byte => Some 17%nat
  | "m"%byte => Some 6%nat
  | _ => None
  end.

(** A packet: its type byte and its payload. *)
Definition packet : Type := byte * list byte.

Definition encode_packet (pkt : packet) : list byte := pkt.1 :: pkt.2.

(** [pkts] is the packet sequence that makes up [body]. *)
Definition framing (version : Z) (pkts : list packet) (body : list byte) : Prop :=
  body = concat (map encode_packet pkts) /\
  Forall (fun pkt => payload_size version pkt.1 = Some (length pkt.2)) pkts.

(** The number of [VUTRACE_PUSHSNAPSHOT] packets among [pkts]. *)
Definition count_push (pkts : list packet) : nat :=
  length (filter (fun pkt => pkt.1 = "P"%byte) pkts).

(** The update of the Flow Analyzer as the specification words it: mark
    the slot of the new program counter, record a branch when there is a
    preceding snapshot and its program counter plus the pair size is not
    the new one, count the execution. *)
Definition flow_update (prev : option Snapshot) (pc : Z) (instrs : list Instruction)
    : list Instruction :=
  let slot := Z.to_nat (pc / INSN_PAIR_SIZE) in
  let marked := alter mark_executed slot instrs in
  let branched :=
    match prev with
    | Some prev =>
      let last_pc := pc_of prev in
      if decide (last_pc + INSN_PAIR_SIZE = pc) then marked
      else alter (add_branch_from last_pc) slot
             (alter (add_branch_to pc) (Z.to_nat (last_pc / INSN_PAIR_SIZE)) marked)
    | None => marked
    end in
  alter count_execution slot branched.

(** The header constants fit the code: program memory is a whole number
    of instruction pairs, and a program counter plus the pair size does
    not leave the range of [u32]. *)
Record defs_ok : Prop := {
  progsize_nonneg : 0 <= VU1_PROGSIZE;
  progsize_whole_pairs : VU1_PROGSIZE mod INSN_PAIR_SIZE = 0;
  progsize_u32 : VU1_PROGSIZE + INSN_PAIR_SIZE <= 2 ^ 32
}.

(** What holds of [app] while [parse_trace] runs its loop: the
    instruction table has its size after [resize], and every snapshot in
    the store passed the program-counter test when it was pushed. *)
Record ingesting (app : AppState) : Prop := {
  table_size : size (instructions app) = VU1_PROGSIZE / INSN_PAIR_SIZE;
  stored_pcs : Forall (fun snap => pc_of snap < VU1_PROGSIZE) (snapshots app)
}.

(** The branch counters of the instruction table: how often the slot was
    left for [target], and how often it was reached from [source]; a key
    absent from the map counts 0, as [m[k]] reads it. *)
Definition branch_to_count (instrs : list Instruction) (slot : nat) (target : Z) : Z :=
  match instrs !! slot with
  | Some i => default 0 (branch_to_times i !! target)
  | None => 0
  end.

Definition branch_from_count (instrs : list Instruction) (slot : nat) (source : Z) : Z :=
  match instrs !! slot with
  | Some i => default 0 (branch_from_times i !! source)
  | None => 0
  end.

End Vutrace.

(** * The callers of the navigation routines, and the helpers *)

Section Frontend.
Context `{defs : Pcsx2Defs}.

(** ** Keys and clicks *)

(** The three assignments of the W key and of the S key. *)
Definition step_cursor (app : AppState) (snapshot : Z) : AppState :=
  {| current_snapshot := snapshot; snapshots := snapshots app;
     snapshots_scroll_to := true; disassembly_scroll_to := true;
     instructions := instructions app |}.

(** The key handling of the main loop in a frame in which no text field
    has the focus.  The four flags are what [ImGui::IsKeyPressed] answers
    for W, S, A and D. *)
Definition handle_keys (fuel : nat) (key_w key_s key_a key_d : bool)
    (app : AppState) : outcome AppState :=
  let app :=
    if key_w && (current_snapshot app >? 0)
    then step_cursor app (to_size_t (current_snapshot app - 1))
    else app in
  let app :=
    if key_s && (current_snapshot app <? to_size_t (size (snapshots app) - 1))
    then step_cursor app (to_size_t (current_snapshot app + 1))
    else app in
  current ← at_index (snapshots app) (current_snapshot app);
  let pc := pc_of current in
  '(_, app) ← (if key_a then walk_until_pc_equal fuel app pc (-1)
               else Done (false, app));
  '(_, app) ← (if key_d then walk_until_pc_equal fuel app pc 1
               else Done (false, app));
  Done app.

(** The buttons [" < "] and [" > "] of [snapshots_window]: a search for
    the program counter of the current snapshot, with step [-1] and [1]. *)
Definition iterate (fuel : nat) (step : Z) (app : AppState) : outcome AppState :=
  current ← at_index (snapshots app) (current_snapshot app);
  '(_, app) ← walk_until_pc_equal fuel app (pc_of current) step;
  Done app.

(** The two assignments of [snapshots_window] when row [i] of the list
    is clicked. *)
Definition select_snapshot (app : AppState) (i : Z) : outcome AppState :=
  _ ← at_index (snapshots app) i;
  Done {| current_snapshot := i; snapshots := snapshots app;
          snapshots_scroll_to := snapshots_scroll_to app;
          disassembly_scroll_to := true;
          instructions := instructions app |}.

Definition set_disassembly_scroll_to (app : AppState) : AppState :=
  {| current_snapshot := current_snapshot app; snapshots := snapshots app;
     snapshots_scroll_to := snapshots_scroll_to app;
     disassembly_scroll_to := true;
     instructions := instructions app |}.

Definition clear_disassembly_scroll_to (app : AppState) : AppState :=
  {| current_snapshot := current_snapshot app; snapshots := snapshots app;
     snapshots_scroll_to := snapshots_scroll_to app;
     disassembly_scroll_to := false;
     instructions := instructions app |}.

(** The block of the row loop of [disassembly_window] run when the row of
    the instruction at address [i] is clicked and is not the row of
    [current]: a search for a snapshot at [i], first towards the side on
    which [i] lies, then the other way.  [current] is the snapshot the
    window bound when it was entered. *)
Definition click_instruction (fuel : nat) (current : Snapshot) (app : AppState)
    (i : Z) : outcome AppState :=
  '(pc_changed, app) ←
    (if pc_of current >? i then
       '(pc_changed, app) ← walk_until_pc_equal fuel app i (-1);
       if negb pc_changed then walk_until_pc_equal fuel app i 1
       else Done (pc_changed, app)
     else
       '(pc_changed, app) ← walk_until_pc_equal fuel app i 1;
       if negb pc_changed then walk_until_pc_equal fuel app i (-1)
       else Done (pc_changed, app));
  Done (if pc_changed : bool then set_disassembly_scroll_to app else app).

(** One turn of the row loop of [disassembly_window], at the row of the
    instruction at address [i].  [clicked] is what [ImGui::Selectable]
    answers for the row.  The turn reads the slot of the row and, when
    that slot has an entry in [branch_from_times], the slot after it, for
    the fall-through count it draws; the row of [current] takes the
    scroll request, any other row that is clicked runs the search.  What
    the turn draws, and the comment field of its second column, which
    touches the comments only, are outside the model. *)
Definition disassembly_row (fuel : nat) (current : Snapshot) (clicked : Z -> bool)
    (app : AppState) (i : Z) : outcome AppState :=
  instruction ← at_index (instructions app) (i / INSN_PAIR_SIZE);
  let is_pc := pc_of current =? i in
  _ ← (if bool_decide (branch_from_times instruction <> ∅)
       then at_index (instructions app) (i / 8 + 1)
       else Done instruction);
  let app :=
    if is_pc && disassembly_scroll_to app
    then clear_disassembly_scroll_to app else app in
  if negb is_pc && clicked i then click_instruction fuel current app i
  else Done app.

(** The values of [i] in
    [for(i = 0; i < VU1_PROGSIZE; i += INSN_PAIR_SIZE)]. *)
Definition row_addresses : list Z :=
  map (fun k => Z.of_nat k * INSN_PAIR_SIZE)
      (seq 0 (Z.to_nat ((VU1_PROGSIZE + INSN_PAIR_SIZE - 1) / INSN_PAIR_SIZE))).

Fixpoint disassembly_rows (fuel : nat) (current : Snapshot) (clicked : Z -> bool)
    (app : AppState) (rows : list Z) : outcome AppState :=
  match rows with
  | [] => Done app
  | i :: rows =>
    app ← disassembly_row fuel current clicked app i;
    disassembly_rows fuel current clicked app rows
  end.

(** [disassembly_window]: the snapshot at the cursor is bound once, then
    the rows are drawn in the order of their addresses.  The prompts
    above the table load and export comments and leave the session as it
    is. *)
Definition disassembly_window (fuel : nat) (clicked : Z -> bool) (app : AppState)
    : outcome AppState :=
  current ← at_index (snapshots app) (current_snapshot app);
  disassembly_rows fuel current clicked app row_addresses.

(** What the user can do to move the cursor, and the reaction of the
    program: a frame with keys down, a click on one of the two iteration
    buttons, on a snapshot row or on a byte of the memory view, and the
    disassembly window drawn with the answers of its rows to the mouse. *)
Inductive input :=
  | Keys (key_w key_s key_a key_d : bool)
  | Iterate (forward : bool)
  | SelectSnapshot (i : Z)
  | Disassembly (clicked : Z -> bool)
  | ClickByte (address : Z).

Definition react (fuel : nat) (e : input) (app : AppState) : outcome AppState :=
  match e with
  | Keys key_w key_s key_a key_d => handle_keys fuel key_w key_s key_a key_d app
  | Iterate forward => iterate fuel (if forward then 1 else -1) app
  | SelectSnapshot i => select_snapshot app i
  | Disassembly clicked => disassembly_window fuel clicked app
  | ClickByte address => (walk_until_mem_access fuel app address).2
  end.

Fixpoint react_all (fuel : nat) (es : list input) (app : AppState)
    : outcome AppState :=
  match es with
  | [] => Done app
  | e :: es => app ← react fuel e app; react_all fuel es app
  end.

(** A session the windows can draw: the cursor is an index of the store,
    and the indices of the store fit an [int]. *)
Definition navigable (app : AppState) : Prop :=
  0 <= current_snapshot app < size (snapshots app)
  /\ size (snapshots app) < 2 ^ 31.

(** An input the windows can produce: the snapshot list has a row for
    each index of the store and no other. *)
Definition offered (app : AppState) (e : input) : Prop :=
  match e with
  | SelectSnapshot i => 0 <= i < size (snapshots app)
  | _ => True
  end.

(** The row of address [i] can be drawn from [table]: the table has the
    slot of the row and, if that slot has an entry in
    [branch_from_times], the slot after it. *)
Definition row_readable (table : list Instruction) (i : Z) : Prop :=
  0 <= i /\ i / 8 < size table
  /\ forall instruction,
       table !! Z.to_nat (i / 8) = Some instruction ->
       branch_from_times instruction <> ∅ -> i / 8 + 1 < size table.

(** ** Notions for the loader *)

(** The instruction slot of a snapshot. *)
Definition slot_of (snap : Snapshot) : nat :=
  Z.to_nat (pc_of snap / INSN_PAIR_SIZE).

(** How many snapshots of [snaps] are at [slot]. *)
Definition executions (snaps : list Snapshot) (slot : nat) : nat :=
  length (filter (fun snap => slot_of snap = slot) snaps).

(** How many snapshots of [snaps] are followed by one that [edge] relates
    them to. *)
Fixpoint count_adjacent (edge : Snapshot -> Snapshot -> bool)
    (snaps : list Snapshot) : nat :=
  match snaps with
  | prev :: (next :: _) as rest =>
    ((if edge prev next then 1 else 0) + count_adjacent edge rest)%nat
  | _ => 0%nat
  end.

(** [next] follows [prev] by a branch. *)
Definition branch (prev next : Snapshot) : bool :=
  bool_decide (pc_of prev + INSN_PAIR_SIZE <> pc_of next).

(** A branch out of [slot] to the address [target]. *)
Definition branch_out (slot : nat) (target : Z) (prev next : Snapshot) : bool :=
  branch prev next && bool_decide (slot_of prev = slot)
  && bool_decide (pc_of next = target).

(** A branch into [slot] from the address [source]. *)
Definition branch_in (slot : nat) (source : Z) (prev next : Snapshot) : bool :=
  branch prev next && bool_decide (slot_of next = slot)
  && bool_decide (pc_of prev = source).

(** The program counter passes the test of a push. *)
Definition pc_valid (snap : Snapshot) : Prop :=
  0 <= pc_of snap < VU1_PROGSIZE /\ pc_of snap mod INSN_PAIR_SIZE = 0.

(** The images of a snapshot have the sizes of their arrays. *)
Record sized (snap : Snapshot) : Prop := {
  sized_memory : length (memory snap) = Z.to_nat VU1_MEMSIZE;
  sized_program : length (program snap) = Z.to_nat VU1_PROGSIZE;
  sized_VF : length (VF (registers snap)) = 32%nat;
  sized_VI : length (VI (registers snap)) = 32%nat
}.

(** The statistics of the table agree with the store: per slot, the
    execution count and flag, and the branch counters of every key, all
    counts taken as [std::size_t]. *)
Definition table_agrees (app : AppState) : Prop :=
  forall slot i, instructions app !! slot = Some i ->
    times_executed i = to_size_t (Z.of_nat (executions (snapshots app) slot))
    /\ is_executed i = bool_decide (0 < executions (snapshots app) slot)%nat
    /\ (forall target,
          default 0 (branch_to_times i !! target)
          = to_size_t (Z.of_nat (count_adjacent (branch_out slot target)
                                   (snapshots app))))
    /\ (forall source,
          default 0 (branch_from_times i !! source)
          = to_size_t (Z.of_nat (count_adjacent (branch_in slot source)
                                   (snapshots app)))).

(** The failures [parse_trace] has an [exit(1)] for. *)
Definition is_exit (f : failure) : Prop :=
  match f with
  | UnexpectedEof | FormatTooNew | BadProgramCounter | BadRegisterIndex
  | AddressTooBig | InvalidPacketType _ => True
  | DivisionByZero | OutOfBounds | OutOfFuel => False
  end.

(** ** Comment files *)

(** [app.comments.size()] *)
Definition COMMENT_SLOTS : nat := Z.to_nat (VU1_PROGSIZE / INSN_PAIR_SIZE).

End Frontend.

(** The fields of [AppState] that the comment routines touch; a
    [std::string] is the list of its bytes. *)
Record Comments := {
  comments : list (list byte);
  comments_loaded : bool;
  comment_file_path : list byte
}.

Definition newline : byte := x0a.

(** The line that starts [file], and what follows its end-of-line. *)
Fixpoint split_line (file : list byte) : list byte * list byte :=
  match file with
  | [] => ([], [])
  | c :: file =>
    if decide (c = newline) then ([], file)
    else let '(line, rest) := split_line file in (c :: line, rest)
  end.

(** [std::getline(comment_file, line)] on what is left of the file: it
    fails at the end of the file, and else delivers the bytes up to the
    next end-of-line or, if there is none, up to the end. *)
Definition getline (file : list byte) : option (list byte * list byte) :=
  match file with
  | [] => None
  | _ => Some (split_line file)
  end.

(** The loop of [parse_comment_file], at index [i] with [slots] indices
    to go.  The line is read before the index is tested. *)
Fixpoint read_comment_lines (file : list byte) (i slots : nat)
    (cs : list (list byte)) : list (list byte) :=
  match getline file with
  | None => cs
  | Some (line, rest) =>
    match slots with
    | O => cs
    | S slots => read_comment_lines rest (S i) slots (<[i := line]> cs)
    end
  end.

Section CommentFiles.
Context `{defs : Pcsx2Defs}.

(** [parse_comment_file]; [file] is the content of the file at the path,
    if it can be opened. *)
Definition parse_comment_file (st : Comments) (path : list byte)
    (file : option (list byte)) : Comments :=
  match file with
  | Some content =>
    {| comments := read_comment_lines content 0 COMMENT_SLOTS (comments st);
       comments_loaded := true; comment_file_path := path |}
  | None =>
    {| comments := comments st; comments_loaded := comments_loaded st;
       comment_file_path := path |}
  end.

End CommentFiles.

(** [save_comment_file]: what is written to the file at
    [app.comment_file_path]. *)
Definition save_comment_file (st : Comments) : list byte :=
  concat (map (fun comment => comment ++ [newline]) (comments st)).

(** ** Hexadecimal text *)

(** The digit of [d] when written with [std::hex]. *)
Definition hex_digit (d : Z) : byte :=
  nth (Z.to_nat d)
    ["0"; "1"; "2"; "3"; "4"; "5"; "6"; "7"; "8"; "9";
     "a"; "b"; "c"; "d"; "e"; "f"]%byte "0"%byte.

(** The digits of [n], most significant first, at most [fuel] of them. *)
Fixpoint hex_digits (fuel : nat) (n : Z) : list byte :=
  match fuel with
  | O => []
  | S fuel =>
    (if n <? 16 then [] else hex_digits fuel (n / 16)) ++ [hex_digit (n mod 16)]
  end.

(** [to_hex]: a [std::size_t] has at most 16 hexadecimal digits. *)
Definition to_hex (n : Z) : string := string_of_list_byte (hex_digits 16 n).

(** The number a sequence of characters spells when each is read as
    [decode_hex] reads a digit. *)
Definition spelled (text : list byte) : option Z :=
  foldl (fun acc c => v ← acc; d ← nibble_of c; Some (16 * v + d)) (Some 0) text.

(** The two-digit spelling of a byte, and of a sequence of bytes. *)
Definition hex_of_byte (b : byte) : list byte :=
  let v := Z.of_N (Byte.to_N b) in [hex_digit (v / 16); hex_digit (v mod 16)].

Definition hex_of_bytes (bs : list byte) : list byte :=
  concat (map hex_of_byte bs).

(** The characters [decode_hex] reads as digits. *)
Definition is_digit_char (c : byte) : bool := bool_decide (is_Some (nibble_of c)).

(** ** An instance of the header *)

(** The register block in the order the version-3 reader takes it from
    the file. *)
Definition packed_layout : OldVURegs :=
  {| old_sizeof := 1072; old_VF := 0; old_VI := 512; old_ACC := 1024;
     old_q := 1040; old_p := 1056 |}.

(** The sizes and the register index of the PCSX2 headers: 16 KiB of data
    memory, 16 KiB of program memory, program counter in integer register
    26.  The legacy layouts are not recoverable from the loader; the
    instance gives them the packed layout, and nothing below that uses the
    instance reads a register packet of version 1 or 2. *)
#[global] Instance pcsx2 : Pcsx2Defs :=
  {| VU1_MEMSIZE := 0x4000; VU1_PROGSIZE := 0x4000; TPC := 26;
     old_pcsx2_structs_v1 := packed_layout;
     old_pcsx2_structs_v2 := packed_layout |}.

Definition zeros (n : Z) : list byte := replicate (Z.to_nat n) x00.

(** ** Example data *)

(** The [n] low bytes of [z], little-endian. *)
Fixpoint le_bytes (n : nat) (z : Z) : list byte :=
  match n with
  | O => []
  | S n => byte_of_Z z :: le_bytes n (z / 256)
  end.

(** A snapshot with program counter [pc], zeroed memories and one read
    access record. *)
Definition demo_snapshot (pc raddr rsize : Z) : Snapshot :=
  {| registers :=
       {| VF := VF zero_registers;
          VI := <[TPC := le_bytes 4 pc ++ replicate 12 x00]> (VI zero_registers);
          ACC := zero_cell; q := zero_cell; p := zero_cell |};
     memory := zeros VU1_MEMSIZE; program := zeros VU1_PROGSIZE;
     read_addr := raddr; read_size := rsize; write_addr := 0; write_size := 0 |}.

(** A session over [snaps] with the cursor at [cursor]. *)
Definition demo_app (cursor : Z) (snaps : list Snapshot) : AppState :=
  {| current_snapshot := cursor; snapshots := snaps;
     snapshots_scroll_to := false; disassembly_scroll_to := false;
     instructions :=
       replicate (Z.to_nat (VU1_PROGSIZE / INSN_PAIR_SIZE)) new_instruction |}.

(** Three snapshots at program counters 0, 8, 0: a loop of two
    instruction pairs entered twice. *)
Definition demo_loop (cursor : Z) : AppState :=
  demo_app cursor [demo_snapshot 0 0 0; demo_snapshot 8 0 0; demo_snapshot 0 0 0].

(** Two snapshots; the first one records a 16-byte read at 0x20. *)
Definition demo_read (cursor : Z) : AppState :=
  demo_app cursor [demo_snapshot 0 0x20 16; demo_snapshot 8 0 0].

(** Three snapshots; the last one records a 16-byte read at 0x20. *)
Definition demo_read_late (cursor : Z) : AppState :=
  demo_app cursor [demo_snapshot 0 0 0; demo_snapshot 8 0 0; demo_snapshot 16 0x20 16].

(** The header of a version-3 trace file. *)
Definition header_v3 : list byte := magic_tag ++ [x03; x00; x00; x00].

(** A trace of two pushes with a load record in between. *)
Definition demo_trace : list byte :=
  header_v3 ++ ["P"; "L"; x20; x00; x00; x00; x10; x00; x00; x00; "P"]%byte.

(** A memory patch of the 32-bit word at [address]. *)
Definition patch_memory_packet (address : Z) : list byte :=
  "m"%byte :: le_bytes 2 address ++ [x2a; x00; x00; x00].

(** A register packet of version 3 in which only the program counter is
    not zero. *)
Definition registers_packet (pc : Z) : list byte :=
  "R"%byte :: zeros (32 * 16 + Z.of_nat TPC * 16) ++ le_bytes 4 pc
    ++ zeros (12 + (31 - Z.of_nat TPC) * 16 + 3 * 16).

(** A trace of three pushes, at the program counters 0, 8 and 0. *)
Definition loop_trace : list byte :=
  header_v3 ++ ["P"%byte] ++ registers_packet 8 ++ ["P"%byte]
    ++ registers_packet 0 ++ ["P"%byte].

(** A trace of two pushes, at the program counters 0 and 0x3ff8: a
    branch into the last instruction pair. *)
Definition last_pair_trace : list byte :=
  header_v3 ++ ["P"%byte] ++ registers_packet 0x3ff8 ++ ["P"%byte].

(** A trace that ends in a packet of an unknown type. *)
Definition unknown_packet_trace : list byte := header_v3 ++ ["P"; "Z"]%byte.

(** A memory image whose only byte that is not zero is at 0x3ff0. *)
Definition marked_memory : list byte := zeros 0x3ff0 ++ [x01] ++ zeros 15.

(** No comments, and a comment on the first instruction. *)
Definition blank_comments : Comments :=
  {| comments := replicate COMMENT_SLOTS []; comments_loaded := false;
     comment_file_path := [] |}.

Definition demo_comments : Comments :=
  {| comments := <[0%nat := list_byte_of_string "loop"]> (replicate COMMENT_SLOTS []);
     comments_loaded := true; comment_file_path := list_byte_of_string "a.txt" |}.


(** * Properties *)

(** Inversion of [x ← m; k = Done r]: [m] returned. *)
Ltac bind_inv H :=
  match type of H with
  | mbind _ ?m = Done _ =>
    let E := fresh "E" in
    destruct m eqn:E; cbn [mbind outcome_bind bind] in H; [| discriminate H]
  end.

(** Closed arithmetic facts about example data, by evaluation. *)
Ltac by_evaluation :=
  vm_compute; repeat split; first [reflexivity | discriminate].

(** ** Arithmetic and indexing *)

Lemma to_size_t_small z : 0 <= z < 2 ^ 64 -> to_size_t z = z.
Proof. intros H. unfold to_size_t. apply Z.mod_small. exact H. Qed.

Lemma to_int_small z : 0 <= z < 2 ^ 31 -> to_int z = z.
Proof.
  intros H. unfold to_int.
  rewrite Z.mod_small by lia.
  destruct (Z.ltb_spec z (2 ^ 31)); lia.
Qed.

Lemma size_nonneg {A} (v : list A) : 0 <= size v.
Proof. unfold size. lia. Qed.

Lemma at_index_Done {A} (v : list A) i x :
  at_index v i = Done x <-> 0 <= i < size v /\ v !! Z.to_nat i = Some x.
Proof.
  unfold at_index.
  destruct (Z.leb_spec 0 i), (Z.ltb_spec i (size v)); simpl;
    try (split; [discriminate | lia]).
  destruct (v !! Z.to_nat i) eqn:E.
  - split; [intros [= ->]; auto | intros [_ [= ->]]; reflexivity].
  - split; [discriminate | intros [_ [=]]].
Qed.

Lemma at_index_in_range {A} (v : list A) i :
  0 <= i < size v -> exists x, at_index v i = Done x /\ v !! Z.to_nat i = Some x.
Proof.
  intros H. unfold size in H.
  destruct (lookup_lt_is_Some_2 v (Z.to_nat i)) as [x Hx]; [lia |].
  exists x. split; [| exact Hx]. apply at_index_Done. unfold size. auto.
Qed.

Section Navigation.
Context `{defs : Pcsx2Defs}.
Lemma walk_pc_loop_forward app target_pc fuel snapshot :
  let n := size (snapshots app) in
  0 <= snapshot <= n -> n < 2 ^ 31 -> n - snapshot < Z.of_nat fuel ->
  (exists j, snapshot < j < n /\ pc_at app j = Some target_pc /\
     (forall i, snapshot < i < j -> pc_at app i <> Some target_pc) /\
     walk_pc_loop fuel app target_pc 1 snapshot = Done (Some j))
  \/ ((forall i, snapshot < i < n -> pc_at app i <> Some target_pc) /\
      walk_pc_loop fuel app target_pc 1 snapshot = Done None).
Proof.
  intros n. subst n. revert snapshot.
  induction fuel as [| fuel IH]; intros snapshot Hs Hn Hfuel; [lia |].
  cbn [walk_pc_loop].
  rewrite to_int_small by lia.
  rewrite to_size_t_small by lia.
  destruct (Z.gtb_spec (Z.opp 1) snapshot) as [? | _]; [lia |]. cbn [orb].
  destruct (Z.geb_spec (snapshot + 1) (size (snapshots app))) as [Hend | Hin].
  - right. split; [intros i Hi; lia | reflexivity].
  - destruct (at_index_in_range (snapshots app) (snapshot + 1)) as (snap & -> & Hsnap);
      [lia |].
    cbn [mbind outcome_bind bind].
    destruct (Z.eqb_spec (pc_of snap) target_pc) as [Heq | Hne]; cbn [negb].
    + left. exists (snapshot + 1).
      split; [lia |]. split; [| split; [intros i Hi; lia | reflexivity]].
      unfold pc_at. rewrite Hsnap. simpl. congruence.
    + destruct (IH (snapshot + 1)) as [(j & Hj & Hpc & Hfirst & ->) | (Hnone & ->)];
        try lia.
      * left. exists j.
        split; [lia |]. split; [exact Hpc |]. split; [| reflexivity].
        intros i Hi. destruct (Z.eq_dec i (snapshot + 1)) as [-> | ?].
        -- unfold pc_at. rewrite Hsnap. simpl. congruence.
        -- apply Hfirst. lia.
      * right. split; [| reflexivity].
        intros i Hi. destruct (Z.eq_dec i (snapshot + 1)) as [-> | ?].
        -- unfold pc_at. rewrite Hsnap. simpl. congruence.
        -- apply Hnone. lia.
Qed.

Lemma walk_pc_loop_backward app target_pc fuel snapshot :
  let n := size (snapshots app) in
  0 <= snapshot <= n -> n < 2 ^ 31 -> snapshot < Z.of_nat fuel ->
  (exists j, 0 <= j < snapshot /\ pc_at app j = Some target_pc /\
     (forall i, j < i < snapshot -> pc_at app i <> Some target_pc) /\
     walk_pc_loop fuel app target_pc (-1) snapshot = Done (Some j))
  \/ ((forall i, 0 <= i < snapshot -> pc_at app i <> Some target_pc) /\
      walk_pc_loop fuel app target_pc (-1) snapshot = Done None).
Proof.
  intros n. subst n. revert snapshot.
  induction fuel as [| fuel IH]; intros snapshot Hs Hn Hfuel; [lia |].
  cbn [walk_pc_loop].
  rewrite to_int_small by lia.
  change (Z.opp (-1)) with 1.
  destruct (Z.gtb_spec 1 snapshot) as [Hzero | Hpos]; cbn [orb].
  - right. split; [intros i Hi; lia | reflexivity].
  - rewrite to_size_t_small by lia.
    destruct (Z.geb_spec (snapshot + -1) (size (snapshots app))) as [? | _]; [lia |].
    destruct (at_index_in_range (snapshots app) (snapshot + -1)) as (snap & -> & Hsnap);
      [lia |].
    cbn [mbind outcome_bind bind].
    destruct (Z.eqb_spec (pc_of snap) target_pc) as [Heq | Hne]; cbn [negb].
    + left. exists (snapshot + -1).
      split; [lia |]. split; [| split; [intros i Hi; lia | reflexivity]].
      unfold pc_at. rewrite Hsnap. simpl. congruence.
    + destruct (IH (snapshot + -1)) as [(j & Hj & Hpc & Hlast & ->) | (Hnone & ->)];
        try lia.
      * left. exists j.
        split; [lia |]. split; [exact Hpc |]. split; [| reflexivity].
        intros i Hi. destruct (Z.eq_dec i (snapshot + -1)) as [-> | ?].
        -- unfold pc_at. rewrite Hsnap. simpl. congruence.
        -- apply Hlast. lia.
      * right. split; [| reflexivity].
        intros i Hi. destruct (Z.eq_dec i (snapshot + -1)) as [-> | ?].
        -- unfold pc_at. rewrite Hsnap. simpl. congruence.
        -- apply Hnone. lia.
Qed.

(** A search that moves the cursor moves it to an index of the store. *)
Lemma walk_pc_loop_in_store app target_pc step fuel snapshot j :
  walk_pc_loop fuel app target_pc step snapshot = Done (Some j) ->
  0 <= j < size (snapshots app).
Proof.
  revert snapshot. induction fuel as [| fuel IH]; intros snapshot H; [discriminate H |].
  cbn [walk_pc_loop] in H.
  destruct ((- step >? to_int snapshot)
            || (to_size_t (snapshot + step) >=? size (snapshots app)));
    [discriminate H |].
  bind_inv H. apply at_index_Done in E as [Hrange _].
  destruct (negb (pc_of a =? target_pc)); [eauto | congruence].
Qed.

(** C8: seek-by-equal-PC with step +1 from cursor [k] moves the cursor to
    the smallest index [j > k] whose program counter is [target_pc] and
    returns true, or, when no index in [k+1 .. size-1] has it, leaves the
    session as it is and returns false; with step -1 it moves to the
    largest [j < k] with that program counter (indices [k-1] down to 0),
    or leaves the session as it is and returns false.  A move sets the
    cursor to [j] and raises [snapshots_scroll_to]; the other flag, the
    store and the instruction table stay as they were.  The store is one
    whose indices fit an [int], the type the loop casts them to. *)
Theorem walk_until_pc_equal_nearest app target_pc fuel :
  let k := current_snapshot app in
  let n := size (snapshots app) in
  0 <= k <= n -> n < 2 ^ 31 -> n < Z.of_nat fuel ->
  ((exists j app', k < j < n /\ pc_at app j = Some target_pc /\
      (forall i, k < i < j -> pc_at app i <> Some target_pc) /\
      walk_until_pc_equal fuel app target_pc 1 = Done (true, app') /\
      current_snapshot app' = j /\ snapshots_scroll_to app' = true /\
      disassembly_scroll_to app' = disassembly_scroll_to app /\
      snapshots app' = snapshots app /\ instructions app' = instructions app)
   \/ ((forall i, k < i < n -> pc_at app i <> Some target_pc) /\
       walk_until_pc_equal fuel app target_pc 1 = Done (false, app)))
  /\
  ((exists j app', 0 <= j < k /\ pc_at app j = Some target_pc /\
      (forall i, j < i < k -> pc_at app i <> Some target_pc) /\
      walk_until_pc_equal fuel app target_pc (-1) = Done (true, app') /\
      current_snapshot app' = j /\ snapshots_scroll_to app' = true /\
      disassembly_scroll_to app' = disassembly_scroll_to app /\
      snapshots app' = snapshots app /\ instructions app' = instructions app)
   \/ ((forall i, 0 <= i < k -> pc_at app i <> Some target_pc) /\
       walk_until_pc_equal fuel app target_pc (-1) = Done (false, app))).
Proof.
  intros k n Hk Hn Hfuel. subst k n. unfold walk_until_pc_equal. split.
  - destruct (walk_pc_loop_forward app target_pc fuel (current_snapshot app))
      as [(j & Hj & Hpc & Hfirst & ->) | (Hnone & ->)]; try lia.
    + left. exists j, (set_cursor app j).
      split; [exact Hj |]. split; [exact Hpc |]. split; [exact Hfirst |].
      cbn. repeat split; reflexivity.
    + right. auto.
  - destruct (walk_pc_loop_backward app target_pc fuel (current_snapshot app))
      as [(j & Hj & Hpc & Hlast & ->) | (Hnone & ->)]; try lia.
    + left. exists j, (set_cursor app j).
      split; [exact Hj |]. split; [exact Hpc |]. split; [exact Hlast |].
      cbn. repeat split; reflexivity.
    + right. auto.
Qed.

End Navigation.

(** ** Seek by memory access *)

Lemma cyclic_return c n m :
  0 <= c < n -> 1 <= m <= n -> ((c + m) mod n = c <-> m = n).
Proof.
  intros Hc Hm. split.
  - intros H. destruct (Z.lt_ge_cases (c + m) n) as [Hlt | Hge].
    + rewrite Z.mod_small in H by lia. lia.
    + replace (c + m) with (c + m - n + 1 * n) in H by lia.
      rewrite Z.mod_add, Z.mod_small in H by lia. lia.
  - intros ->. replace (c + n) with (c + 1 * n) by lia.
    rewrite Z.mod_add, Z.mod_small by lia. reflexivity.
Qed.

Lemma cyclic_next c n k :
  0 <= c -> 0 < n -> n < 2 ^ 64 -> 0 <= k ->
  to_size_t ((c + k) mod n + 1) mod n = (c + 1 + k) mod n.
Proof.
  intros Hc Hn Hmax Hk.
  pose proof (Z.mod_pos_bound (c + k) n Hn) as Hb.
  rewrite to_size_t_small by lia.
  rewrite Z.add_mod_idemp_l by lia. f_equal. lia.
Qed.

Lemma accessed_at_lookup app address j snap :
  snapshots app !! Z.to_nat j = Some snap ->
  accessed_at app address j = accesses snap address.
Proof. intros H. unfold accessed_at. rewrite H. reflexivity. Qed.

(** The loop, entered after [k] indices of the cyclic order have been
    tried, tries the remaining ones in order, stops at the first with an
    access, and gives up after the last. *)
Lemma walk_mem_loop_scan app address fuel (k : nat) :
  let n := size (snapshots app) in
  let c := current_snapshot app in
  0 <= c < n -> n < 2 ^ 64 ->
  (k < length (snapshots app))%nat -> (length (snapshots app) - k <= fuel)%nat ->
  exists visited,
    walk_mem_loop fuel app address ((c + Z.of_nat k) mod n) =
      (visited,
       Done (match List.find (accessed_at app address)
                     (map (fun i => (c + 1 + Z.of_nat i) mod n)
                          (seq k (length (snapshots app) - k))) with
             | Some j => if j >=? 1 then land_before app j else app
             | None => app
             end))
    /\ Forall (fun i => 0 <= i < n) visited
    /\ (length visited <= length (snapshots app) - k)%nat.
Proof.
  intros n c Hc Hn. revert k.
  induction fuel as [| fuel IH]; intros k Hk Hfuel; [lia |].
  cbn [walk_mem_loop]. fold n c.
  destruct (Z.eqb_spec n 0) as [? | _]; [lia |].
  rewrite cyclic_next by lia.
  set (s := (c + 1 + Z.of_nat k) mod n).
  assert (0 <= s < n) as Hs by (apply Z.mod_pos_bound; lia).
  destruct (at_index_in_range (snapshots app) s Hs) as (snap & -> & Hsnap).
  replace (length (snapshots app) - k)%nat
    with (S (length (snapshots app) - S k)) by lia.
  cbn [seq map List.find]. fold s.
  rewrite (accessed_at_lookup _ _ _ _ Hsnap).
  destruct (accesses snap address).
  - exists [s]. split; [reflexivity |].
    split; [repeat constructor; lia | simpl; lia].
  - destruct (Z.eqb_spec s c) as [Hback | Hon]; cbn [negb].
    + assert (Z.of_nat (S k) = n) as Hlast.
      { apply (cyclic_return c n (Z.of_nat (S k))); [lia | unfold n, size in *; lia |].
        rewrite <- Hback at 2. unfold s. f_equal. lia. }
      replace (length (snapshots app) - S k)%nat with 0%nat
        by (unfold n, size in Hlast; lia).
      exists [s]. split; [reflexivity |].
      split; [repeat constructor; lia | simpl; lia].
    + assert (S k < length (snapshots app))%nat as Hmore.
      { destruct (decide (S k < length (snapshots app))%nat) as [? | Hnot]; [assumption |].
        exfalso. apply Hon. unfold s.
        replace (c + 1 + Z.of_nat k) with (c + n) by (unfold n, size; lia).
        apply cyclic_return; lia. }
      destruct (IH (S k) Hmore) as (visited & Hloop & Hall & Hlen); [lia |].
      replace (c + Z.of_nat (S k)) with (c + 1 + Z.of_nat k) in Hloop by lia.
      fold s in Hloop. rewrite Hloop.
      exists (s :: visited). split; [reflexivity |].
      split; [constructor; [lia | exact Hall] | simpl; lia].
Qed.

Lemma walk_until_mem_access_scan app address fuel :
  let n := size (snapshots app) in
  0 <= current_snapshot app < n -> n < 2 ^ 64 -> n <= Z.of_nat fuel ->
  exists visited,
    walk_until_mem_access fuel app address =
      (visited,
       Done (match first_access app address with
             | Some j => if j >=? 1 then land_before app j else app
             | None => app
             end))
    /\ Forall (fun i => 0 <= i < n) visited
    /\ (length visited <= length (snapshots app))%nat.
Proof.
  intros n Hc Hn Hfuel. unfold n, size in *.
  destruct (walk_mem_loop_scan app address fuel 0) as (visited & Hloop & Hall & Hlen);
    unfold size; try lia.
  exists visited. split; [| split; [exact Hall | lia]].
  unfold walk_until_mem_access, first_access, scan_order.
  rewrite Z.add_0_r, Z.mod_small, Nat.sub_0_r in Hloop by (unfold size; lia).
  exact Hloop.
Qed.

(** C1, as amended: on a non-empty store with the cursor at one of its
    indices, the routine tries the indices in cyclic order from the one
    after the cursor.  When the first index [j] with an access to the
    block of [address] is at least 1, the cursor becomes [j - 1] and both
    scroll flags are raised; when that first index is 0, or when no index
    has such an access, the session is left as it was.  A move changes
    neither the store nor the instruction table.  An index has such an
    access when its snapshot has a read record or a write record of a
    size above 0 whose address lies in the 16-byte block of [address].
    The routine returns no value. *)
Theorem walk_until_mem_access_first app address fuel :
  let n := size (snapshots app) in
  let result := (walk_until_mem_access fuel app address).2 in
  snapshots app <> [] ->
  0 <= current_snapshot app < n -> n < 2 ^ 64 -> n <= Z.of_nat fuel ->
  (forall j, first_access app address = Some j -> 1 <= j ->
     exists app',
       result = Done app'
       /\ current_snapshot app' = j - 1
       /\ snapshots_scroll_to app' = true /\ disassembly_scroll_to app' = true
       /\ snapshots app' = snapshots app /\ instructions app' = instructions app)
  /\ (first_access app address = Some 0 -> result = Done app)
  /\ (first_access app address = None -> result = Done app)
  /\ (forall j,
        accessed_at app address j = true <->
        exists snap,
          snapshots app !! Z.to_nat j = Some snap
          /\ (0 < read_size snap /\ read_addr snap / 16 = address / 16
              \/ 0 < write_size snap /\ write_addr snap / 16 = address / 16)).
Proof.
  intros n result _ Hc Hn Hfuel. subst result.
  destruct (walk_until_mem_access_scan app address fuel) as (visited & -> & _);
    try assumption.
  cbn [snd]. split; [| split; [| split]].
  - intros j -> Hj. destruct (Z.geb_spec j 1); [| lia].
    exists (land_before app j). cbn. repeat split; reflexivity.
  - intros ->. reflexivity.
  - intros ->. reflexivity.
  - intros j. unfold accessed_at.
    destruct (snapshots app !! Z.to_nat j) as [snap |].
    + unfold accesses. rewrite orb_true_iff, !andb_true_iff.
      rewrite !Z.gtb_lt, !Z.eqb_eq. split.
      * intros H. exists snap. split; [reflexivity | exact H].
      * intros (snap' & [= <-] & H). exact H.
    + split; [discriminate |]. intros (snap & [=] & _).
Qed.

(** C10: with an empty store the first turn of the loop divides by zero;
    with a non-empty store and the cursor at one of its indices, the
    routine returns within as many turns as there are snapshots, every
    index at which it reads the store is one of the store, and so is the
    cursor it leaves. *)
Theorem walk_until_mem_access_safe app address :
  let n := size (snapshots app) in
  (snapshots app = [] ->
     forall fuel, walk_until_mem_access (S fuel) app address = ([], Fail DivisionByZero))
  /\ (snapshots app <> [] -> 0 <= current_snapshot app < n -> n < 2 ^ 64 ->
      exists visited app',
        walk_until_mem_access (length (snapshots app)) app address = (visited, Done app')
        /\ Forall (fun i => 0 <= i < n) visited
        /\ (length visited <= length (snapshots app))%nat
        /\ 0 <= current_snapshot app' < n).
Proof.
  intros n. split.
  - intros Hempty fuel. unfold walk_until_mem_access. cbn [walk_mem_loop].
    rewrite Hempty. reflexivity.
  - intros _ Hc Hn.
    destruct (walk_until_mem_access_scan app address (length (snapshots app)))
      as (visited & Hwalk & Hall & Hlen); try assumption; [unfold size; lia |].
    eexists visited, _. split; [exact Hwalk |].
    split; [exact Hall |]. split; [exact Hlen |].
    destruct (first_access app address) as [j |] eqn:Hfirst; [| exact Hc].
    destruct (Z.geb_spec j 1) as [Hj | _]; [| exact Hc].
    cbn [land_before current_snapshot].
    apply find_some in Hfirst as [Hin _].
    unfold scan_order in Hin. apply in_map_iff in Hin as (i & <- & _).
    pose proof (Z.mod_pos_bound (current_snapshot app + 1 + Z.of_nat i) n) as Hb.
    unfold n in *. lia.
Qed.

(** ** Byte search *)

Section ByteSearch.
Context `{defs : Pcsx2Defs}.

Lemma memcmp_at_occurs memory value_raw i :
  0 <= i -> i + size value_raw <= size memory ->
  exists same, memcmp_at value_raw memory i = Done same /\
    (same = true <-> occurs_at memory value_raw i).
Proof.
  intros Hi Hfit. unfold memcmp_at.
  destruct (Z.leb_spec 0 i); [| lia].
  destruct (Z.leb_spec (i + size value_raw) (size memory)); [| lia].
  cbn [andb]. eexists. split; [reflexivity |].
  rewrite bool_decide_eq_true. unfold occurs_at. tauto.
Qed.

(** The loop tries the addresses [i .. i + remaining - 1] in order and
    stops at the first one where the pattern occurs. *)
Lemma find_bytes_from_lowest memory value_raw remaining i :
  0 <= i -> i + Z.of_nat remaining + size value_raw <= size memory + 1 ->
  (exists a, i <= a < i + Z.of_nat remaining /\
     find_bytes_from memory value_raw i remaining = Done (Some a) /\
     occurs_at memory value_raw a /\
     forall b, i <= b < a -> ~ occurs_at memory value_raw b)
  \/ (find_bytes_from memory value_raw i remaining = Done None /\
      forall b, i <= b < i + Z.of_nat remaining -> ~ occurs_at memory value_raw b).
Proof.
  revert i. induction remaining as [| remaining IH]; intros i Hi Hfit.
  - right. split; [reflexivity | intros b Hb; lia].
  - cbn [find_bytes_from].
    destruct (memcmp_at_occurs memory value_raw i) as (same & -> & Hsame); try lia.
    cbn [mbind outcome_bind bind]. destruct same.
    + left. exists i. split; [lia |]. split; [reflexivity |].
      split; [apply Hsame; reflexivity | intros b Hb; lia].
    + assert (~ occurs_at memory value_raw i) as Hhere
        by (intros H; apply Hsame in H; discriminate).
      destruct (IH (i + 1)) as [(a & Ha & -> & Hocc & Hlow) | (-> & Hnone)]; try lia.
      * left. exists a. split; [lia |]. split; [reflexivity |].
        split; [exact Hocc |]. intros b Hb.
        destruct (Z.eq_dec b i) as [-> | ?]; [exact Hhere | apply Hlow; lia].
      * right. split; [reflexivity |]. intros b Hb.
        destruct (Z.eq_dec b i) as [-> | ?]; [exact Hhere | apply Hnone; lia].
Qed.

(** What the search delivers on a memory image and a pattern no longer
    than it: the lowest address below [VU1_MEMSIZE - n] at which the
    pattern occurs, where [n] is the length of the pattern. *)
Lemma find_bytes_lowest memory value_raw :
  let bound := VU1_MEMSIZE - size value_raw in
  size memory = VU1_MEMSIZE -> 0 <= bound -> VU1_MEMSIZE < 2 ^ 64 ->
  (exists a, 0 <= a < bound /\ find_bytes memory value_raw = Done (Some a) /\
     occurs_at memory value_raw a /\
     forall b, 0 <= b < a -> ~ occurs_at memory value_raw b)
  \/ (find_bytes memory value_raw = Done None /\
      forall b, 0 <= b < bound -> ~ occurs_at memory value_raw b).
Proof.
  intros bound Hsize Hbound Hmax. unfold find_bytes. fold bound.
  pose proof (size_nonneg value_raw).
  rewrite to_size_t_small by lia.
  destruct (find_bytes_from_lowest memory value_raw (Z.to_nat bound) 0)
    as [(a & Ha & Hfind & Hocc & Hlow) | (Hfind & Hnone)]; try lia.
  - left. exists a. split; [lia |]. auto.
  - right. split; [exact Hfind |]. intros b Hb. apply Hnone. lia.
Qed.

Lemma occurs_at_single memory b a :
  occurs_at memory [b] a -> memory !! Z.to_nat a = Some b.
Proof.
  intros (_ & _ & Htake).
  apply (f_equal (fun l => l !! 0%nat)) in Htake. cbn [length] in Htake.
  rewrite lookup_take_lt, lookup_drop, Nat.add_0_r in Htake by lia.
  exact Htake.
Qed.

End ByteSearch.

(** C4, at the last address: in a memory image of zeros that ends in the
    byte 01, the pattern 01 occurs at address 0x3fff, where pattern and
    memory end together, and the search reports that there is no match. *)
Theorem find_bytes_misses_last_address :
  let memory := zeros 0x3fff ++ [x01] in
  let value_raw := decode_hex "01" in
  size memory = VU1_MEMSIZE
  /\ value_raw = [x01]
  /\ occurs_at memory value_raw 0x3fff
  /\ find_bytes memory value_raw = Done None.
Proof.
  intros memory value_raw.
  assert (size memory = VU1_MEMSIZE) as Hsize by by_evaluation.
  assert (value_raw = [x01]) as Hvalue by reflexivity.
  split; [exact Hsize |]. split; [exact Hvalue |]. split; [by_evaluation |].
  rewrite Hvalue.
  destruct (find_bytes_lowest memory [x01])
    as [(a & Ha & _ & Hocc & _) | (Hfind & _)];
    [exact Hsize | by_evaluation | by_evaluation | | exact Hfind].
  exfalso. apply occurs_at_single in Hocc.
  change (VU1_MEMSIZE - size [x01]) with 0x3fff in Ha.
  unfold memory, zeros in Hocc.
  rewrite lookup_app_l in Hocc by (rewrite length_replicate; lia).
  apply lookup_replicate in Hocc as [Hbyte _]. discriminate Hbyte.
Qed.

(** ** Reading *)

Lemma fread_Done n trace buf rest :
  fread n trace = Done (buf, rest) ->
  trace = buf ++ rest /\ length buf = n /\ (0 < n)%nat.
Proof.
  unfold fread.
  destruct (Nat.ltb_spec 0 n), (Nat.leb_spec n (length trace));
    cbn [andb]; try discriminate.
  intros [= <- <-].
  rewrite take_drop, length_take_le by lia. auto.
Qed.

Lemma fread_app n buf rest :
  length buf = n -> (0 < n)%nat -> fread n (buf ++ rest) = Done (buf, rest).
Proof.
  intros Hlen Hpos. unfold fread.
  destruct (Nat.ltb_spec 0 n); [| lia].
  destruct (Nat.leb_spec n (length (buf ++ rest)));
    [| rewrite length_app in *; lia].
  cbn [andb]. rewrite take_app_length', drop_app_length' by auto. reflexivity.
Qed.

Lemma fread_short n trace :
  (length trace < n)%nat -> fread n trace = Fail UnexpectedEof.
Proof.
  intros Hlen. unfold fread.
  destruct (Nat.leb_spec n (length trace)); [lia |].
  rewrite andb_false_r. reflexivity.
Qed.

Lemma le_value_bounds bs : 0 <= le_value bs < 256 ^ Z.of_nat (length bs).
Proof.
  induction bs as [| b bs IH]; cbn [le_value length]; [lia |].
  pose proof (Byte.to_N_bounded b).
  rewrite Nat2Z.inj_succ, Z.pow_succ_r by lia. lia.
Qed.

Lemma UL_bounds c : 0 <= UL c < 2 ^ 32.
Proof.
  unfold UL. pose proof (le_value_bounds (take 4 c)) as H.
  assert (length (take 4 c) <= 4)%nat by (rewrite length_take; lia).
  assert (256 ^ Z.of_nat (length (take 4 c)) <= 256 ^ 4)
    by (apply Z.pow_le_mono_r; lia).
  change (2 ^ 32) with (256 ^ 4). lia.
Qed.

Section Ingestion.
Context `{defs : Pcsx2Defs}.

Lemma pc_of_bounds snap : 0 <= pc_of snap < 2 ^ 32.
Proof. apply UL_bounds. Qed.

(** C3: a register patch with index 32 to 63 replaces integer register
    [index - 32], with index 65 register [q], with index 66 register [p],
    each by the 16 bytes of the packet.  Every other register of these
    kinds, all vector registers, the accumulator, both memory images and
    the access records of the current state stay as they were, and so
    does the session. *)
Theorem patch_register_narrow version (index : byte) (data rest : list byte)
    app current :
  let i := Z.of_N (Byte.to_N index) in
  let regs := registers current in
  length data = 16%nat ->
  32 <= i < 64 \/ i = 65 \/ i = 66 ->
  exists current',
    packet_step version "r" (index :: data ++ rest) app current
      = Done (app, current', rest)
    /\ memory current' = memory current /\ program current' = program current
    /\ read_addr current' = read_addr current
    /\ read_size current' = read_size current
    /\ write_addr current' = write_addr current
    /\ write_size current' = write_size current
    /\ VF (registers current') = VF regs /\ ACC (registers current') = ACC regs
    /\ (32 <= i < 64 ->
          VI (registers current') = <[Z.to_nat (i - 32) := data]> (VI regs)
          /\ (forall j, j <> Z.to_nat (i - 32) ->
                VI (registers current') !! j = VI regs !! j)
          /\ q (registers current') = q regs /\ p (registers current') = p regs)
    /\ (i = 65 ->
          VI (registers current') = VI regs
          /\ q (registers current') = data /\ p (registers current') = p regs)
    /\ (i = 66 ->
          VI (registers current') = VI regs
          /\ q (registers current') = q regs /\ p (registers current') = data).
Proof.
  intros i regs Hdata Hindex.
  assert (packet_step version "r" (index :: data ++ rest) app current
          = regs' ← patch_register regs i data;
            Done (app, set_registers current regs', rest)) as ->.
  { cbn [packet_step].
    change (index :: data ++ rest) with ([index] ++ data ++ rest).
    rewrite (fread_app 1 [index]) by (simpl; lia).
    cbn [mbind outcome_bind bind].
    rewrite (fread_app 16 data) by lia.
    cbn [mbind outcome_bind bind le_value].
    replace (Z.of_N (Byte.to_N index) + 256 * 0) with i by (unfold i; lia).
    reflexivity. }
  unfold patch_register.
  destruct Hindex as [Hvi | [Hq | Hp]].
  - destruct (Z.ltb_spec i 32); [lia |].
    destruct (Z.ltb_spec i 64); [| lia].
    eexists. cbn [mbind outcome_bind bind]. split; [reflexivity |].
    cbn. repeat (split; [reflexivity |]).
    split; [| split; intros; lia].
    intros _. split; [reflexivity |]. split; [| auto].
    intros j Hj. apply list_lookup_insert_ne. auto.
  - rewrite Hq. eexists. cbn. split; [reflexivity |].
    repeat (split; [reflexivity |]).
    split; [intros; lia |]. split; [auto | intros; lia].
  - rewrite Hp. eexists. cbn. split; [reflexivity |].
    repeat (split; [reflexivity |]).
    split; [intros; lia |]. split; [intros; lia | auto].
Qed.

(** *** Pushing a snapshot *)

Lemma update_at_alter {A} (v : list A) i (f : A -> A) :
  0 <= i < size v -> update_at v i f = Done (alter f (Z.to_nat i) v).
Proof.
  intros Hi. unfold update_at.
  destruct (at_index_in_range v i Hi) as (x & -> & Hx).
  cbn [mbind outcome_bind bind]. f_equal.
  rewrite list_insert_alter. apply list_alter_ext; [| reflexivity].
  intros y Hy. congruence.
Qed.

Lemma size_alter {A} (f : A -> A) i (v : list A) : size (alter f i v) = size v.
Proof. unfold size. rewrite length_alter. reflexivity. Qed.

Lemma slot_in_table pc :
  defs_ok -> 0 <= pc < VU1_PROGSIZE ->
  0 <= pc / INSN_PAIR_SIZE < VU1_PROGSIZE / INSN_PAIR_SIZE.
Proof.
  intros [_ Hpairs _] Hpc. unfold INSN_PAIR_SIZE in *.
  pose proof (Z.div_mod VU1_PROGSIZE 8 ltac:(lia)) as Hdm.
  split; [apply Z.div_pos; lia | apply Z.div_lt_upper_bound; lia].
Qed.

Lemma at_index_before_last {A} (l : list A) x prev :
  last l = Some prev -> at_index (l ++ [x]) (size (l ++ [x]) - 2) = Done prev.
Proof.
  intros Hlast. apply last_Some in Hlast as [l' ->].
  apply at_index_Done. unfold size. rewrite !length_app. cbn [length].
  split; [lia |].
  replace (Z.to_nat (Z.of_nat (length l' + 1 + 1) - 2)) with (length l') by lia.
  rewrite <- app_assoc. apply list_lookup_middle. reflexivity.
Qed.

(** The push, on a state of the loader and a program counter that passes
    the test, appends the current state, updates the table as the Flow
    Analyzer prescribes, and clears the access records. *)
Lemma push_snapshot_flow app current :
  defs_ok -> ingesting app ->
  pc_of current < VU1_PROGSIZE -> pc_of current mod INSN_PAIR_SIZE = 0 ->
  push_snapshot app current =
    Done ({| current_snapshot := current_snapshot app;
             snapshots := snapshots app ++ [current];
             snapshots_scroll_to := snapshots_scroll_to app;
             disassembly_scroll_to := disassembly_scroll_to app;
             instructions :=
               flow_update (last (snapshots app)) (pc_of current) (instructions app) |},
          clear_access current).
Proof.
  intros Hdefs [Htable Hstored] Hpc Hmod.
  pose proof (pc_of_bounds current) as Hpc0.
  assert (0 <= pc_of current / INSN_PAIR_SIZE < VU1_PROGSIZE / INSN_PAIR_SIZE)
    as Hslot by (apply slot_in_table; [exact Hdefs | lia]).
  unfold push_snapshot, flow_update.
  destruct (Z.geb_spec (pc_of current) VU1_PROGSIZE); [lia |].
  destruct (Z.eqb_spec (pc_of current mod INSN_PAIR_SIZE) 0); [| lia].
  cbn [orb negb].
  rewrite update_at_alter by lia. cbn [mbind outcome_bind bind].
  assert (record_branch (snapshots app ++ [current]) (pc_of current)
            (alter mark_executed (Z.to_nat (pc_of current / INSN_PAIR_SIZE))
               (instructions app))
          = Done (match last (snapshots app) with
                  | Some prev =>
                    if decide (pc_of prev + INSN_PAIR_SIZE = pc_of current)
                    then alter mark_executed
                           (Z.to_nat (pc_of current / INSN_PAIR_SIZE)) (instructions app)
                    else alter (add_branch_from (pc_of prev))
                           (Z.to_nat (pc_of current / INSN_PAIR_SIZE))
                           (alter (add_branch_to (pc_of current))
                              (Z.to_nat (pc_of prev / INSN_PAIR_SIZE))
                              (alter mark_executed
                                 (Z.to_nat (pc_of current / INSN_PAIR_SIZE))
                                 (instructions app)))
                  | None =>
                    alter mark_executed
                      (Z.to_nat (pc_of current / INSN_PAIR_SIZE)) (instructions app)
                  end)) as ->.
  { unfold record_branch.
    destruct (last (snapshots app)) as [prev |] eqn:Hlast.
    - assert (size (snapshots app ++ [current]) >= 2) as Hsize.
      { apply last_Some in Hlast as [l' ->]. unfold size.
        rewrite !length_app. cbn [length]. lia. }
      destruct (Z.geb_spec (size (snapshots app ++ [current])) 2); [| lia].
      rewrite (at_index_before_last _ _ _ Hlast). cbn [mbind outcome_bind bind].
      assert (pc_of prev < VU1_PROGSIZE) as Hprev.
      { rewrite Forall_forall in Hstored. apply Hstored.
        apply last_Some_elem_of. exact Hlast. }
      pose proof (pc_of_bounds prev) as Hprev0.
      assert (0 <= pc_of prev / INSN_PAIR_SIZE < VU1_PROGSIZE / INSN_PAIR_SIZE)
        as Hslot' by (apply slot_in_table; [exact Hdefs | lia]).
      destruct Hdefs as [_ _ Hu32].
      rewrite Z.mod_small by (unfold INSN_PAIR_SIZE in *; lia).
      destruct (Z.eqb_spec (pc_of prev + INSN_PAIR_SIZE) (pc_of current))
        as [Heq | Hne]; cbn [negb];
        destruct (decide (pc_of prev + INSN_PAIR_SIZE = pc_of current));
        try contradiction; [reflexivity |].
      rewrite update_at_alter by (rewrite size_alter; lia).
      cbn [mbind outcome_bind bind].
      rewrite update_at_alter by (rewrite !size_alter; lia).
      reflexivity.
    - apply last_None in Hlast. rewrite Hlast. reflexivity. }
  cbn [mbind outcome_bind bind].
  rewrite update_at_alter.
  - reflexivity.
  - destruct (last (snapshots app)); [destruct (decide _) |];
      rewrite ?size_alter; lia.
Qed.

(** *** Branch counters under the updates of a push *)

Lemma map_incr_same m k :
  default 0 (map_incr m k !! k) = size_t_incr (default 0 (m !! k)).
Proof. unfold map_incr. rewrite lookup_insert_eq. reflexivity. Qed.

Lemma map_incr_other m k k' : k' <> k -> map_incr m k !! k' = m !! k'.
Proof. intros Hk. unfold map_incr. apply lookup_insert_ne. auto. Qed.

Lemma lookup_alter_field {B} (g : Instruction -> B) f
    (instrs : list Instruction) (i slot : nat) :
  (forall x, g (f x) = g x) ->
  g <$> alter f i instrs !! slot = g <$> instrs !! slot.
Proof.
  intros Hg. rewrite list_lookup_alter.
  destruct (decide (i = slot)) as [-> | _]; [| reflexivity].
  destruct (instrs !! slot); cbn; [rewrite Hg |]; reflexivity.
Qed.

Lemma lookup_alter_other {B} (g : Instruction -> B) f
    (instrs : list Instruction) (i slot : nat) :
  slot <> i -> g <$> alter f i instrs !! slot = g <$> instrs !! slot.
Proof. intros Hne. rewrite list_lookup_alter_ne by auto. reflexivity. Qed.

Lemma branch_to_count_field instrs instrs' slot target :
  branch_to_times <$> instrs' !! slot = branch_to_times <$> instrs !! slot ->
  branch_to_count instrs' slot target = branch_to_count instrs slot target.
Proof.
  unfold branch_to_count.
  destruct (instrs' !! slot), (instrs !! slot); cbn; intros [=]; congruence.
Qed.

Lemma branch_from_count_field instrs instrs' slot source :
  branch_from_times <$> instrs' !! slot = branch_from_times <$> instrs !! slot ->
  branch_from_count instrs' slot source = branch_from_count instrs slot source.
Proof.
  unfold branch_from_count.
  destruct (instrs' !! slot), (instrs !! slot); cbn; intros [=]; congruence.
Qed.

Lemma branch_to_count_frame f (i : nat) instrs slot target :
  (forall x, branch_to_times (f x) = branch_to_times x) ->
  branch_to_count (alter f i instrs) slot target = branch_to_count instrs slot target.
Proof.
  intros Hf. apply branch_to_count_field, lookup_alter_field, Hf.
Qed.

Lemma branch_from_count_frame f (i : nat) instrs slot source :
  (forall x, branch_from_times (f x) = branch_from_times x) ->
  branch_from_count (alter f i instrs) slot source
    = branch_from_count instrs slot source.
Proof.
  intros Hf. apply branch_from_count_field, lookup_alter_field, Hf.
Qed.

Lemma branch_to_count_add pc (s : nat) instrs slot target :
  (s < length instrs)%nat ->
  branch_to_count (alter (add_branch_to pc) s instrs) slot target =
    if decide (slot = s /\ target = pc)
    then size_t_incr (branch_to_count instrs slot target)
    else branch_to_count instrs slot target.
Proof.
  intros Hs. unfold branch_to_count. rewrite list_lookup_alter.
  destruct (decide (s = slot)) as [<- | Hslot].
  - destruct (lookup_lt_is_Some_2 instrs s Hs) as [x ->]. cbn.
    destruct (decide (target = pc)) as [-> | Htarget].
    + rewrite map_incr_same. rewrite decide_True by auto. reflexivity.
    + rewrite map_incr_other by auto. rewrite decide_False by tauto. reflexivity.
  - rewrite decide_False by (intros [? _]; auto). reflexivity.
Qed.

Lemma branch_from_count_add last_pc (s : nat) instrs slot source :
  (s < length instrs)%nat ->
  branch_from_count (alter (add_branch_from last_pc) s instrs) slot source =
    if decide (slot = s /\ source = last_pc)
    then size_t_incr (branch_from_count instrs slot source)
    else branch_from_count instrs slot source.
Proof.
  intros Hs. unfold branch_from_count. rewrite list_lookup_alter.
  destruct (decide (s = slot)) as [<- | Hslot].
  - destruct (lookup_lt_is_Some_2 instrs s Hs) as [x ->]. cbn.
    destruct (decide (source = last_pc)) as [-> | Hsource].
    + rewrite map_incr_same. rewrite decide_True by auto. reflexivity.
    + rewrite map_incr_other by auto. rewrite decide_False by tauto. reflexivity.
  - rewrite decide_False by (intros [? _]; auto). reflexivity.
Qed.

(** Without a branch the update leaves both maps of every slot alone. *)
Lemma flow_update_sequential prev pc instrs slot :
  prev = None \/ (exists snap, prev = Some snap /\ pc_of snap + INSN_PAIR_SIZE = pc) ->
  branch_to_times <$> flow_update prev pc instrs !! slot
    = branch_to_times <$> instrs !! slot
  /\ branch_from_times <$> flow_update prev pc instrs !! slot
    = branch_from_times <$> instrs !! slot.
Proof.
  intros Hprev. unfold flow_update.
  assert (match prev with
          | Some prev =>
            if decide (pc_of prev + INSN_PAIR_SIZE = pc)
            then alter mark_executed (Z.to_nat (pc / INSN_PAIR_SIZE)) instrs
            else alter (add_branch_from (pc_of prev)) (Z.to_nat (pc / INSN_PAIR_SIZE))
                   (alter (add_branch_to pc) (Z.to_nat (pc_of prev / INSN_PAIR_SIZE))
                      (alter mark_executed (Z.to_nat (pc / INSN_PAIR_SIZE)) instrs))
          | None => alter mark_executed (Z.to_nat (pc / INSN_PAIR_SIZE)) instrs
          end = alter mark_executed (Z.to_nat (pc / INSN_PAIR_SIZE)) instrs) as ->.
  { destruct Hprev as [-> | (snap & -> & Hseq)]; [reflexivity |].
    rewrite decide_True by exact Hseq. reflexivity. }
  split; rewrite !lookup_alter_field by reflexivity; reflexivity.
Qed.

(** With a branch from [last_pc] the update touches one key of one map on
    each side. *)
Lemma flow_update_branch snap pc instrs :
  let last_pc := pc_of snap in
  let from_slot := Z.to_nat (last_pc / INSN_PAIR_SIZE) in
  let to_slot := Z.to_nat (pc / INSN_PAIR_SIZE) in
  let instrs' := flow_update (Some snap) pc instrs in
  last_pc + INSN_PAIR_SIZE <> pc ->
  (from_slot < length instrs)%nat -> (to_slot < length instrs)%nat ->
  (forall slot target,
     branch_to_count instrs' slot target =
       if decide (slot = from_slot /\ target = pc)
       then size_t_incr (branch_to_count instrs slot target)
       else branch_to_count instrs slot target)
  /\ (forall slot source,
     branch_from_count instrs' slot source =
       if decide (slot = to_slot /\ source = last_pc)
       then size_t_incr (branch_from_count instrs slot source)
       else branch_from_count instrs slot source)
  /\ (forall slot, slot <> from_slot ->
     branch_to_times <$> instrs' !! slot = branch_to_times <$> instrs !! slot)
  /\ (forall slot, slot <> to_slot ->
     branch_from_times <$> instrs' !! slot = branch_from_times <$> instrs !! slot).
Proof.
  intros last_pc from_slot to_slot instrs' Hbranch Hfrom Hto.
  subst instrs'. unfold flow_update. fold last_pc from_slot to_slot.
  rewrite decide_False by exact Hbranch.
  split; [| split; [| split]].
  - intros slot target.
    rewrite (branch_to_count_frame count_execution) by reflexivity.
    rewrite (branch_to_count_frame (add_branch_from last_pc)) by reflexivity.
    rewrite branch_to_count_add by (rewrite length_alter; exact Hfrom).
    rewrite (branch_to_count_frame mark_executed) by reflexivity.
    reflexivity.
  - intros slot source.
    rewrite (branch_from_count_frame count_execution) by reflexivity.
    rewrite branch_from_count_add by (rewrite !length_alter; exact Hto).
    rewrite (branch_from_count_frame (add_branch_to pc)) by reflexivity.
    rewrite (branch_from_count_frame mark_executed) by reflexivity.
    reflexivity.
  - intros slot Hslot.
    rewrite !lookup_alter_field by reflexivity.
    rewrite lookup_alter_other by exact Hslot.
    rewrite lookup_alter_field by reflexivity. reflexivity.
  - intros slot Hslot.
    rewrite lookup_alter_field by reflexivity.
    rewrite lookup_alter_other by exact Hslot.
    rewrite !lookup_alter_field by reflexivity. reflexivity.
Qed.

Lemma table_covers app pc :
  defs_ok -> ingesting app -> 0 <= pc < VU1_PROGSIZE ->
  (Z.to_nat (pc / INSN_PAIR_SIZE) < length (instructions app))%nat.
Proof.
  intros Hdefs [Htable _] Hpc.
  pose proof (slot_in_table pc Hdefs Hpc). unfold size in Htable. lia.
Qed.

(** C7: the push of a snapshot whose program counter [pc] is not that of
    the preceding snapshot plus the pair size adds one to
    [branch_to[pc]] of the preceding snapshot's slot and one to
    [branch_from[last_pc]] of the new snapshot's slot, and changes no
    other counter and no map of any other slot; the push of the first
    snapshot, or of one that follows its predecessor sequentially,
    changes no [branch_to] and no [branch_from] map at all.  The
    preceding snapshot is the last one of the store, the new one is the
    current state; adding one is [++] on a [std::size_t], that is, modulo
    [2 ^ 64]. *)
Theorem push_snapshot_branch_bookkeeping app current :
  let pc := pc_of current in
  defs_ok -> ingesting app ->
  pc < VU1_PROGSIZE -> pc mod INSN_PAIR_SIZE = 0 ->
  exists app',
    push_snapshot app current = Done (app', clear_access current)
    /\ snapshots app' = snapshots app ++ [current]
    /\ (forall prev, last (snapshots app) = Some prev ->
        let last_pc := pc_of prev in
        let from_slot := Z.to_nat (last_pc / INSN_PAIR_SIZE) in
        let to_slot := Z.to_nat (pc / INSN_PAIR_SIZE) in
        last_pc + INSN_PAIR_SIZE <> pc ->
        branch_to_count (instructions app') from_slot pc
          = (branch_to_count (instructions app) from_slot pc + 1) mod 2 ^ 64
        /\ branch_from_count (instructions app') to_slot last_pc
          = (branch_from_count (instructions app) to_slot last_pc + 1) mod 2 ^ 64
        /\ (forall slot target, slot <> from_slot \/ target <> pc ->
             branch_to_count (instructions app') slot target
               = branch_to_count (instructions app) slot target)
        /\ (forall slot source, slot <> to_slot \/ source <> last_pc ->
             branch_from_count (instructions app') slot source
               = branch_from_count (instructions app) slot source)
        /\ (forall slot, slot <> from_slot ->
             branch_to_times <$> instructions app' !! slot
               = branch_to_times <$> instructions app !! slot)
        /\ (forall slot, slot <> to_slot ->
             branch_from_times <$> instructions app' !! slot
               = branch_from_times <$> instructions app !! slot))
    /\ (last (snapshots app) = None
        \/ (exists prev, last (snapshots app) = Some prev
                       /\ pc_of prev + INSN_PAIR_SIZE = pc) ->
        forall slot,
          branch_to_times <$> instructions app' !! slot
            = branch_to_times <$> instructions app !! slot
          /\ branch_from_times <$> instructions app' !! slot
            = branch_from_times <$> instructions app !! slot).
Proof.
  intros pc Hdefs Hinv Hpc Hmod.
  eexists. split; [apply push_snapshot_flow; assumption |].
  cbn [snapshots instructions]. split; [reflexivity |]. split.
  - intros prev Hlast Hbranch. rewrite Hlast.
    pose proof (pc_of_bounds prev) as Hprev0.
    pose proof (pc_of_bounds current) as Hpc0.
    assert (pc_of prev < VU1_PROGSIZE) as Hprev.
    { destruct Hinv as [_ Hstored]. rewrite Forall_forall in Hstored.
      apply Hstored, last_Some_elem_of, Hlast. }
    destruct (flow_update_branch prev pc (instructions app) Hbranch)
      as (Hto & Hfrom & Hto_maps & Hfrom_maps).
    { apply table_covers; try assumption. lia. }
    { apply table_covers; try assumption. fold pc. lia. }
    split; [rewrite Hto, decide_True by auto; reflexivity |].
    split; [rewrite Hfrom, decide_True by auto; reflexivity |].
    split; [intros slot target Hother; rewrite Hto, decide_False by tauto;
            reflexivity |].
    split; [intros slot source Hother; rewrite Hfrom, decide_False by tauto;
            reflexivity |].
    split; assumption.
  - intros Hseq slot. apply flow_update_sequential. exact Hseq.
Qed.

(** C9: a push first tests the program counter of the current state.
    When it is at or past [VU1_PROGSIZE], or not a multiple of the pair
    size, the push fails with the bad-program-counter error, and so does
    the loader on a file that continues with a push packet: no state with
    one more snapshot results.  Otherwise the store grows by the current
    state as it is, and the new current state has all four access fields
    at zero and its registers and both memory images as before. *)
Theorem push_snapshot_validates app current :
  let pc := pc_of current in
  (pc >= VU1_PROGSIZE \/ pc mod INSN_PAIR_SIZE <> 0 ->
     push_snapshot app current = Fail BadProgramCounter
     /\ forall fuel version trace,
         parse_packets (S fuel) version ("P"%byte :: trace) app current
           = Fail BadProgramCounter)
  /\ (defs_ok -> ingesting app ->
      pc < VU1_PROGSIZE /\ pc mod INSN_PAIR_SIZE = 0 ->
      exists app' current',
        push_snapshot app current = Done (app', current')
        /\ snapshots app' = snapshots app ++ [current]
        /\ read_addr current' = 0 /\ read_size current' = 0
        /\ write_addr current' = 0 /\ write_size current' = 0
        /\ registers current' = registers current
        /\ memory current' = memory current
        /\ program current' = program current).
Proof.
  intros pc. split.
  - intros Hbad.
    assert (push_snapshot app current = Fail BadProgramCounter) as Hpush.
    { unfold push_snapshot. fold pc.
      destruct (Z.geb_spec pc VU1_PROGSIZE); [reflexivity |].
      destruct (Z.eqb_spec (pc mod INSN_PAIR_SIZE) 0); [lia | reflexivity]. }
    split; [exact Hpush |].
    intros fuel version trace. cbn [parse_packets packet_step].
    rewrite Hpush. reflexivity.
  - intros Hdefs Hinv [Hpc Hmod]. eexists _, _.
    split; [apply push_snapshot_flow; assumption |].
    cbn. repeat split; reflexivity.
Qed.

(** *** Packets *)

Lemma push_snapshot_Done app current app' current' :
  push_snapshot app current = Done (app', current') ->
  snapshots app' = snapshots app ++ [current]
  /\ current' = clear_access current
  /\ pc_of current < VU1_PROGSIZE /\ pc_of current mod INSN_PAIR_SIZE = 0
  /\ length (instructions app') = length (instructions app).
Proof.
  unfold push_snapshot.
  destruct (Z.geb_spec (pc_of current) VU1_PROGSIZE); [discriminate |].
  destruct (Z.eqb_spec (pc_of current mod INSN_PAIR_SIZE) 0); [| discriminate].
  cbn [orb negb]. intros Hpush.
  bind_inv Hpush. bind_inv Hpush. bind_inv Hpush. injection Hpush as <- <-.
  cbn [snapshots instructions].
  assert (forall {A} (v v' : list A) i g, update_at v i g = Done v' ->
            length v' = length v) as Hlen.
  { intros A v v' i g Hu. unfold update_at in Hu. bind_inv Hu.
    injection Hu as <-. apply length_insert. }
  assert (length a0 = length a) as Hbranch.
  { unfold record_branch in E0.
    destruct (size (snapshots app ++ [current]) >=? 2); [| congruence].
    bind_inv E0.
    destruct (negb _); [| congruence].
    bind_inv E0. apply Hlen in E0, E3. congruence. }
  apply Hlen in E, E1. repeat split; auto; congruence.
Qed.

Lemma read_registers_Done version trace regs rest :
  read_registers version trace = Done (regs, rest) ->
  exists payload, trace = payload ++ rest /\
    payload_size version "R" = Some (length payload).
Proof.
  unfold read_registers, payload_size.
  destruct (version =? 1); [| destruct (version =? 2)]; intros H.
  - bind_inv H. destruct a as [buf rest']. injection H as _ <-.
    apply fread_Done in E as (-> & <- & _). eauto.
  - bind_inv H. destruct a as [buf rest']. injection H as _ <-.
    apply fread_Done in E as (-> & <- & _). eauto.
  - bind_inv H. destruct a as [vf t1]. bind_inv H. destruct a as [vi t2].
    bind_inv H. destruct a as [acc t3]. bind_inv H. destruct a as [rq t4].
    bind_inv H. destruct a as [rp t5]. injection H as _ <-.
    apply fread_Done in E as (-> & Hvf & _), E0 as (-> & Hvi & _),
      E1 as (-> & Hacc & _), E2 as (-> & Hq & _), E3 as (-> & Hp & _).
    exists (vf ++ vi ++ acc ++ rq ++ rp). rewrite <- !app_assoc.
    split; [reflexivity |]. rewrite !length_app. f_equal. lia.
Qed.

Lemma packet_step_types version ty trace app current r :
  packet_step version ty trace app current = Done r ->
  ty = "P"%byte \/ ty = "R"%byte \/ ty = "M"%byte \/ ty = "I"%byte
  \/ ty = "L"%byte \/ ty = "S"%byte \/ ty = "r"%byte \/ ty = "m"%byte.
Proof.
  unfold packet_step. intros H. destruct ty; try discriminate H; tauto.
Qed.

(** One turn of the loop consumes the payload the packet table gives for
    the type; a push appends the current state to the store, and no
    other packet touches the session. *)
Lemma packet_step_frame version ty trace app current app' current' rest :
  packet_step version ty trace app current = Done (app', current', rest) ->
  (exists payload, trace = payload ++ rest /\
     payload_size version ty = Some (length payload))
  /\ snapshots app' =
       (if decide (ty = "P"%byte) then snapshots app ++ [current] else snapshots app)
  /\ (ty <> "P"%byte -> app' = app).
Proof.
  intros H.
  destruct (packet_step_types _ _ _ _ _ _ H)
    as [-> | [-> | [-> | [-> | [-> | [-> | [-> | ->]]]]]]]; cbn [packet_step] in H.
  - bind_inv H. destruct a as [app1 current1]. injection H as <- <- <-.
    apply push_snapshot_Done in E as (Hsnaps & _).
    split; [exists []; auto |]. split; [exact Hsnaps | congruence].
  - bind_inv H. destruct a as [regs rest']. injection H as <- <- <-.
    apply read_registers_Done in E. auto.
  - bind_inv H. destruct a as [buf rest']. injection H as <- <- <-.
    apply fread_Done in E as (-> & Hlen & _).
    split; [exists buf; cbn [payload_size]; rewrite Hlen; auto | auto].
  - bind_inv H. destruct a as [buf rest']. injection H as <- <- <-.
    apply fread_Done in E as (-> & Hlen & _).
    split; [exists buf; cbn [payload_size]; rewrite Hlen; auto | auto].
  - bind_inv H. destruct a as [addr t1]. bind_inv H. destruct a as [sz t2].
    injection H as <- <- <-.
    apply fread_Done in E as (-> & Ha & _), E0 as (-> & Hs & _).
    split; [| auto].
    exists (addr ++ sz). rewrite <- app_assoc, length_app, Ha, Hs. auto.
  - bind_inv H. destruct a as [addr t1]. bind_inv H. destruct a as [sz t2].
    injection H as <- <- <-.
    apply fread_Done in E as (-> & Ha & _), E0 as (-> & Hs & _).
    split; [| auto].
    exists (addr ++ sz). rewrite <- app_assoc, length_app, Ha, Hs. auto.
  - bind_inv H. destruct a as [index t1]. bind_inv H. destruct a as [data t2].
    bind_inv H. injection H as <- <- <-.
    apply fread_Done in E as (-> & Hi & _), E0 as (-> & Hd & _).
    split; [| auto].
    exists (index ++ data). rewrite <- app_assoc, length_app, Hi, Hd. auto.
  - bind_inv H. destruct a as [address t1]. bind_inv H. destruct a as [data t2].
    destruct (le_value address <? VU1_MEMSIZE - 4); [| discriminate H].
    injection H as <- <- <-.
    apply fread_Done in E as (-> & Ha & _), E0 as (-> & Hd & _).
    split; [| auto].
    exists (address ++ data). rewrite <- app_assoc, length_app, Ha, Hd. auto.
Qed.

Lemma count_push_cons ty payload pkts :
  count_push ((ty, payload) :: pkts) =
    ((if decide (ty = "P"%byte) then 1 else 0) + count_push pkts)%nat.
Proof.
  unfold count_push. rewrite filter_cons. cbn [fst].
  destruct (decide (ty = "P"%byte)); reflexivity.
Qed.

(** A run of the loop that returns has read a sequence of packets of the
    table, and has appended one snapshot per push packet. *)
Lemma parse_packets_framing fuel version trace app current app' current' :
  parse_packets fuel version trace app current = Done (app', current') ->
  exists pkts, framing version pkts trace /\
    length (snapshots app') = (length (snapshots app) + count_push pkts)%nat.
Proof.
  revert trace app current.
  induction fuel as [| fuel IH]; intros trace app current H; [discriminate H |].
  cbn [parse_packets] in H. destruct trace as [| ty trace].
  - injection H as <- <-. exists []. split; [split; [reflexivity | constructor] |].
    unfold count_push. cbn. lia.
  - bind_inv H. destruct a as [[app1 current1] rest].
    apply packet_step_frame in E as ((payload & -> & Hsize) & Hsnaps & _).
    apply IH in H as (pkts & [Hbody Hsizes] & Hcount).
    exists ((ty, payload) :: pkts). split.
    + split; [cbn; rewrite Hbody; reflexivity |].
      constructor; [exact Hsize | exact Hsizes].
    + rewrite Hcount, Hsnaps, count_push_cons.
      destruct (decide (ty = "P"%byte)); [rewrite length_app; cbn |]; lia.
Qed.

(** A byte sequence has at most one framing: the type byte fixes the
    length of the payload. *)
Lemma framing_unique version pkts1 pkts2 body :
  framing version pkts1 body -> framing version pkts2 body -> pkts1 = pkts2.
Proof.
  revert pkts2 body.
  induction pkts1 as [| [ty1 payload1] pkts1 IH]; intros pkts2 body [-> H1] [H2 Hs2].
  - destruct pkts2 as [| [ty2 payload2] pkts2]; [reflexivity | discriminate H2].
  - destruct pkts2 as [| [ty2 payload2] pkts2]; [discriminate H2 |].
    cbn in H2. injection H2 as -> H2.
    apply Forall_cons in H1 as [Hp1 H1], Hs2 as [Hp2 Hs2]. cbn [fst snd] in Hp1, Hp2.
    assert (length payload1 = length payload2) as Hlen by congruence.
    apply app_inj_1 in H2 as [-> H2]; [| exact Hlen].
    f_equal. apply (IH pkts2 (concat (map encode_packet pkts1)));
      split; auto.
Qed.

(** The budget [parse_trace] hands the loop is never used up. *)
Lemma parse_packets_fuel fuel version trace app current :
  (length trace < fuel)%nat ->
  parse_packets fuel version trace app current <> Fail OutOfFuel.
Proof.
  revert trace app current.
  induction fuel as [| fuel IH]; intros trace app current Hfuel; [lia |].
  cbn [parse_packets]. destruct trace as [| ty trace]; [discriminate |].
  destruct (packet_step version ty trace app current) as [[[app1 current1] rest] | f]
    eqn:E; cbn [mbind outcome_bind bind].
  - apply IH. apply packet_step_frame in E as ((payload & -> & _) & _).
    cbn [length] in Hfuel. rewrite length_app in Hfuel. lia.
  - intros [= ->]. revert E. unfold packet_step, push_snapshot, read_registers,
      record_branch, update_at, at_index, patch_register, fread.
    destruct ty; try discriminate;
      repeat (match goal with
              | |- context [if ?b then _ else _] => destruct b
              | |- context [match ?o with Some _ => _ | None => _ end] => destruct o
              end; cbn [mbind outcome_bind bind]); discriminate.
Qed.

(** What the loader does with a memory patch: it applies the four bytes
    when the address is below [VU1_MEMSIZE - 4], and rejects the packet
    otherwise. *)
Lemma patch_memory_step version address data rest app current :
  length address = 2%nat -> length data = 4%nat ->
  packet_step version "m" (address ++ data ++ rest) app current =
    if le_value address <? VU1_MEMSIZE - 4
    then Done (app,
               set_memory current
                 (list_inserts (Z.to_nat (le_value address)) data (memory current)),
               rest)
    else Fail AddressTooBig.
Proof.
  intros Haddress Hdata. cbn [packet_step].
  rewrite (fread_app 2 address) by lia. cbn [mbind outcome_bind bind].
  rewrite (fread_app 4 data) by lia. reflexivity.
Qed.

(** *** The state of the loader *)

Lemma reset_app_ingesting app : defs_ok -> ingesting (reset_app app).
Proof.
  intros [Hnonneg _ _]. split; cbn [reset_app instructions snapshots].
  - unfold size. rewrite length_resize.
    assert (0 <= VU1_PROGSIZE / INSN_PAIR_SIZE)
      by (apply Z.div_pos; unfold INSN_PAIR_SIZE; lia).
    lia.
  - constructor.
Qed.

Lemma packet_step_ingesting version ty trace app current app' current' rest :
  ingesting app ->
  packet_step version ty trace app current = Done (app', current', rest) ->
  ingesting app'.
Proof.
  intros [Htable Hstored] H.
  destruct (decide (ty = "P"%byte)) as [-> | Hne].
  - cbn [packet_step] in H. bind_inv H. destruct a as [app1 current1].
    injection H as <- <- <-.
    apply push_snapshot_Done in E as (Hsnaps & _ & Hpc & _ & Hlen).
    split.
    + unfold size in *. rewrite Hlen. exact Htable.
    + rewrite Hsnaps. apply Forall_app. split; [exact Hstored |].
      constructor; [exact Hpc | constructor].
  - apply packet_step_frame in H as (_ & _ & Happ).
    rewrite (Happ Hne). split; assumption.
Qed.

Lemma parse_packets_ingesting fuel version trace app current app' current' :
  ingesting app ->
  parse_packets fuel version trace app current = Done (app', current') ->
  ingesting app'.
Proof.
  revert trace app current.
  induction fuel as [| fuel IH]; intros trace app current Hinv H; [discriminate H |].
  cbn [parse_packets] in H. destruct trace as [| ty trace].
  - injection H as <- <-. exact Hinv.
  - bind_inv H. destruct a as [[app1 current1] rest].
    eapply IH; [| exact H]. eapply packet_step_ingesting; eassumption.
Qed.

(** *** The header *)

Lemma parse_trace_Done app trace memory0 program0 app' :
  parse_trace app trace memory0 program0 = Done app' ->
  exists version header body,
    trace = header ++ body
    /\ (header = [] /\ version = 1
        \/ exists version_bytes,
             header = magic_tag ++ version_bytes /\ length version_bytes = 4%nat
             /\ version = le_value version_bytes)
    /\ read_packets version body (reset_app app) memory0 program0 = Done app'.
Proof.
  unfold parse_trace. intros H.
  bind_inv H. destruct a as [magic rest].
  apply fread_Done in E as (Htrace & Hmagic & _).
  bind_inv H. destruct a as [version body].
  destruct (version >? 3); [discriminate H |].
  exists version. destruct (bool_decide (magic = magic_tag)) eqn:Htag.
  - apply bool_decide_eq_true in Htag as ->.
    bind_inv E. destruct a as [version_bytes rest'].
    injection E as <- <-.
    apply fread_Done in E0 as (-> & Hlen & _).
    exists (magic_tag ++ version_bytes), rest'.
    split; [rewrite Htrace, app_assoc; reflexivity |].
    split; [right; eauto | exact H].
  - injection E as <- <-. exists [], trace.
    split; [reflexivity |]. split; [left; auto | exact H].
Qed.

(** C6: a turn of the loop on a push packet appends the current state to
    the store, a turn on any other packet leaves the store as it is; and
    when [parse_trace] returns, the file is a header followed by a
    sequence of packets of the table, and the store holds as many
    snapshots as there are push packets in that sequence. *)
Theorem snapshots_count_pushes :
  (forall version ty trace app current app' current' rest,
     packet_step version ty trace app current = Done (app', current', rest) ->
     snapshots app' =
       if decide (ty = "P"%byte) then snapshots app ++ [current] else snapshots app)
  /\ (forall app trace memory0 program0 app',
       parse_trace app trace memory0 program0 = Done app' ->
       exists version header body pkts,
         trace = header ++ body
         /\ (header = [] /\ version = 1
             \/ exists version_bytes,
                  header = magic_tag ++ version_bytes
                  /\ length version_bytes = 4%nat
                  /\ version = le_value version_bytes)
         /\ framing version pkts body
         /\ length (snapshots app') = count_push pkts).
Proof.
  split.
  - intros version ty trace app current app' current' rest H.
    apply packet_step_frame in H as (_ & Hsnaps & _). exact Hsnaps.
  - intros app trace memory0 program0 app' H.
    apply parse_trace_Done in H as (version & header & body & Htrace & Hheader & H).
    unfold read_packets in H. bind_inv H. destruct a as [app1 current1].
    injection H as <-.
    apply parse_packets_framing in E as (pkts & Hframing & Hcount).
    exists version, header, body, pkts. cbn in Hcount. auto.
Qed.

(** C5, as amended: a file of fewer than four bytes is rejected as
    truncated before any packet is read; a file of four bytes or more
    that does not begin with the magic tag is read at version 1 from its
    first byte on, the bytes in the place of the tag included. *)
Theorem parse_trace_headerless app trace memory0 program0 :
  ((length trace < 4)%nat ->
     parse_trace app trace memory0 program0 = Fail UnexpectedEof)
  /\ ((4 <= length trace)%nat -> take 4 trace <> magic_tag ->
      parse_trace app trace memory0 program0
        = read_packets 1 trace (reset_app app) memory0 program0).
Proof.
  unfold parse_trace. split.
  - intros Hshort. rewrite fread_short by exact Hshort. reflexivity.
  - intros Hlong Htag.
    rewrite <- (take_drop 4 trace) at 1.
    rewrite fread_app by (rewrite ?length_take; lia).
    cbn [mbind outcome_bind bind].
    rewrite bool_decide_eq_false_2 by exact Htag.
    cbn [mbind outcome_bind bind]. reflexivity.
Qed.

End Ingestion.

(** From the first snapshot of the loop, the search forward lands on the
    third one, and from the third one the search backward lands on the
    first. *)
Lemma walk_until_pc_equal_nearest_witness :
  (exists app',
     walk_until_pc_equal 4 (demo_loop 0) 0 1 = Done (true, app')
     /\ current_snapshot app' = 2 /\ snapshots_scroll_to app' = true
     /\ snapshots app' = snapshots (demo_loop 0))
  /\ (exists app',
        walk_until_pc_equal 4 (demo_loop 2) 0 (-1) = Done (true, app')
        /\ current_snapshot app' = 0 /\ snapshots_scroll_to app' = true
        /\ snapshots app' = snapshots (demo_loop 2)).
Proof.
  split.
  - destruct (walk_until_pc_equal_nearest (demo_loop 0) 0 4) as [Hfwd _];
      [by_evaluation | by_evaluation | by_evaluation |].
    destruct Hfwd
      as [(j & app' & Hj & Hpc & _ & Hwalk & Hcursor & Hflag & _ & Hstore & _)
         | (Hnone & _)].
    + unfold size in Hj; cbn in Hj.
      assert (j = 1 \/ j = 2) as [-> | ->] by lia; [discriminate Hpc |].
      exists app'. auto.
    + exfalso. apply (Hnone 2); [by_evaluation | reflexivity].
  - destruct (walk_until_pc_equal_nearest (demo_loop 2) 0 4) as [_ Hbwd];
      [by_evaluation | by_evaluation | by_evaluation |].
    destruct Hbwd
      as [(j & app' & Hj & Hpc & _ & Hwalk & Hcursor & Hflag & _ & Hstore & _)
         | (Hnone & _)].
    + unfold size in Hj; cbn in Hj.
      assert (j = 0 \/ j = 1) as [-> | ->] by lia; [| discriminate Hpc].
      exists app'. auto.
    + exfalso. apply (Hnone 0); [by_evaluation | reflexivity].
Defined.

(** With the cursor on the first of three snapshots and a read recorded
    by the third, the cursor lands on the second, just before the access. *)
Lemma walk_until_mem_access_first_witness :
  exists app',
    (walk_until_mem_access 3 (demo_read_late 0) 0x24).2 = Done app'
    /\ current_snapshot app' = 1
    /\ snapshots_scroll_to app' = true /\ disassembly_scroll_to app' = true
    /\ snapshots app' = snapshots (demo_read_late 0).
Proof.
  destruct (walk_until_mem_access_first (demo_read_late 0) 0x24 3) as [Hmove _];
    [by_evaluation | by_evaluation | by_evaluation | by_evaluation |].
  destruct (Hmove 2) as (app' & Hwalk & Hcursor & Hlist & Hcode & Hstore & _);
    [by_evaluation | lia |].
  exists app'. auto.
Defined.

(** C1, as stated, fails when the first access in cyclic order is at
    index 0: from cursor 1 over [demo_read], the claim puts the cursor at
    [max (0 - 1) 0 = 0], and the routine leaves it at 1. *)
Lemma walk_until_mem_access_match_at_zero :
  first_access (demo_read 1) 0x20 = Some 0
  /\ (walk_until_mem_access 2 (demo_read 1) 0x20).2 = Done (demo_read 1)
  /\ current_snapshot (demo_read 1) <> Z.max (0 - 1) 0.
Proof. by_evaluation. Qed.

(** An empty session faults, and the two-snapshot session is searched in
    two turns. *)
Lemma walk_until_mem_access_safe_witness :
  walk_until_mem_access 1 (demo_app 0 []) 0x20 = ([], Fail DivisionByZero)
  /\ exists visited app',
       walk_until_mem_access 2 (demo_read 1) 0x30 = (visited, Done app')
       /\ Forall (fun i => 0 <= i < 2) visited
       /\ (length visited <= 2)%nat
       /\ 0 <= current_snapshot app' < 2.
Proof.
  split.
  - apply (walk_until_mem_access_safe (demo_app 0 []) 0x20). reflexivity.
  - apply (walk_until_mem_access_safe (demo_read 1) 0x30); try by_evaluation.
Defined.

(** The packet loop at version 1 reads the empty file into an empty store
    and the file of one push packet into a store of one snapshot.
    C5, as stated, counts both among the files [parse_trace] loads; it
    rejects both as truncated. *)
Lemma parse_trace_rejects_short_headerless :
  (exists app', read_packets 1 [] (reset_app new_app)
                  (zeros VU1_MEMSIZE) (zeros VU1_PROGSIZE) = Done app'
                /\ snapshots app' = [])
  /\ parse_trace new_app [] (zeros VU1_MEMSIZE) (zeros VU1_PROGSIZE)
     = Fail UnexpectedEof
  /\ (exists app', read_packets 1 ["P"%byte] (reset_app new_app)
                     (zeros VU1_MEMSIZE) (zeros VU1_PROGSIZE) = Done app'
                   /\ length (snapshots app') = 1%nat)
  /\ parse_trace new_app ["P"%byte] (zeros VU1_MEMSIZE) (zeros VU1_PROGSIZE)
     = Fail UnexpectedEof.
Proof.
  split; [eexists; split; [vm_compute; reflexivity | reflexivity] |].
  split; [reflexivity |].
  split; [eexists; split; [vm_compute; reflexivity | reflexivity] |].
  reflexivity.
Qed.

(** Four push packets without a header load as a version-1 trace. *)
Lemma parse_trace_headerless_witness :
  parse_trace new_app ["P"; "P"; "P"; "P"]%byte (zeros VU1_MEMSIZE) (zeros VU1_PROGSIZE)
  = read_packets 1 ["P"; "P"; "P"; "P"]%byte (reset_app new_app)
      (zeros VU1_MEMSIZE) (zeros VU1_PROGSIZE).
Proof.
  apply (parse_trace_headerless new_app ["P"; "P"; "P"; "P"]%byte);
    [simpl; lia | discriminate].
Defined.

(** ** The loader on the PCSX2 constants *)

Lemma pcsx2_ok : defs_ok.
Proof. split; by_evaluation. Qed.

Lemma demo_app_ingesting cursor snaps :
  Forall (fun snap => pc_of snap < VU1_PROGSIZE) snaps ->
  ingesting (demo_app cursor snaps).
Proof. intros Hpcs. split; [reflexivity | exact Hpcs]. Qed.

Lemma demo_loop_ingesting cursor : ingesting (demo_loop cursor).
Proof. apply demo_app_ingesting. repeat constructor. Qed.

(** C2, at the boundary: the word at address [VU1_MEMSIZE - 4 = 0x3ffc]
    is the last one of the memory image, a patch of it ends with the
    image, and the loader rejects the packet as one whose address is too
    big; the patch of the four bytes that end one byte earlier is
    applied. *)
Theorem patch_memory_last_word_rejected :
  le_value (le_bytes 2 0x3ffc) = VU1_MEMSIZE - 4
  /\ parse_trace new_app (header_v3 ++ patch_memory_packet 0x3ffc)
       (zeros VU1_MEMSIZE) (zeros VU1_PROGSIZE) = Fail AddressTooBig
  /\ exists app',
       parse_trace new_app (header_v3 ++ patch_memory_packet 0x3ffb)
         (zeros VU1_MEMSIZE) (zeros VU1_PROGSIZE) = Done app'.
Proof.
  split; [reflexivity |]. split; [vm_compute; reflexivity |].
  eexists. vm_compute. reflexivity.
Qed.

(** A patch of integer register 1 (index 33) in front of a push. *)
Lemma patch_register_narrow_witness :
  exists current',
    packet_step 3 "r" (x21 :: replicate 16 xff ++ ["P"%byte])
      (demo_loop 0) (demo_snapshot 8 0 0)
    = Done (demo_loop 0, current', ["P"%byte])
    /\ VI (registers current') !! 1%nat = Some (replicate 16 xff)
    /\ VI (registers current') !! TPC = VI (registers (demo_snapshot 8 0 0)) !! TPC
    /\ memory current' = memory (demo_snapshot 8 0 0).
Proof.
  destruct (patch_register_narrow 3 x21 (replicate 16 xff) ["P"%byte]
              (demo_loop 0) (demo_snapshot 8 0 0))
    as (current' & Hstep & Hmem & _ & _ & _ & _ & _ & _ & _ & Hvi & _);
    [reflexivity | left; by_evaluation |].
  destruct Hvi as (Hvi & Hothers & _); [by_evaluation |].
  exists current'. split; [exact Hstep |].
  split; [rewrite Hvi; reflexivity |].
  split; [apply Hothers; discriminate | exact Hmem].
Defined.

(** The demonstration trace loads into two snapshots and is made of
    packets of which two are pushes. *)
Lemma snapshots_count_pushes_witness :
  exists app' pkts,
    parse_trace new_app demo_trace (zeros VU1_MEMSIZE) (zeros VU1_PROGSIZE) = Done app'
    /\ framing 3 pkts (drop 8 demo_trace)
    /\ length (snapshots app') = count_push pkts.
Proof.
  destruct (parse_trace new_app demo_trace (zeros VU1_MEMSIZE) (zeros VU1_PROGSIZE))
    as [app' | f] eqn:Hload; [| vm_compute in Hload; discriminate Hload].
  destruct (proj2 snapshots_count_pushes _ _ _ _ _ Hload)
    as (version & header & body & pkts & Htrace & Hheader & Hframing & Hcount).
  exists app', pkts. split; [reflexivity |].
  destruct Hheader as [[-> ->] | (version_bytes & -> & Hlen & ->)].
  - exfalso. destruct Hframing as [Hbody Hsizes]. cbn [app] in Htrace.
    rewrite Hbody in Htrace. destruct pkts as [| [ty payload] pkts'];
      [discriminate Htrace |].
    injection Htrace as <- _. apply Forall_inv in Hsizes. discriminate Hsizes.
  - destruct version_bytes as [| b0 [| b1 [| b2 [| b3 [| ? ?]]]]];
      try discriminate Hlen.
    injection Htrace as <- <- <- <- <-. auto.
Defined.

(** After the loop 0, 8, 0 a push at program counter 16 is a branch from
    0 to 16: one count on each side. *)
Lemma push_snapshot_branch_bookkeeping_witness :
  exists app',
    push_snapshot (demo_loop 0) (demo_snapshot 16 0 0)
      = Done (app', clear_access (demo_snapshot 16 0 0))
    /\ branch_to_count (instructions app') 0 16 = 1
    /\ branch_from_count (instructions app') 2 0 = 1.
Proof.
  destruct (push_snapshot_branch_bookkeeping (demo_loop 0) (demo_snapshot 16 0 0))
    as (app' & Hpush & _ & Hbranch & _);
    [exact pcsx2_ok | apply demo_loop_ingesting | by_evaluation | reflexivity |].
  destruct (Hbranch (demo_snapshot 0 0 0)) as (Hto & Hfrom & _);
    [reflexivity | by_evaluation |].
  exists app'. split; [exact Hpush |]. split; [exact Hto | exact Hfrom].
Defined.

(** A program counter of 4 is refused; one of 8 is pushed. *)
Lemma push_snapshot_validates_witness :
  push_snapshot (demo_loop 0) (demo_snapshot 4 0 0) = Fail BadProgramCounter
  /\ exists app' current',
       push_snapshot (demo_loop 0) (demo_snapshot 8 0x20 16) = Done (app', current')
       /\ snapshots app' = snapshots (demo_loop 0) ++ [demo_snapshot 8 0x20 16]
       /\ read_addr current' = 0 /\ read_size current' = 0.
Proof.
  split.
  - apply (push_snapshot_validates (demo_loop 0) (demo_snapshot 4 0 0)).
    right. by_evaluation.
  - destruct (push_snapshot_validates (demo_loop 0) (demo_snapshot 8 0x20 16))
      as [_ Hgood].
    destruct Hgood as (app' & current' & Hpush & Hsnaps & Hra & Hrs & _);
      [exact pcsx2_ok | apply demo_loop_ingesting | by_evaluation |].
    exists app', current'. auto.
Defined.

(** * Further properties *)

(** ** The header and the errors of the loader *)

Section Loader.
Context `{defs : Pcsx2Defs}.

Lemma read_registers_other_version version trace :
  version <> 1 -> version <> 2 ->
  read_registers version trace = read_registers 3 trace.
Proof.
  intros H1 H2. unfold read_registers.
  destruct (Z.eqb_spec version 1); [contradiction |].
  destruct (Z.eqb_spec version 2); [contradiction |]. reflexivity.
Qed.

Lemma packet_step_other_version version ty trace app current :
  version <> 1 -> version <> 2 ->
  packet_step version ty trace app current = packet_step 3 ty trace app current.
Proof.
  intros H1 H2. unfold packet_step.
  rewrite (read_registers_other_version version) by assumption. reflexivity.
Qed.

Lemma parse_packets_other_version fuel version trace app current :
  version <> 1 -> version <> 2 ->
  parse_packets fuel version trace app current
  = parse_packets fuel 3 trace app current.
Proof.
  intros H1 H2. revert trace app current.
  induction fuel as [| fuel IH]; intros trace app current; [reflexivity |].
  cbn [parse_packets]. destruct trace as [| ty trace]; [reflexivity |].
  rewrite packet_step_other_version by assumption.
  destruct (packet_step 3 ty trace app current) as [[[app1 current1] rest] |];
    cbn [mbind outcome_bind bind]; [apply IH | reflexivity].
Qed.

(** X1: A file that begins with the magic tag: without four more bytes for
    the version it is rejected as truncated; with a version above 3 it is
    rejected as too new, whatever follows; otherwise what follows the
    eight header bytes is read as packets at that version.  Version 0
    passes the test and is read exactly like version 3. *)
Theorem parse_trace_tagged app memory0 program0 :
  (forall rest, (length rest < 4)%nat ->
     parse_trace app (magic_tag ++ rest) memory0 program0 = Fail UnexpectedEof)
  /\ (forall version_bytes body, length version_bytes = 4%nat ->
      parse_trace app (magic_tag ++ version_bytes ++ body) memory0 program0
      = if le_value version_bytes >? 3 then Fail FormatTooNew
        else read_packets (le_value version_bytes) body (reset_app app)
               memory0 program0)
  /\ (forall body,
      read_packets 0 body (reset_app app) memory0 program0
      = read_packets 3 body (reset_app app) memory0 program0).
Proof.
  split; [| split].
  - intros rest Hshort. unfold parse_trace.
    rewrite (fread_app 4 magic_tag) by (cbn; lia).
    cbn [mbind outcome_bind bind]. rewrite bool_decide_eq_true_2 by reflexivity.
    rewrite fread_short by exact Hshort. reflexivity.
  - intros version_bytes body Hlen. unfold parse_trace.
    rewrite (fread_app 4 magic_tag) by (cbn; lia).
    cbn [mbind outcome_bind bind]. rewrite bool_decide_eq_true_2 by reflexivity.
    rewrite (fread_app 4 version_bytes) by lia.
    cbn [mbind outcome_bind bind]. reflexivity.
  - intros body. unfold read_packets.
    rewrite parse_packets_other_version by discriminate. reflexivity.
Qed.

Lemma fread_Fail n trace f : fread n trace = Fail f -> f = UnexpectedEof.
Proof.
  unfold fread. destruct ((0 <? n)%nat && (n <=? length trace)%nat); congruence.
Qed.

Lemma fread_enough n trace :
  (0 < n <= length trace)%nat ->
  fread n trace = Done (take n trace, drop n trace).
Proof.
  intros Hn. unfold fread.
  destruct (Nat.ltb_spec 0 n); [| lia].
  destruct (Nat.leb_spec n (length trace)); [reflexivity | lia].
Qed.

(** Reads a truncated payload until one of them fails. *)
Ltac short_read Hshort :=
  repeat match goal with
  | |- context [fread ?n ?t] =>
    let E := fresh "E" in
    destruct (fread n t) as [[? ?] | ?] eqn:E; cbn [mbind outcome_bind bind];
    [apply fread_Done in E as (-> & ? & _); rewrite ?length_app in Hshort
    | apply fread_Fail in E as ->; reflexivity]
  end; exfalso; unfold CELL_SIZE in *; lia.

(** X2: The error of a packet the table does not know is the
    invalid-packet-type error with the offending byte, for every byte
    outside the table; a packet whose payload the file cuts short fails
    as truncated, whatever its type. *)
Theorem packet_step_errors version ty trace app current :
  (payload_size version ty = None ->
     packet_step version ty trace app current = Fail (InvalidPacketType ty))
  /\ (forall n, payload_size version ty = Some n -> (length trace < n)%nat ->
      packet_step version ty trace app current = Fail UnexpectedEof).
Proof.
  split.
  - destruct ty; cbn [payload_size]; intros H; try discriminate H; reflexivity.
  - intros n Hsize Hshort.
    destruct ty; cbn [payload_size] in Hsize; try discriminate Hsize;
      injection Hsize as <-; cbn [packet_step]; try (cbn in Hshort; lia).
    + short_read Hshort.
    + short_read Hshort.
    + short_read Hshort.
    + unfold read_registers.
      destruct (version =? 1); [| destruct (version =? 2)]; short_read Hshort.
    + short_read Hshort.
    + short_read Hshort.
    + short_read Hshort.
Qed.

(** ** No undefined behaviour in the loader *)

Lemma patch_register_Fail regs index data f :
  patch_register regs index data = Fail f -> f = BadRegisterIndex.
Proof.
  unfold patch_register.
  repeat match goal with |- context [if ?b then _ else _] => destruct b end;
    congruence.
Qed.

Lemma read_registers_Fail version trace f :
  read_registers version trace = Fail f -> f = UnexpectedEof.
Proof.
  unfold read_registers.
  destruct (version =? 1); [| destruct (version =? 2)];
    repeat match goal with
    | |- context [fread ?n ?t] =>
      let E := fresh "E" in
      destruct (fread n t) as [[? ?] | ?] eqn:E; cbn [mbind outcome_bind bind];
      [| apply fread_Fail in E; congruence]
    end; discriminate.
Qed.

Lemma push_snapshot_Fail app current f :
  defs_ok -> ingesting app ->
  push_snapshot app current = Fail f -> f = BadProgramCounter.
Proof.
  intros Hdefs Hinv H.
  destruct (Z.geb_spec (pc_of current) VU1_PROGSIZE) as [Hhigh | Hlow].
  - unfold push_snapshot in H.
    destruct (Z.geb_spec (pc_of current) VU1_PROGSIZE); [| lia].
    cbn [orb] in H. congruence.
  - destruct (Z.eqb_spec (pc_of current mod INSN_PAIR_SIZE) 0) as [Hmod | Hmod].
    + rewrite push_snapshot_flow in H by assumption. discriminate H.
    + unfold push_snapshot in H.
      destruct (Z.eqb_spec (pc_of current mod INSN_PAIR_SIZE) 0); [contradiction |].
      rewrite orb_true_r in H. congruence.
Qed.

Lemma packet_step_Fail version ty trace app current f :
  defs_ok -> ingesting app ->
  packet_step version ty trace app current = Fail f -> is_exit f.
Proof.
  intros Hdefs Hinv. unfold packet_step.
  destruct ty; try (intros [= <-]; exact I).
  - repeat match goal with
    | |- context [fread ?n ?t] =>
      let E := fresh "E" in
      destruct (fread n t) as [[? ?] | ?] eqn:E; cbn [mbind outcome_bind bind];
      [| apply fread_Fail in E as ->; intros [= <-]; exact I]
    end; discriminate.
  - repeat match goal with
    | |- context [fread ?n ?t] =>
      let E := fresh "E" in
      destruct (fread n t) as [[? ?] | ?] eqn:E; cbn [mbind outcome_bind bind];
      [| apply fread_Fail in E as ->; intros [= <-]; exact I]
    end; discriminate.
  - repeat match goal with
    | |- context [fread ?n ?t] =>
      let E := fresh "E" in
      destruct (fread n t) as [[? ?] | ?] eqn:E; cbn [mbind outcome_bind bind];
      [| apply fread_Fail in E as ->; intros [= <-]; exact I]
    end; discriminate.
  - destruct (push_snapshot app current) as [[app1 current1] | f'] eqn:E;
      cbn [mbind outcome_bind bind]; [discriminate |].
    apply push_snapshot_Fail in E as ->; try assumption. intros [= <-]. exact I.
  - destruct (read_registers version trace) as [[regs rest] | f'] eqn:E;
      cbn [mbind outcome_bind bind]; [discriminate |].
    apply read_registers_Fail in E as ->. intros [= <-]. exact I.
  - repeat match goal with
    | |- context [fread ?n ?t] =>
      let E := fresh "E" in
      destruct (fread n t) as [[? ?] | ?] eqn:E; cbn [mbind outcome_bind bind];
      [| apply fread_Fail in E as ->; intros [= <-]; exact I]
    end; discriminate.
  - repeat match goal with
    | |- context [fread ?n ?t] =>
      let E := fresh "E" in
      destruct (fread n t) as [[? ?] | ?] eqn:E; cbn [mbind outcome_bind bind];
      [| apply fread_Fail in E as ->; intros [= <-]; exact I]
    end.
    destruct (_ <? _); [discriminate |]. intros [= <-]. exact I.
  - repeat match goal with
    | |- context [fread ?n ?t] =>
      let E := fresh "E" in
      destruct (fread n t) as [[? ?] | ?] eqn:E; cbn [mbind outcome_bind bind];
      [| apply fread_Fail in E as ->; intros [= <-]; exact I]
    end.
    destruct (patch_register _ _ _) as [regs | f'] eqn:Hpatch;
      cbn [mbind outcome_bind bind]; [discriminate |].
    apply patch_register_Fail in Hpatch as ->. intros [= <-]. exact I.
Qed.

Lemma parse_packets_Fail fuel version trace app current f :
  defs_ok -> ingesting app -> (length trace < fuel)%nat ->
  parse_packets fuel version trace app current = Fail f -> is_exit f.
Proof.
  intros Hdefs. revert trace app current.
  induction fuel as [| fuel IH]; intros trace app current Hinv Hfuel H; [lia |].
  cbn [parse_packets] in H. destruct trace as [| ty trace]; [discriminate H |].
  destruct (packet_step version ty trace app current)
    as [[[app1 current1] rest] | f'] eqn:E; cbn [mbind outcome_bind bind] in H.
  - apply (IH rest app1 current1); [| | exact H].
    + eapply packet_step_ingesting; eassumption.
    + apply packet_step_frame in E as ((payload & -> & _) & _).
      cbn [length] in Hfuel. rewrite length_app in Hfuel. lia.
  - injection H as <-. eapply packet_step_Fail; eassumption.
Qed.

(** X3: Whatever the file holds, the loader either returns or stops on one
    of its own error exits: it never indexes the instruction table or the
    store out of bounds, and its loop needs no more turns than the file
    has bytes. *)
Theorem parse_trace_fails_by_exit app trace memory0 program0 f :
  defs_ok ->
  parse_trace app trace memory0 program0 = Fail f ->
  f <> OutOfBounds /\ f <> DivisionByZero /\ f <> OutOfFuel.
Proof.
  intros Hdefs H.
  assert (is_exit f) as Hexit.
  { unfold parse_trace in H.
    destruct (fread 4 trace) as [[magic rest] | f'] eqn:E;
      cbn [mbind outcome_bind bind] in H;
      [| apply fread_Fail in E as ->; injection H as <-; exact I].
    destruct (bool_decide (magic = magic_tag)).
    - destruct (fread 4 rest) as [[version_bytes body] | f'] eqn:E';
        cbn [mbind outcome_bind bind] in H;
        [| apply fread_Fail in E' as ->; injection H as <-; exact I].
      destruct (le_value version_bytes >? 3); [injection H as <-; exact I |].
      unfold read_packets in H.
      destruct (parse_packets _ _ _ _ _) as [[app1 current1] | f'] eqn:Hloop;
        cbn [mbind outcome_bind bind] in H; [discriminate H |].
      injection H as <-.
      eapply parse_packets_Fail; [exact Hdefs | | | exact Hloop];
        [apply reset_app_ingesting; exact Hdefs | lia].
    - cbn [mbind outcome_bind bind] in H.
      change (1 >? 3) with false in H. cbv iota in H.
      unfold read_packets in H.
      destruct (parse_packets _ _ _ _ _) as [[app1 current1] | f'] eqn:Hloop;
        cbn [mbind outcome_bind bind] in H; [discriminate H |].
      injection H as <-.
      eapply parse_packets_Fail; [exact Hdefs | | | exact Hloop];
        [apply reset_app_ingesting; exact Hdefs | lia]. }
  destruct f; cbn in Hexit; try contradiction; repeat split; discriminate.
Qed.

(** ** What the store holds *)

Lemma length_cells count buf : length (cells count buf) = count.
Proof.
  revert buf. induction count as [| count IH]; intros buf; cbn; [| rewrite IH];
    reflexivity.
Qed.

Lemma read_registers_sized version trace regs rest :
  read_registers version trace = Done (regs, rest) ->
  length (VF regs) = 32%nat /\ length (VI regs) = 32%nat.
Proof.
  unfold read_registers.
  destruct (version =? 1); [| destruct (version =? 2)]; intros H;
    repeat (bind_inv H; match goal with a : (_ * _)%type |- _ => destruct a end);
    injection H as <- _; unfold regs_of_old; cbn [VF VI]; rewrite ?length_cells;
    split; reflexivity.
Qed.

Lemma patch_register_sized regs index data regs' :
  patch_register regs index data = Done regs' ->
  length (VF regs') = length (VF regs) /\ length (VI regs') = length (VI regs).
Proof.
  unfold patch_register.
  repeat match goal with |- context [if ?b then _ else _] => destruct b end;
    intros [= <-]; cbn; rewrite ?length_insert; auto.
Qed.

(** The fields of the session a push leaves alone. *)
Lemma push_snapshot_session app current app' current' :
  push_snapshot app current = Done (app', current') ->
  current_snapshot app' = current_snapshot app
  /\ snapshots_scroll_to app' = snapshots_scroll_to app
  /\ disassembly_scroll_to app' = disassembly_scroll_to app.
Proof.
  unfold push_snapshot.
  destruct (_ || _); [discriminate |]. intros H.
  bind_inv H. bind_inv H. bind_inv H. injection H as <- _. auto.
Qed.

(** One turn of the loop: the current state keeps the sizes of its
    arrays, and a snapshot it appends has a tested program counter. *)
Lemma packet_step_current version ty trace app current app' current' rest :
  sized current ->
  packet_step version ty trace app current = Done (app', current', rest) ->
  sized current' /\ (ty = "P"%byte -> pc_valid current).
Proof.
  intros [Hmem Hprog Hvf Hvi] H.
  destruct (packet_step_types _ _ _ _ _ _ H)
    as [-> | [-> | [-> | [-> | [-> | [-> | [-> | ->]]]]]]]; cbn [packet_step] in H.
  - bind_inv H. destruct a as [app1 current1]. injection H as <- <- <-.
    apply push_snapshot_Done in E as (_ & -> & Hpc & Hmod & _).
    split; [split; assumption |]. intros _.
    pose proof (pc_of_bounds current). split; [lia | exact Hmod].
  - bind_inv H. destruct a as [regs rest']. injection H as <- <- <-.
    apply read_registers_sized in E as [Hvf' Hvi'].
    split; [split; assumption | discriminate].
  - bind_inv H. destruct a as [buf rest']. injection H as <- <- <-.
    apply fread_Done in E as (_ & Hlen & _).
    split; [split; assumption | discriminate].
  - bind_inv H. destruct a as [buf rest']. injection H as <- <- <-.
    apply fread_Done in E as (_ & Hlen & _).
    split; [split; assumption | discriminate].
  - bind_inv H. destruct a as [addr t1]. bind_inv H. destruct a as [sz t2].
    injection H as <- <- <-. split; [split; assumption | discriminate].
  - bind_inv H. destruct a as [addr t1]. bind_inv H. destruct a as [sz t2].
    injection H as <- <- <-. split; [split; assumption | discriminate].
  - bind_inv H. destruct a as [index t1]. bind_inv H. destruct a as [data t2].
    bind_inv H. injection H as <- <- <-.
    apply patch_register_sized in E1 as [Hvf' Hvi'].
    split; [split; cbn; congruence | discriminate].
  - bind_inv H. destruct a as [address t1]. bind_inv H. destruct a as [data t2].
    destruct (le_value address <? VU1_MEMSIZE - 4); [| discriminate H].
    injection H as <- <- <-.
    split; [split; cbn; rewrite ?length_inserts; assumption | discriminate].
Qed.

Lemma packet_step_session version ty trace app current app' current' rest :
  packet_step version ty trace app current = Done (app', current', rest) ->
  current_snapshot app' = current_snapshot app
  /\ snapshots_scroll_to app' = snapshots_scroll_to app
  /\ disassembly_scroll_to app' = disassembly_scroll_to app
  /\ length (instructions app') = length (instructions app).
Proof.
  intros H. destruct (decide (ty = "P"%byte)) as [-> | Hne].
  - cbn [packet_step] in H. bind_inv H. destruct a as [app1 current1].
    injection H as <- <- <-.
    pose proof (push_snapshot_session _ _ _ _ E) as (? & ? & ?).
    apply push_snapshot_Done in E as (_ & _ & _ & _ & ?). auto.
  - apply packet_step_frame in H as (_ & _ & Happ). rewrite (Happ Hne). auto.
Qed.

Lemma parse_packets_stored fuel version trace app current app' current' :
  sized current ->
  parse_packets fuel version trace app current = Done (app', current') ->
  exists pushed,
    snapshots app' = snapshots app ++ pushed
    /\ Forall (fun snap => pc_valid snap /\ sized snap) pushed
    /\ current_snapshot app' = current_snapshot app
    /\ snapshots_scroll_to app' = snapshots_scroll_to app
    /\ disassembly_scroll_to app' = disassembly_scroll_to app
    /\ length (instructions app') = length (instructions app).
Proof.
  revert trace app current.
  induction fuel as [| fuel IH]; intros trace app current Hsized H;
    [discriminate H |].
  cbn [parse_packets] in H. destruct trace as [| ty trace].
  - injection H as <- <-. exists []. rewrite app_nil_r.
    split; [reflexivity |]. split; [constructor |]. auto.
  - bind_inv H. destruct a as [[app1 current1] rest].
    pose proof (packet_step_current _ _ _ _ _ _ _ _ Hsized E) as [Hsized1 Hpushed].
    pose proof (packet_step_session _ _ _ _ _ _ _ _ E) as (Hc & Hs & Hd & Hl).
    apply packet_step_frame in E as (_ & Hsnaps & _).
    apply (IH _ _ _ Hsized1) in H
      as (pushed & -> & Hall & Hc' & Hs' & Hd' & Hl').
    destruct (decide (ty = "P"%byte)) as [Hp | Hp].
    + exists (current :: pushed). rewrite Hsnaps, <- app_assoc.
      split; [reflexivity |].
      split; [constructor; [split; [apply Hpushed, Hp | exact Hsized] | exact Hall] |].
      repeat split; congruence.
    + exists pushed. rewrite Hsnaps.
      split; [reflexivity |]. split; [exact Hall |]. repeat split; congruence.
Qed.

(** X4: The loop only ever appends to the store: what it held before a run
    of the loop is a prefix of what it holds after, untouched.  The loop
    moves neither the cursor nor the scroll flags, and the instruction
    table keeps its size. *)
Theorem parse_packets_append_only fuel version trace app current app' current' :
  parse_packets fuel version trace app current = Done (app', current') ->
  snapshots app `prefix_of` snapshots app'
  /\ current_snapshot app' = current_snapshot app
  /\ snapshots_scroll_to app' = snapshots_scroll_to app
  /\ disassembly_scroll_to app' = disassembly_scroll_to app
  /\ length (instructions app') = length (instructions app).
Proof.
  revert trace app current.
  induction fuel as [| fuel IH]; intros trace app current H; [discriminate H |].
  cbn [parse_packets] in H. destruct trace as [| ty trace].
  - injection H as <- <-. auto.
  - bind_inv H. destruct a as [[app1 current1] rest].
    pose proof (packet_step_session _ _ _ _ _ _ _ _ E) as (Hc & Hs & Hd & Hl).
    apply packet_step_frame in E as (_ & Hsnaps & _).
    apply IH in H as (Hprefix & Hc' & Hs' & Hd' & Hl').
    split; [| repeat split; congruence].
    etransitivity; [| exact Hprefix]. rewrite Hsnaps.
    destruct (decide (ty = "P"%byte)); [apply prefix_app_r |]; reflexivity.
Qed.

(** X5: Every snapshot of a loaded trace has a program counter below
    [VU1_PROGSIZE] that is a multiple of the pair size, a data memory and
    a program memory of the sizes of their arrays, and 32 vector and 32
    integer registers.  The arrays of the loader's current state are
    uninitialised at first, but have their sizes. *)
Theorem parse_trace_snapshots_valid app trace memory0 program0 app' :
  length memory0 = Z.to_nat VU1_MEMSIZE ->
  length program0 = Z.to_nat VU1_PROGSIZE ->
  parse_trace app trace memory0 program0 = Done app' ->
  Forall (fun snap => pc_valid snap /\ sized snap) (snapshots app').
Proof.
  intros Hmem Hprog H.
  apply parse_trace_Done in H as (version & header & body & _ & _ & H).
  unfold read_packets in H. bind_inv H. destruct a as [app1 current1].
  injection H as <-.
  apply parse_packets_stored in E as (pushed & Hsnaps & Hall & _).
  - cbn in Hsnaps. rewrite Hsnaps. exact Hall.
  - split; cbn; auto; apply length_replicate.
Qed.

(** ** The statistics of the instruction table *)

Lemma executions_snoc snaps snap slot :
  executions (snaps ++ [snap]) slot
  = (executions snaps slot + if decide (slot_of snap = slot) then 1 else 0)%nat.
Proof.
  unfold executions. rewrite filter_app, length_app, filter_cons, filter_nil.
  destruct (decide (slot_of snap = slot)); reflexivity.
Qed.

Lemma executions_le snaps slot : (executions snaps slot <= length snaps)%nat.
Proof. apply length_filter. Qed.

Lemma count_adjacent_snoc edge snaps snap :
  count_adjacent edge (snaps ++ [snap])
  = (count_adjacent edge snaps
     + match last snaps with
       | Some prev => if edge prev snap then 1 else 0
       | None => 0
       end)%nat.
Proof.
  induction snaps as [| a [| b l] IH].
  - reflexivity.
  - cbn. lia.
  - change (count_adjacent edge ((a :: b :: l) ++ [snap]))
      with ((if edge a b then 1 else 0) + count_adjacent edge ((b :: l) ++ [snap]))%nat.
    rewrite IH, last_cons_cons. cbn [count_adjacent]. lia.
Qed.

Lemma count_adjacent_le edge snaps : (count_adjacent edge snaps <= length snaps)%nat.
Proof.
  induction snaps as [| a [| b l] IH]; cbn [count_adjacent length] in *; try lia.
  destruct (edge a b); lia.
Qed.

Lemma count_adjacent_ext edge1 edge2 snaps :
  (forall prev next, prev ∈ snaps -> next ∈ snaps -> edge1 prev next = edge2 prev next) ->
  count_adjacent edge1 snaps = count_adjacent edge2 snaps.
Proof.
  induction snaps as [| a [| b l] IH]; intros Hext; try reflexivity.
  change (count_adjacent edge1 (a :: b :: l))
    with ((if edge1 a b then 1 else 0) + count_adjacent edge1 (b :: l))%nat.
  change (count_adjacent edge2 (a :: b :: l))
    with ((if edge2 a b then 1 else 0) + count_adjacent edge2 (b :: l))%nat.
  rewrite IH.
  - rewrite (Hext a b); [reflexivity | apply elem_of_cons; auto |].
    apply elem_of_cons. right. apply elem_of_cons. auto.
  - intros prev next Hp Hn. apply Hext; apply elem_of_cons; auto.
Qed.

Lemma size_t_incr_to_size_t x : size_t_incr (to_size_t x) = to_size_t (x + 1).
Proof. unfold size_t_incr, to_size_t. apply Z.add_mod_idemp_l. lia. Qed.

Lemma flow_update_length prev pc instrs :
  length (flow_update prev pc instrs) = length instrs.
Proof.
  unfold flow_update. destruct prev as [prev |]; [destruct (decide _) |];
    rewrite !length_alter; reflexivity.
Qed.

(** The execution count and flag of a slot under the update of a push. *)
Lemma flow_update_executed prev pc instrs (slot : nat) i' :
  flow_update prev pc instrs !! slot = Some i' ->
  exists i, instrs !! slot = Some i
    /\ times_executed i' =
        (if decide (slot = Z.to_nat (pc / INSN_PAIR_SIZE))
         then size_t_incr (times_executed i) else times_executed i)
    /\ is_executed i' =
        (if decide (slot = Z.to_nat (pc / INSN_PAIR_SIZE))
         then true else is_executed i).
Proof.
  unfold flow_update. set (s := Z.to_nat (pc / INSN_PAIR_SIZE)).
  set (inner := match prev with Some _ => _ | None => _ end).
  assert (times_executed <$> inner !! slot = times_executed <$> instrs !! slot
          /\ is_executed <$> inner !! slot
             = (fun b => if decide (slot = s) then true else b)
                 <$> (is_executed <$> instrs !! slot)) as [Htimes Hflag].
  { assert (is_executed <$> alter mark_executed s instrs !! slot
            = (fun b => if decide (slot = s) then true else b)
                <$> (is_executed <$> instrs !! slot)) as Hmark.
    { rewrite list_lookup_alter.
      destruct (decide (s = slot)) as [<- | Hne].
      - destruct (instrs !! s); cbn; [rewrite decide_True by reflexivity |];
          reflexivity.
      - destruct (instrs !! slot); cbn; [rewrite decide_False by auto |];
          reflexivity. }
    subst inner.
    destruct prev as [prev |];
      [destruct (decide (pc_of prev + INSN_PAIR_SIZE = pc)) |];
      rewrite !lookup_alter_field by reflexivity; auto. }
  rewrite list_lookup_alter. intros Hlook.
  destruct (decide (s = slot)) as [<- | Hne].
  - destruct (inner !! s) as [j |] eqn:Hj; [| discriminate Hlook].
    injection Hlook as <-.
    destruct (instrs !! s) as [i |] eqn:Hi; [| discriminate Htimes].
    exists i. cbn in Htimes, Hflag. injection Htimes as Ht. injection Hflag as Hf.
    rewrite decide_True in * by reflexivity.
    split; [reflexivity |]. cbn. split; congruence.
  - rewrite Hlook in Htimes, Hflag.
    destruct (instrs !! slot) as [i |]; [| discriminate Htimes].
    exists i. cbn in Htimes, Hflag. injection Htimes as Ht. injection Hflag as Hf.
    rewrite decide_False in * by auto. auto.
Qed.

Lemma branch_to_count_lookup instrs slot i target :
  instrs !! slot = Some i ->
  branch_to_count instrs slot target = default 0 (branch_to_times i !! target).
Proof. intros H. unfold branch_to_count. rewrite H. reflexivity. Qed.

Lemma branch_from_count_lookup instrs slot i source :
  instrs !! slot = Some i ->
  branch_from_count instrs slot source = default 0 (branch_from_times i !! source).
Proof. intros H. unfold branch_from_count. rewrite H. reflexivity. Qed.

(** The branch counters of every slot and key under the update of a
    push that follows [prev]. *)
Lemma flow_update_counts prev pc instrs current :
  pc_of current = pc ->
  (forall snap, prev = Some snap ->
     (slot_of snap < length instrs)%nat) ->
  (Z.to_nat (pc / INSN_PAIR_SIZE) < length instrs)%nat ->
  forall slot key,
    branch_to_count (flow_update prev pc instrs) slot key
    = (if match prev with
          | Some snap => branch_out slot key snap current
          | None => false
          end
       then size_t_incr (branch_to_count instrs slot key)
       else branch_to_count instrs slot key)
    /\ branch_from_count (flow_update prev pc instrs) slot key
    = (if match prev with
          | Some snap => branch_in slot key snap current
          | None => false
          end
       then size_t_incr (branch_from_count instrs slot key)
       else branch_from_count instrs slot key).
Proof.
  intros Hpc Hprev Hslot slot key.
  destruct prev as [snap |].
  - unfold branch_out, branch_in, branch. rewrite Hpc.
    destruct (decide (pc_of snap + INSN_PAIR_SIZE = pc)) as [Hseq | Hbranch].
    + rewrite bool_decide_eq_false_2 by tauto. cbn [andb].
      destruct (flow_update_sequential (Some snap) pc instrs slot) as [Hto Hfrom];
        [right; eauto |].
      split; [apply branch_to_count_field | apply branch_from_count_field];
        assumption.
    + rewrite bool_decide_eq_true_2 by exact Hbranch. cbn [andb].
      destruct (flow_update_branch snap pc instrs Hbranch) as (Hto & Hfrom & _);
        [apply (Hprev snap); reflexivity | exact Hslot |].
      rewrite Hto, Hfrom. unfold slot_of. rewrite Hpc. split.
      * destruct (decide (slot = Z.to_nat (pc_of snap / INSN_PAIR_SIZE) /\ key = pc))
          as [[-> ->] | Hno].
        -- rewrite !bool_decide_eq_true_2 by reflexivity. reflexivity.
        -- destruct (bool_decide_reflect (Z.to_nat (pc_of snap / INSN_PAIR_SIZE) = slot));
             destruct (bool_decide_reflect (pc = key)); cbn [andb]; try reflexivity.
           exfalso. apply Hno. auto.
      * destruct (decide (slot = Z.to_nat (pc / INSN_PAIR_SIZE) /\ key = pc_of snap))
          as [[-> ->] | Hno].
        -- rewrite !bool_decide_eq_true_2 by reflexivity. reflexivity.
        -- destruct (bool_decide_reflect (Z.to_nat (pc / INSN_PAIR_SIZE) = slot));
             destruct (bool_decide_reflect (pc_of snap = key)); cbn [andb];
             try reflexivity.
           exfalso. apply Hno. auto.
  - destruct (flow_update_sequential None pc instrs slot) as [Hto Hfrom]; [auto |].
    split; [apply branch_to_count_field | apply branch_from_count_field];
      assumption.
Qed.

End Loader.

Section Statistics.
Context `{defs : Pcsx2Defs}.

Lemma to_size_t_count (c : nat) (snaps : list Snapshot) :
  (c <= length snaps)%nat -> size snaps < 2 ^ 64 ->
  to_size_t (Z.of_nat c) = Z.of_nat c.
Proof. intros Hc Hsize. apply to_size_t_small. unfold size in Hsize. lia. Qed.

Lemma reset_app_agrees app : instructions app = [] -> table_agrees (reset_app app).
Proof.
  intros Hfresh slot i. cbn [reset_app instructions snapshots].
  rewrite Hfresh, resize_nil. intros Hlook.
  apply lookup_replicate in Hlook as [-> _].
  repeat split; intros; reflexivity.
Qed.

Lemma push_snapshot_agrees app current app' current' :
  defs_ok -> ingesting app -> table_agrees app ->
  push_snapshot app current = Done (app', current') ->
  table_agrees app'.
Proof.
  intros Hdefs Hinv Hagree Hpush.
  pose proof (push_snapshot_Done _ _ _ _ Hpush) as (_ & _ & Hpc & Hmod & _).
  rewrite push_snapshot_flow in Hpush by assumption.
  injection Hpush as <- _.
  intros slot i'. cbn [instructions snapshots]. intros Hlook.
  pose proof (pc_of_bounds current) as Hpc0.
  destruct (flow_update_executed _ _ _ _ _ Hlook) as (i & Hi & Htimes & Hflag).
  destruct (Hagree slot i Hi) as (Ht & Hf & Hto & Hfrom).
  assert (forall key,
            branch_to_count (flow_update (last (snapshots app)) (pc_of current)
                               (instructions app)) slot key
            = (if match last (snapshots app) with
                  | Some snap => branch_out slot key snap current
                  | None => false
                  end
               then size_t_incr (branch_to_count (instructions app) slot key)
               else branch_to_count (instructions app) slot key)
            /\ branch_from_count (flow_update (last (snapshots app)) (pc_of current)
                                   (instructions app)) slot key
            = (if match last (snapshots app) with
                  | Some snap => branch_in slot key snap current
                  | None => false
                  end
               then size_t_incr (branch_from_count (instructions app) slot key)
               else branch_from_count (instructions app) slot key)) as Hcounts.
  { apply flow_update_counts; [reflexivity | |].
    - intros snap Hlast. unfold slot_of.
      pose proof (pc_of_bounds snap).
      apply table_covers; try assumption.
      destruct Hinv as [_ Hstored]. rewrite Forall_forall in Hstored.
      assert (pc_of snap < VU1_PROGSIZE)
        by (apply Hstored, last_Some_elem_of, Hlast). lia.
    - apply table_covers; try assumption. lia. }
  split; [| split; [| split]].
  - rewrite Htimes, executions_snoc. unfold slot_of.
    destruct (decide (slot = Z.to_nat (pc_of current / INSN_PAIR_SIZE))) as [-> | Hne].
    + rewrite decide_True by reflexivity.
      rewrite Ht, size_t_incr_to_size_t. f_equal. lia.
    + rewrite decide_False by auto. rewrite Ht. f_equal. lia.
  - rewrite Hflag, executions_snoc. unfold slot_of.
    destruct (decide (slot = Z.to_nat (pc_of current / INSN_PAIR_SIZE))) as [-> | Hne].
    + rewrite decide_True by reflexivity.
      symmetry. apply bool_decide_eq_true_2. lia.
    + rewrite decide_False by auto. rewrite Hf.
      apply bool_decide_ext. lia.
  - intros target.
    rewrite <- (branch_to_count_lookup _ _ _ _ Hlook).
    rewrite (proj1 (Hcounts target)), count_adjacent_snoc.
    rewrite (branch_to_count_lookup _ _ _ _ Hi), Hto.
    destruct (last (snapshots app)) as [snap |];
      [destruct (branch_out slot target snap current) |].
    + rewrite size_t_incr_to_size_t. f_equal. lia.
    + f_equal. lia.
    + f_equal. lia.
  - intros source.
    rewrite <- (branch_from_count_lookup _ _ _ _ Hlook).
    rewrite (proj2 (Hcounts source)), count_adjacent_snoc.
    rewrite (branch_from_count_lookup _ _ _ _ Hi), Hfrom.
    destruct (last (snapshots app)) as [snap |];
      [destruct (branch_in slot source snap current) |].
    + rewrite size_t_incr_to_size_t. f_equal. lia.
    + f_equal. lia.
    + f_equal. lia.
Qed.

Lemma packet_step_agrees version ty trace app current app' current' rest :
  defs_ok -> ingesting app -> table_agrees app ->
  packet_step version ty trace app current = Done (app', current', rest) ->
  table_agrees app'.
Proof.
  intros Hdefs Hinv Hagree H.
  destruct (decide (ty = "P"%byte)) as [-> | Hne].
  - cbn [packet_step] in H. bind_inv H. destruct a as [app1 current1].
    injection H as <- <- <-. eapply push_snapshot_agrees; eassumption.
  - apply packet_step_frame in H as (_ & _ & Happ). rewrite (Happ Hne).
    exact Hagree.
Qed.

Lemma packet_step_pcs version ty trace app current app' current' rest :
  Forall pc_valid (snapshots app) ->
  packet_step version ty trace app current = Done (app', current', rest) ->
  Forall pc_valid (snapshots app').
Proof.
  intros Hpcs H.
  destruct (decide (ty = "P"%byte)) as [-> | Hne].
  - cbn [packet_step] in H. bind_inv H. destruct a as [app1 current1].
    injection H as <- <- <-.
    apply push_snapshot_Done in E as (-> & _ & Hpc & Hmod & _).
    apply Forall_app. split; [exact Hpcs |].
    constructor; [| constructor]. pose proof (pc_of_bounds current).
    split; [lia | exact Hmod].
  - apply packet_step_frame in H as (_ & _ & Happ). rewrite (Happ Hne).
    exact Hpcs.
Qed.

Lemma parse_packets_agrees fuel version trace app current app' current' :
  defs_ok -> ingesting app -> table_agrees app ->
  Forall pc_valid (snapshots app) ->
  parse_packets fuel version trace app current = Done (app', current') ->
  ingesting app' /\ table_agrees app' /\ Forall pc_valid (snapshots app').
Proof.
  intros Hdefs. revert trace app current.
  induction fuel as [| fuel IH]; intros trace app current Hinv Hagree Hpcs H;
    [discriminate H |].
  cbn [parse_packets] in H. destruct trace as [| ty trace].
  - injection H as <- <-. auto.
  - bind_inv H. destruct a as [[app1 current1] rest].
    apply (IH rest app1 current1); [| | | exact H].
    + eapply packet_step_ingesting; eassumption.
    + eapply packet_step_agrees; eassumption.
    + eapply packet_step_pcs; eassumption.
Qed.

(** The state of a fresh session after a load. *)
Lemma parse_trace_agrees app trace memory0 program0 app' :
  defs_ok -> instructions app = [] ->
  parse_trace app trace memory0 program0 = Done app' ->
  ingesting app' /\ table_agrees app' /\ Forall pc_valid (snapshots app').
Proof.
  intros Hdefs Hfresh H.
  apply parse_trace_Done in H as (version & header & body & _ & _ & H).
  unfold read_packets in H. bind_inv H. destruct a as [app1 current1].
  injection H as <-.
  eapply parse_packets_agrees; [exact Hdefs | | | | exact E].
  - apply reset_app_ingesting; exact Hdefs.
  - apply reset_app_agrees; exact Hfresh.
  - constructor.
Qed.

(** X6: After a load into a fresh session the table has one slot per
    instruction pair; the execution count of each slot is the number of
    snapshots whose program counter lies in it, and the slot is flagged
    as executed exactly when there is such a snapshot. *)
Theorem parse_trace_execution_counts app trace memory0 program0 app' :
  defs_ok -> instructions app = [] ->
  parse_trace app trace memory0 program0 = Done app' ->
  size (snapshots app') < 2 ^ 64 ->
  size (instructions app') = VU1_PROGSIZE / INSN_PAIR_SIZE
  /\ forall slot i, instructions app' !! slot = Some i ->
       times_executed i = Z.of_nat (executions (snapshots app') slot)
       /\ (is_executed i = true <-> exists snap, snap ∈ snapshots app' /\ slot_of snap = slot).
Proof.
  intros Hdefs Hfresh H Hsize.
  destruct (parse_trace_agrees _ _ _ _ _ Hdefs Hfresh H) as ([Htable _] & Hagree & _).
  split; [exact Htable |]. intros slot i Hi.
  destruct (Hagree slot i Hi) as (Ht & Hf & _).
  split.
  - rewrite Ht. apply (to_size_t_count _ (snapshots app')); [apply executions_le | exact Hsize].
  - rewrite Hf, bool_decide_eq_true. unfold executions. split.
    + intros Hpos.
      destruct (filter (fun snap => slot_of snap = slot) (snapshots app'))
        as [| snap l] eqn:Hfilter; [cbn in Hpos; lia |].
      assert (snap ∈ filter (fun snap => slot_of snap = slot) (snapshots app')) as Hin
        by (rewrite Hfilter; apply elem_of_cons; auto).
      apply list_elem_of_filter in Hin as [Hslot Hin]. eauto.
    + intros (snap & Hin & Hslot).
      assert (snap ∈ filter (fun snap => slot_of snap = slot) (snapshots app')) as Hin'
        by (apply list_elem_of_filter; auto).
      destruct (filter _ _); [inversion Hin' | cbn; lia].
Qed.

End Statistics.

Section Branches.
Context `{defs : Pcsx2Defs}.

Lemma count_adjacent_none edge snaps :
  (forall prev next, prev ∈ snaps -> next ∈ snaps -> edge prev next = false) ->
  count_adjacent edge snaps = 0%nat.
Proof.
  intros Hnone.
  rewrite (count_adjacent_ext edge (fun _ _ => false) snaps Hnone).
  induction snaps as [| a [| b l] IH]; try reflexivity.
  change (count_adjacent (fun _ _ => false) (a :: b :: l))
    with (0 + count_adjacent (fun _ : Snapshot => fun _ : Snapshot => false) (b :: l))%nat.
  rewrite IH; [reflexivity |].
  intros prev next Hp Hn. apply Hnone; apply elem_of_cons; auto.
Qed.

(** X7: After a load into a fresh session, the counter [branch_to[target]]
    of a slot is the number of snapshots in that slot whose successor is
    at [target] and is not the next instruction pair, and the counter
    [branch_from[source]] of a slot is the number of snapshots in that
    slot whose predecessor is at [source] and is not the preceding pair.
    A key that was never counted reads as 0. *)
Theorem parse_trace_branch_counts app trace memory0 program0 app' :
  defs_ok -> instructions app = [] ->
  parse_trace app trace memory0 program0 = Done app' ->
  size (snapshots app') < 2 ^ 64 ->
  forall slot key,
    branch_to_count (instructions app') slot key
    = Z.of_nat (count_adjacent (branch_out slot key) (snapshots app'))
    /\ branch_from_count (instructions app') slot key
    = Z.of_nat (count_adjacent (branch_in slot key) (snapshots app')).
Proof.
  intros Hdefs Hfresh H Hsize slot key.
  destruct (parse_trace_agrees _ _ _ _ _ Hdefs Hfresh H) as (Hinv & Hagree & Hpcs).
  destruct (instructions app' !! slot) as [i |] eqn:Hi.
  - destruct (Hagree slot i Hi) as (_ & _ & Hto & Hfrom).
    rewrite (branch_to_count_lookup _ _ _ _ Hi), (branch_from_count_lookup _ _ _ _ Hi).
    rewrite Hto, Hfrom.
    split; apply (to_size_t_count _ (snapshots app'));
      auto using count_adjacent_le.
  - unfold branch_to_count, branch_from_count. rewrite Hi.
    apply lookup_ge_None in Hi.
    assert (forall snap, snap ∈ snapshots app' -> slot_of snap <> slot) as Hother.
    { intros snap Hin Hslot. rewrite Forall_forall in Hpcs.
      destruct (Hpcs snap Hin) as [Hpc _].
      pose proof (table_covers app' (pc_of snap) Hdefs Hinv Hpc) as Hcov.
      unfold slot_of in Hslot. lia. }
    split; (rewrite count_adjacent_none; [reflexivity |]);
      intros prev next Hp Hn; unfold branch_out, branch_in.
    + rewrite (bool_decide_eq_false_2 (slot_of prev = slot)) by auto.
      rewrite andb_false_r. reflexivity.
    + rewrite (bool_decide_eq_false_2 (slot_of next = slot)) by auto.
      rewrite andb_false_r. reflexivity.
Qed.

Lemma slot_of_address snap a :
  pc_valid snap -> 0 <= a -> a mod INSN_PAIR_SIZE = 0 ->
  slot_of snap = Z.to_nat (a / INSN_PAIR_SIZE) <-> pc_of snap = a.
Proof.
  intros [Hpc Hmod] Ha Hamod. unfold slot_of, INSN_PAIR_SIZE in *. split.
  - intros Hslot.
    assert (pc_of snap / 8 = a / 8) as Hdiv.
    { apply Z2Nat.inj in Hslot; [exact Hslot | |]; apply Z.div_pos; lia. }
    rewrite (Z.div_mod (pc_of snap) 8), (Z.div_mod a 8) by lia. lia.
  - intros ->. reflexivity.
Qed.

(** X8: After a load into a fresh session the two maps mirror each other:
    the slot of address [a] counts as many branches to [b] as the slot of
    address [b] counts branches from [a], for all instruction-pair
    addresses [a] and [b]. *)
Theorem parse_trace_branches_mirror app trace memory0 program0 app' :
  defs_ok -> instructions app = [] ->
  parse_trace app trace memory0 program0 = Done app' ->
  forall a b,
    0 <= a -> a mod INSN_PAIR_SIZE = 0 -> 0 <= b -> b mod INSN_PAIR_SIZE = 0 ->
    branch_to_count (instructions app') (Z.to_nat (a / INSN_PAIR_SIZE)) b
    = branch_from_count (instructions app') (Z.to_nat (b / INSN_PAIR_SIZE)) a.
Proof.
  intros Hdefs Hfresh H a b Ha Hamod Hb Hbmod.
  destruct (parse_trace_agrees _ _ _ _ _ Hdefs Hfresh H) as (Hinv & Hagree & Hpcs).
  rewrite Forall_forall in Hpcs.
  assert (count_adjacent (branch_out (Z.to_nat (a / INSN_PAIR_SIZE)) b) (snapshots app')
          = count_adjacent (branch_in (Z.to_nat (b / INSN_PAIR_SIZE)) a) (snapshots app'))
    as Hsame.
  { apply count_adjacent_ext. intros prev next Hp Hn.
    unfold branch_out, branch_in.
    destruct (branch prev next); cbn [andb]; [| reflexivity].
    pose proof (slot_of_address prev a (Hpcs prev Hp) Ha Hamod) as Hprev.
    pose proof (slot_of_address next b (Hpcs next Hn) Hb Hbmod) as Hnext.
    destruct (bool_decide_reflect (slot_of prev = Z.to_nat (a / INSN_PAIR_SIZE)));
      destruct (bool_decide_reflect (pc_of next = b));
      destruct (bool_decide_reflect (slot_of next = Z.to_nat (b / INSN_PAIR_SIZE)));
      destruct (bool_decide_reflect (pc_of prev = a)); cbn [andb];
      try reflexivity; tauto. }
  assert (forall slot key instrs,
            (forall i, instrs !! slot = Some i ->
               default 0 (branch_to_times i !! key)
               = to_size_t (Z.of_nat (count_adjacent (branch_out slot key) (snapshots app')))) ->
            (instrs !! slot = None ->
               count_adjacent (branch_out slot key) (snapshots app') = 0%nat) ->
            branch_to_count instrs slot key
            = to_size_t (Z.of_nat (count_adjacent (branch_out slot key) (snapshots app'))))
    as Hto.
  { intros slot key instrs Hsome Hnone. unfold branch_to_count.
    destruct (instrs !! slot) as [i |]; [apply Hsome; reflexivity |].
    rewrite Hnone by reflexivity. reflexivity. }
  assert (forall slot key instrs,
            (forall i, instrs !! slot = Some i ->
               default 0 (branch_from_times i !! key)
               = to_size_t (Z.of_nat (count_adjacent (branch_in slot key) (snapshots app')))) ->
            (instrs !! slot = None ->
               count_adjacent (branch_in slot key) (snapshots app') = 0%nat) ->
            branch_from_count instrs slot key
            = to_size_t (Z.of_nat (count_adjacent (branch_in slot key) (snapshots app'))))
    as Hfrom.
  { intros slot key instrs Hsome Hnone. unfold branch_from_count.
    destruct (instrs !! slot) as [i |]; [apply Hsome; reflexivity |].
    rewrite Hnone by reflexivity. reflexivity. }
  assert (forall slot snap, instructions app' !! slot = None ->
            snap ∈ snapshots app' -> slot_of snap <> slot) as Hother.
  { intros slot snap Hnone Hin Hslot. apply lookup_ge_None in Hnone.
    destruct (Hpcs snap Hin) as [Hpc _].
    pose proof (table_covers app' (pc_of snap) Hdefs Hinv Hpc) as Hcov.
    unfold slot_of in Hslot. lia. }
  rewrite Hto, Hfrom, Hsame; [reflexivity | | | |].
  - intros i Hi. apply (Hagree _ i Hi).
  - intros Hnone. apply count_adjacent_none. intros prev next Hp Hn.
    unfold branch_in.
    rewrite (bool_decide_eq_false_2 (slot_of next = _)) by (apply Hother; auto).
    rewrite andb_false_r. reflexivity.
  - intros i Hi. apply (Hagree _ i Hi).
  - intros Hnone. apply count_adjacent_none. intros prev next Hp Hn.
    unfold branch_out.
    rewrite (bool_decide_eq_false_2 (slot_of prev = _)) by (apply Hother; auto).
    rewrite andb_false_r. reflexivity.
Qed.

(** X9: A memory patch below the bound replaces the four bytes from its
    address on by the four bytes of the packet and nothing else: the
    memory image keeps its length and every byte outside the four, and
    registers, program memory, access records and session are as
    before. *)
Theorem patch_memory_narrow version address data rest app current :
  let a := le_value address in
  length address = 2%nat -> length data = 4%nat ->
  a < VU1_MEMSIZE - 4 ->
  length (memory current) = Z.to_nat VU1_MEMSIZE ->
  exists current',
    packet_step version "m" (address ++ data ++ rest) app current
      = Done (app, current', rest)
    /\ registers current' = registers current
    /\ program current' = program current
    /\ read_addr current' = read_addr current
    /\ read_size current' = read_size current
    /\ write_addr current' = write_addr current
    /\ write_size current' = write_size current
    /\ length (memory current') = length (memory current)
    /\ (forall k, (k < 4)%nat ->
          memory current' !! (Z.to_nat a + k)%nat = data !! k)
    /\ (forall j, (j < Z.to_nat a \/ Z.to_nat a + 4 <= j)%nat ->
          memory current' !! j = memory current !! j).
Proof.
  intros a Haddress Hdata Hbound Hmem.
  pose proof (le_value_bounds address) as Ha. fold a in Ha.
  rewrite patch_memory_step by assumption. fold a.
  destruct (Z.ltb_spec a (VU1_MEMSIZE - 4)); [| lia].
  eexists. split; [reflexivity |]. cbn.
  repeat (split; [reflexivity |]).
  split; [apply length_inserts |]. split.
  - intros k Hk. rewrite list_lookup_inserts by lia. f_equal. lia.
  - intros j [Hj | Hj].
    + apply list_lookup_inserts_lt. exact Hj.
    + apply list_lookup_inserts_ge. lia.
Qed.

End Branches.

(** ** Navigation: what a search can do to the session *)

Section Searches.
Context `{defs : Pcsx2Defs}.

Lemma walk_pc_loop_found app target_pc step fuel snapshot j :
  walk_pc_loop fuel app target_pc step snapshot = Done (Some j) ->
  0 <= j < size (snapshots app) /\ pc_at app j = Some target_pc.
Proof.
  revert snapshot. induction fuel as [| fuel IH]; intros snapshot H; [discriminate H |].
  cbn [walk_pc_loop] in H.
  destruct ((- step >? to_int snapshot)
            || (to_size_t (snapshot + step) >=? size (snapshots app)));
    [discriminate H |].
  bind_inv H. apply at_index_Done in E as [Hrange Hlook].
  destruct (Z.eqb_spec (pc_of a) target_pc) as [Hpc | Hpc]; cbn [negb] in H.
  - injection H as <-. split; [exact Hrange |].
    unfold pc_at. rewrite Hlook. cbn. congruence.
  - eauto.
Qed.

(** X10: Whatever the step and however long the search runs, a search by
    program counter that returns true has put the cursor on a snapshot of
    the store whose program counter is the target, and one that returns
    false has left the session as it was; the store and the instruction
    table are the same afterwards in both cases. *)
Theorem walk_until_pc_equal_sound fuel app target_pc step moved app' :
  walk_until_pc_equal fuel app target_pc step = Done (moved, app') ->
  snapshots app' = snapshots app /\ instructions app' = instructions app
  /\ (moved = true ->
      0 <= current_snapshot app' < size (snapshots app)
      /\ pc_at app (current_snapshot app') = Some target_pc
      /\ snapshots_scroll_to app' = true
      /\ disassembly_scroll_to app' = disassembly_scroll_to app)
  /\ (moved = false -> app' = app).
Proof.
  unfold walk_until_pc_equal. intros H. bind_inv H.
  destruct a as [j |]; injection H as <- <-.
  - apply walk_pc_loop_found in E as [Hrange Hpc]. cbn.
    split; [reflexivity |]. split; [reflexivity |].
    split; [intros _; repeat split; auto; lia | intros [=]].
  - split; [reflexivity |]. split; [reflexivity |].
    split; [intros [=] | reflexivity].
Qed.

Lemma walk_mem_loop_result fuel app address snapshot_index visited app' :
  walk_mem_loop fuel app address snapshot_index = (visited, Done app') ->
  Forall (fun i => 0 <= i < size (snapshots app)) visited
  /\ (app' = app
      \/ exists j, 1 <= j < size (snapshots app)
                   /\ accessed_at app address j = true
                   /\ app' = land_before app j).
Proof.
  revert snapshot_index visited.
  induction fuel as [| fuel IH]; intros snapshot_index visited H; [discriminate H |].
  cbn [walk_mem_loop] in H.
  destruct (size (snapshots app) =? 0); [discriminate H |].
  set (idx := to_size_t (snapshot_index + 1) mod size (snapshots app)) in H.
  destruct (at_index (snapshots app) idx) as [snap | f] eqn:Hat; [| discriminate H].
  apply at_index_Done in Hat as [Hrange Hlook].
  destruct (accesses snap address) eqn:Hacc.
  - injection H as <- <-. split; [repeat constructor; lia |].
    destruct (Z.geb_spec idx 1); [| auto].
    right. exists idx. split; [lia |].
    split; [rewrite (accessed_at_lookup _ _ _ _ Hlook); exact Hacc | reflexivity].
  - destruct (negb (idx =? current_snapshot app)).
    + destruct (walk_mem_loop fuel app address idx) as [visited1 r] eqn:Hrec.
      injection H as <- ->.
      apply IH in Hrec as [Hall Hres]. split; [constructor; [lia | exact Hall] | exact Hres].
    + injection H as <- <-. split; [repeat constructor; lia | auto].
Qed.

(** X11: Whatever the state and however long the search runs, a search by
    memory access that returns reads the store only at its own indices
    and either leaves the session as it was or puts the cursor right
    before a snapshot that records an access to the block of the address,
    raising both scroll flags; it never changes the store or the
    instruction table. *)
Theorem walk_until_mem_access_sound fuel app address visited app' :
  walk_until_mem_access fuel app address = (visited, Done app') ->
  Forall (fun i => 0 <= i < size (snapshots app)) visited
  /\ snapshots app' = snapshots app /\ instructions app' = instructions app
  /\ (app' = app
      \/ (0 <= current_snapshot app'
          /\ current_snapshot app' + 1 < size (snapshots app)
          /\ accessed_at app address (current_snapshot app' + 1) = true
          /\ snapshots_scroll_to app' = true
          /\ disassembly_scroll_to app' = true)).
Proof.
  unfold walk_until_mem_access. intros H.
  apply walk_mem_loop_result in H as [Hall [-> | (j & Hj & Hacc & ->)]].
  - auto.
  - split; [exact Hall |]. cbn. split; [reflexivity |]. split; [reflexivity |].
    right. replace (j - 1 + 1) with j by lia. repeat split; auto; lia.
Qed.

End Searches.

(** ** Navigation: the cursor under keys and clicks *)

Section Cursor.
Context `{defs : Pcsx2Defs}.

Ltac settle :=
  unfold navigable in *; repeat split; first [reflexivity | assumption | lia].

Lemma walk_until_pc_equal_navigable fuel app target_pc step :
  navigable app -> step = 1 \/ step = -1 ->
  size (snapshots app) < Z.of_nat fuel ->
  exists moved app',
    walk_until_pc_equal fuel app target_pc step = Done (moved, app')
    /\ navigable app' /\ snapshots app' = snapshots app
    /\ instructions app' = instructions app.
Proof.
  intros [Hcur Hn] Hstep Hfuel. unfold walk_until_pc_equal.
  destruct Hstep as [-> | ->].
  - pose proof (walk_pc_loop_forward app target_pc fuel (current_snapshot app)) as Hw.
    cbv zeta in Hw.
    destruct Hw as [(j & Hj & _ & _ & ->) | [_ ->]]; [lia | exact Hn | lia | |].
    + exists true, (set_cursor app j). unfold navigable. cbn. settle.
    + exists false, app. unfold navigable. cbn. settle.
  - pose proof (walk_pc_loop_backward app target_pc fuel (current_snapshot app)) as Hw.
    cbv zeta in Hw.
    destruct Hw as [(j & Hj & _ & _ & ->) | [_ ->]]; [lia | exact Hn | lia | |].
    + exists true, (set_cursor app j). unfold navigable. cbn. settle.
    + exists false, app. unfold navigable. cbn. settle.
Qed.

Lemma handle_keys_navigable fuel key_w key_s key_a key_d app :
  navigable app -> size (snapshots app) < Z.of_nat fuel ->
  exists app',
    handle_keys fuel key_w key_s key_a key_d app = Done app'
    /\ navigable app' /\ snapshots app' = snapshots app
    /\ instructions app' = instructions app.
Proof.
  intros Hnav Hfuel. unfold handle_keys.
  set (app1 := if key_w && _ then _ else app).
  assert (H1 : navigable app1 /\ snapshots app1 = snapshots app
               /\ instructions app1 = instructions app).
  { subst app1. destruct Hnav as [Hcur Hn].
    destruct key_w; cbn [andb]; [| unfold navigable; settle].
    destruct (Z.gtb_spec (current_snapshot app) 0); [| unfold navigable; settle].
    rewrite to_size_t_small by lia. unfold navigable. cbn. settle. }
  clearbody app1. destruct H1 as (Hnav1 & Hs1 & Hi1). rewrite <- Hs1 in Hfuel.
  rewrite <- Hs1, <- Hi1. clear app Hnav Hs1 Hi1. cbv zeta.
  set (app2 := if key_s && _ then _ else app1).
  assert (H2 : navigable app2 /\ snapshots app2 = snapshots app1
               /\ instructions app2 = instructions app1).
  { subst app2. destruct Hnav1 as [Hcur Hn].
    destruct key_s; cbn [andb]; [| unfold navigable; settle].
    rewrite (to_size_t_small (size (snapshots app1) - 1)) by lia.
    destruct (Z.ltb_spec (current_snapshot app1) (size (snapshots app1) - 1));
      [| unfold navigable; settle].
    rewrite to_size_t_small by lia. unfold navigable. cbn. settle. }
  clearbody app2. destruct H2 as (Hnav2 & Hs2 & Hi2). rewrite <- Hs2 in Hfuel.
  rewrite <- Hs2, <- Hi2. clear app1 Hnav1 Hs2 Hi2.
  destruct (at_index_in_range (snapshots app2) (current_snapshot app2))
    as (current & -> & _); [apply Hnav2 |].
  cbn [mbind outcome_bind bind].
  assert (H3 : exists moved app3,
    (if key_a then walk_until_pc_equal fuel app2 (pc_of current) (-1)
     else Done (false, app2)) = Done (moved, app3)
    /\ navigable app3 /\ snapshots app3 = snapshots app2
    /\ instructions app3 = instructions app2).
  { destruct key_a.
    - apply walk_until_pc_equal_navigable; auto.
    - exists false, app2. settle. }
  destruct H3 as (moved3 & app3 & -> & Hnav3 & Hs3 & Hi3).
  cbn [mbind outcome_bind bind]. rewrite <- Hs3 in Hfuel. rewrite <- Hs3, <- Hi3.
  destruct key_d.
  - destruct (walk_until_pc_equal_navigable fuel app3 (pc_of current) 1 Hnav3)
      as (moved4 & app4 & -> & Hnav4 & Hs4 & Hi4); auto.
    cbn [mbind outcome_bind bind]. exists app4. settle.
  - cbn [mbind outcome_bind bind]. exists app3. settle.
Qed.

Lemma click_instruction_navigable fuel current app i :
  navigable app -> size (snapshots app) < Z.of_nat fuel ->
  exists app',
    click_instruction fuel current app i = Done app'
    /\ navigable app' /\ snapshots app' = snapshots app
    /\ instructions app' = instructions app.
Proof.
  intros Hnav Hfuel. unfold click_instruction.
  assert (H : forall first second, first = 1 \/ first = -1 ->
            second = 1 \/ second = -1 ->
            exists moved app',
              ('(pc_changed, app1) ← walk_until_pc_equal fuel app i first;
               if negb pc_changed then walk_until_pc_equal fuel app1 i second
               else Done (pc_changed, app1)) = Done (moved, app')
              /\ navigable app' /\ snapshots app' = snapshots app
              /\ instructions app' = instructions app).
  { intros first second Hfirst Hsecond.
    destruct (walk_until_pc_equal_navigable fuel app i first Hnav Hfirst Hfuel)
      as (moved1 & app1 & -> & Hnav1 & Hs1 & Hi1).
    cbn [mbind outcome_bind bind].
    destruct moved1; cbn [negb]; [exists true, app1; settle |].
    rewrite <- Hs1 in Hfuel. rewrite <- Hs1, <- Hi1.
    apply walk_until_pc_equal_navigable; auto. }
  assert (H' : exists moved app',
            (if pc_of current >? i then
               '(pc_changed, app1) ← walk_until_pc_equal fuel app i (-1);
               if negb pc_changed then walk_until_pc_equal fuel app1 i 1
               else Done (pc_changed, app1)
             else
               '(pc_changed, app1) ← walk_until_pc_equal fuel app i 1;
               if negb pc_changed then walk_until_pc_equal fuel app1 i (-1)
               else Done (pc_changed, app1)) = Done (moved, app')
            /\ navigable app' /\ snapshots app' = snapshots app
            /\ instructions app' = instructions app).
  { destruct (pc_of current >? i); apply H; auto. }
  destruct H' as (moved & app' & -> & Hnav' & Hs' & Hi').
  cbn [mbind outcome_bind bind].
  destruct moved; [| exists app'; settle].
  exists (set_disassembly_scroll_to app'). unfold navigable in *. cbn. settle.
Qed.

Lemma at_index_past {A} (v : list A) i :
  size v <= i -> at_index v i = Fail OutOfBounds.
Proof.
  intros Hi. unfold at_index.
  destruct (Z.ltb_spec i (size v)); [lia |]. rewrite andb_false_r. reflexivity.
Qed.

Lemma disassembly_row_navigable fuel current clicked app i :
  navigable app -> size (snapshots app) < Z.of_nat fuel ->
  row_readable (instructions app) i ->
  exists app',
    disassembly_row fuel current clicked app i = Done app'
    /\ navigable app' /\ snapshots app' = snapshots app
    /\ instructions app' = instructions app.
Proof.
  intros Hnav Hfuel (Hi & Hslot & Hnext). unfold disassembly_row.
  change INSN_PAIR_SIZE with 8.
  destruct (at_index_in_range (instructions app) (i / 8))
    as (instruction & -> & Hlook); [split; [apply Z.div_pos; lia | exact Hslot] |].
  cbn [mbind outcome_bind bind].
  assert (Hread : exists next,
            (if bool_decide (branch_from_times instruction <> ∅)
             then at_index (instructions app) (i / 8 + 1)
             else Done instruction) = Done next).
  { destruct (bool_decide_reflect (branch_from_times instruction <> ∅)) as [Hfrom |].
    - destruct (at_index_in_range (instructions app) (i / 8 + 1)) as (next & -> & _);
        [| eauto].
      split; [pose proof (Z.div_pos i 8); lia | apply (Hnext instruction); assumption].
    - eauto. }
  destruct Hread as (next & ->). cbn [mbind outcome_bind bind]. cbv zeta.
  set (app1 := if (pc_of current =? i) && disassembly_scroll_to app
               then clear_disassembly_scroll_to app else app).
  assert (H1 : navigable app1 /\ snapshots app1 = snapshots app
               /\ instructions app1 = instructions app).
  { subst app1. destruct ((pc_of current =? i) && disassembly_scroll_to app);
      unfold navigable in *; cbn; settle. }
  clearbody app1. destruct H1 as (Hnav1 & Hs1 & Hi1).
  rewrite <- Hs1 in Hfuel. rewrite <- Hs1, <- Hi1.
  destruct (negb (pc_of current =? i) && clicked i).
  - apply click_instruction_navigable; assumption.
  - exists app1. settle.
Qed.

Lemma disassembly_rows_navigable fuel current clicked rows app :
  navigable app -> size (snapshots app) < Z.of_nat fuel ->
  Forall (row_readable (instructions app)) rows ->
  exists app',
    disassembly_rows fuel current clicked app rows = Done app'
    /\ navigable app' /\ snapshots app' = snapshots app
    /\ instructions app' = instructions app.
Proof.
  revert app. induction rows as [| i rows IH]; intros app Hnav Hfuel Hrows;
    cbn [disassembly_rows].
  - exists app. settle.
  - inversion Hrows as [| ? ? Hrow Hrest]; subst.
    destruct (disassembly_row_navigable fuel current clicked app i Hnav Hfuel Hrow)
      as (app1 & -> & Hnav1 & Hs1 & Hi1).
    cbn [mbind outcome_bind bind]. rewrite <- Hs1, <- Hi1.
    apply IH; [exact Hnav1 | rewrite Hs1; exact Hfuel | rewrite Hi1; exact Hrest].
Qed.

Lemma disassembly_rows_app fuel current clicked rows1 rows2 app :
  disassembly_rows fuel current clicked app (rows1 ++ rows2)
  = (app1 ← disassembly_rows fuel current clicked app rows1;
     disassembly_rows fuel current clicked app1 rows2).
Proof.
  revert app. induction rows1 as [| i rows1 IH]; intros app; [reflexivity |].
  cbn [Datatypes.app disassembly_rows].
  destruct (disassembly_row fuel current clicked app i) as [app1 | f];
    cbn [mbind outcome_bind bind]; [apply IH | reflexivity].
Qed.

Lemma row_count : defs_ok ->
  (VU1_PROGSIZE + INSN_PAIR_SIZE - 1) / INSN_PAIR_SIZE = VU1_PROGSIZE / INSN_PAIR_SIZE
  /\ 0 <= VU1_PROGSIZE / INSN_PAIR_SIZE
  /\ VU1_PROGSIZE = VU1_PROGSIZE / INSN_PAIR_SIZE * 8.
Proof.
  intros [Hnonneg Hwhole _]. unfold INSN_PAIR_SIZE in *.
  Z.div_mod_to_equations. lia.
Qed.

Lemma row_addresses_readable table :
  defs_ok -> size table = VU1_PROGSIZE / INSN_PAIR_SIZE ->
  (forall instruction, last table = Some instruction ->
     branch_from_times instruction = ∅) ->
  Forall (row_readable table) row_addresses.
Proof.
  intros Hdefs Hsize Hquiet. destruct (row_count Hdefs) as (Hcount & Hrows & _).
  unfold row_addresses. rewrite Hcount, <- Hsize. unfold size. rewrite Nat2Z.id.
  apply Forall_forall. intros i Hin.
  apply list_elem_of_fmap in Hin as (k & -> & Hk).
  apply elem_of_seq in Hk. change INSN_PAIR_SIZE with 8.
  unfold row_readable, size. rewrite Z.div_mul by lia.
  split; [lia |]. split; [lia |].
  intros instruction Hlook Hfrom. rewrite Nat2Z.id in Hlook.
  destruct (decide (S k = length table)) as [Hlast | Hother]; [| lia].
  exfalso. apply Hfrom, Hquiet. rewrite last_lookup, <- Hlast. exact Hlook.
Qed.

Lemma disassembly_window_navigable fuel clicked app :
  defs_ok -> navigable app -> size (snapshots app) < Z.of_nat fuel ->
  size (instructions app) = VU1_PROGSIZE / INSN_PAIR_SIZE ->
  (forall instruction, last (instructions app) = Some instruction ->
     branch_from_times instruction = ∅) ->
  exists app',
    disassembly_window fuel clicked app = Done app'
    /\ navigable app' /\ snapshots app' = snapshots app
    /\ instructions app' = instructions app.
Proof.
  intros Hdefs Hnav Hfuel Hsize Hquiet. unfold disassembly_window.
  destruct (at_index_in_range (snapshots app) (current_snapshot app))
    as (current & -> & _); [apply Hnav |].
  cbn [mbind outcome_bind bind].
  apply disassembly_rows_navigable; [exact Hnav | exact Hfuel |].
  apply row_addresses_readable; assumption.
Qed.

Lemma disassembly_window_overrun fuel clicked app instruction :
  defs_ok -> navigable app -> size (snapshots app) < Z.of_nat fuel ->
  size (instructions app) = VU1_PROGSIZE / INSN_PAIR_SIZE ->
  last (instructions app) = Some instruction ->
  branch_from_times instruction <> ∅ ->
  disassembly_window fuel clicked app = Fail OutOfBounds.
Proof.
  intros Hdefs Hnav Hfuel Hsize Hlast Hfrom. unfold disassembly_window.
  destruct (at_index_in_range (snapshots app) (current_snapshot app))
    as (current & -> & _); [apply Hnav |].
  cbn [mbind outcome_bind bind].
  destruct (row_count Hdefs) as (Hcount & _ & _).
  unfold row_addresses. rewrite Hcount, <- Hsize. unfold size. rewrite Nat2Z.id.
  rewrite last_lookup in Hlast.
  destruct (length (instructions app)) as [| slots] eqn:Hslots;
    [destruct (instructions app); discriminate |].
  cbn [pred] in Hlast. rewrite seq_S, map_app, disassembly_rows_app. cbn [map].
  destruct (disassembly_rows_navigable fuel current clicked
              (map (fun k => Z.of_nat k * INSN_PAIR_SIZE) (seq 0 slots)) app Hnav Hfuel)
    as (app1 & -> & _ & _ & Htable).
  { apply Forall_forall. intros i Hin.
    apply list_elem_of_fmap in Hin as (k & -> & Hk).
    apply elem_of_seq in Hk. change INSN_PAIR_SIZE with 8.
    unfold row_readable, size. rewrite !Z.div_mul by lia. rewrite Hslots.
    split; [lia |]. split; [lia |]. intros; lia. }
  cbn [mbind outcome_bind bind disassembly_rows]. unfold disassembly_row.
  rewrite Htable. change INSN_PAIR_SIZE with 8. rewrite Z.div_mul by lia.
  cbn [Nat.add] in Hlast |- *.
  destruct (at_index_in_range (instructions app) (Z.of_nat slots))
    as (instruction' & -> & Hlook); [unfold size; lia |].
  rewrite Nat2Z.id in Hlook. assert (instruction' = instruction) as -> by congruence.
  cbn [mbind outcome_bind bind]. rewrite bool_decide_true by exact Hfrom.
  rewrite at_index_past by (unfold size; lia). reflexivity.
Qed.

Lemma walk_until_mem_access_navigable fuel app address :
  navigable app -> size (snapshots app) < Z.of_nat fuel ->
  exists app',
    (walk_until_mem_access fuel app address).2 = Done app'
    /\ navigable app' /\ snapshots app' = snapshots app
    /\ instructions app' = instructions app.
Proof.
  intros [Hcur Hn] Hfuel.
  pose proof (walk_until_mem_access_scan app address fuel) as Hscan.
  cbv zeta in Hscan.
  destruct Hscan as (visited & Hwalk & _); [lia | lia | lia |].
  pose proof Hwalk as Hres. unfold walk_until_mem_access in Hres.
  apply walk_mem_loop_result in Hres as [_ Hres].
  rewrite Hwalk. cbn [snd]. eexists. split; [reflexivity |].
  destruct Hres as [-> | (j & Hj & _ & ->)]; unfold navigable; cbn; settle.
Qed.

Lemma offered_store app app' e :
  snapshots app' = snapshots app -> offered app e -> offered app' e.
Proof. intros Hs. destruct e; cbn; rewrite ?Hs; auto. Qed.

Lemma react_navigable fuel e app :
  defs_ok -> navigable app -> size (snapshots app) < Z.of_nat fuel ->
  size (instructions app) = VU1_PROGSIZE / INSN_PAIR_SIZE ->
  (forall instruction, last (instructions app) = Some instruction ->
     branch_from_times instruction = ∅) ->
  offered app e ->
  exists app',
    react fuel e app = Done app'
    /\ navigable app' /\ snapshots app' = snapshots app
    /\ instructions app' = instructions app.
Proof.
  intros Hdefs Hnav Hfuel Hsize Hquiet He.
  destruct e as [w s a d | forward | i | clicked | address]; cbn [react].
  - apply handle_keys_navigable; assumption.
  - unfold iterate.
    destruct (at_index_in_range (snapshots app) (current_snapshot app))
      as (current & -> & _); [apply Hnav |].
    cbn [mbind outcome_bind bind].
    destruct (walk_until_pc_equal_navigable fuel app (pc_of current)
                (if forward then 1 else -1) Hnav)
      as (moved & app' & -> & Hnav' & Hs' & Hi');
      [destruct forward; auto | exact Hfuel |].
    cbn [mbind outcome_bind bind]. exists app'. settle.
  - cbn in He. unfold select_snapshot.
    destruct (at_index_in_range (snapshots app) i He) as (snap & -> & _).
    cbn [mbind outcome_bind bind]. eexists. split; [reflexivity |].
    destruct Hnav. unfold navigable. cbn. settle.
  - apply disassembly_window_navigable; assumption.
  - apply walk_until_mem_access_navigable; assumption.
Qed.

(** X12: In a session whose cursor is an index of the store and whose
    table has one slot per instruction pair: if the last slot has no
    entry in [branch_from_times], then however the user presses W, S, A
    and D and clicks the iteration buttons, rows of the snapshot list,
    rows of the disassembly and bytes of the memory view, every reaction
    returns, the cursor stays an index of the store, and neither the
    store nor the instruction table changes; if the last slot has such an
    entry, the row loop of the disassembly window reads the table one
    slot past its end, whatever is clicked. *)
Theorem react_all_navigable fuel es app :
  defs_ok -> navigable app -> size (snapshots app) < Z.of_nat fuel ->
  size (instructions app) = VU1_PROGSIZE / INSN_PAIR_SIZE ->
  Forall (offered app) es ->
  ((forall instruction, last (instructions app) = Some instruction ->
      branch_from_times instruction = ∅) ->
   exists app',
     react_all fuel es app = Done app'
     /\ 0 <= current_snapshot app' < size (snapshots app)
     /\ snapshots app' = snapshots app
     /\ instructions app' = instructions app)
  /\ (forall instruction clicked,
        last (instructions app) = Some instruction ->
        branch_from_times instruction <> ∅ ->
        react fuel (Disassembly clicked) app = Fail OutOfBounds).
Proof.
  intros Hdefs Hnav Hfuel Hsize Hes. split.
  - intros Hquiet.
    assert (H : exists app',
              react_all fuel es app = Done app'
              /\ navigable app' /\ snapshots app' = snapshots app
              /\ instructions app' = instructions app).
    { revert app Hnav Hfuel Hsize Hes Hquiet.
      induction es as [| e es IH]; intros app Hnav Hfuel Hsize Hes Hquiet;
        cbn [react_all].
      - exists app. settle.
      - inversion Hes as [| ? ? He Hrest]; subst.
        destruct (react_navigable fuel e app Hdefs Hnav Hfuel Hsize Hquiet He)
          as (app1 & -> & Hnav1 & Hs1 & Hi1).
        cbn [mbind outcome_bind bind]. rewrite <- Hs1, <- Hi1.
        apply IH; [exact Hnav1 | rewrite Hs1; exact Hfuel
                  | rewrite Hi1; exact Hsize | | rewrite Hi1; exact Hquiet].
        eapply Forall_impl; [exact Hrest |].
        intros e'. apply offered_store. exact Hs1. }
    destruct H as (app' & Hrun & [Hcursor _] & Hstore & Htable).
    exists app'. rewrite Hstore in Hcursor. auto.
  - intros instruction clicked Hlast Hfrom. cbn [react].
    apply (disassembly_window_overrun fuel clicked app instruction); assumption.
Qed.

End Cursor.

(** ** Navigation: where a click on an instruction and the A and D keys land *)

Section Landing.
Context `{defs : Pcsx2Defs}.

Lemma search_forward fuel app target_pc :
  navigable app -> size (snapshots app) < Z.of_nat fuel ->
  (exists j, current_snapshot app < j < size (snapshots app)
     /\ pc_at app j = Some target_pc
     /\ (forall m, current_snapshot app < m < j -> pc_at app m <> Some target_pc)
     /\ walk_until_pc_equal fuel app target_pc 1 = Done (true, set_cursor app j))
  \/ ((forall m, current_snapshot app < m < size (snapshots app) ->
         pc_at app m <> Some target_pc)
      /\ walk_until_pc_equal fuel app target_pc 1 = Done (false, app)).
Proof.
  intros [Hcur Hn] Hfuel. unfold walk_until_pc_equal.
  pose proof (walk_pc_loop_forward app target_pc fuel (current_snapshot app)) as Hw.
  cbv zeta in Hw.
  destruct Hw as [(j & Hj & Hpc & Hmin & ->) | [Hnone ->]]; [lia | exact Hn | lia | |].
  - left. exists j. auto.
  - right. auto.
Qed.

Lemma search_backward fuel app target_pc :
  navigable app -> size (snapshots app) < Z.of_nat fuel ->
  (exists j, 0 <= j < current_snapshot app
     /\ pc_at app j = Some target_pc
     /\ (forall m, j < m < current_snapshot app -> pc_at app m <> Some target_pc)
     /\ walk_until_pc_equal fuel app target_pc (-1) = Done (true, set_cursor app j))
  \/ ((forall m, 0 <= m < current_snapshot app -> pc_at app m <> Some target_pc)
      /\ walk_until_pc_equal fuel app target_pc (-1) = Done (false, app)).
Proof.
  intros [Hcur Hn] Hfuel. unfold walk_until_pc_equal.
  pose proof (walk_pc_loop_backward app target_pc fuel (current_snapshot app)) as Hw.
  cbv zeta in Hw.
  destruct Hw as [(j & Hj & Hpc & Hmin & ->) | [Hnone ->]]; [lia | exact Hn | lia | |].
  - left. exists j. auto.
  - right. auto.
Qed.

Lemma pc_at_store app app' j :
  snapshots app' = snapshots app -> pc_at app' j = pc_at app j.
Proof. intros Hs. unfold pc_at. rewrite Hs. reflexivity. Qed.

Lemma click_instruction_lands fuel current app i :
  navigable app -> size (snapshots app) < Z.of_nat fuel ->
  pc_at app (current_snapshot app) = Some (pc_of current) ->
  pc_of current <> i ->
  (exists j,
      click_instruction fuel current app i
      = Done (set_disassembly_scroll_to (set_cursor app j))
      /\ 0 <= j < size (snapshots app) /\ pc_at app j = Some i
      /\ (forall m, j < m < current_snapshot app \/ current_snapshot app < m < j ->
            pc_at app m <> Some i)
      /\ (j < current_snapshot app ->
          i < pc_of current
          \/ forall m, current_snapshot app < m < size (snapshots app) ->
               pc_at app m <> Some i)
      /\ (current_snapshot app < j ->
          pc_of current < i
          \/ forall m, 0 <= m < current_snapshot app -> pc_at app m <> Some i))
  \/ (click_instruction fuel current app i = Done app
      /\ forall m, 0 <= m < size (snapshots app) -> pc_at app m <> Some i).
Proof.
  intros Hnav Hfuel Hpc Hne. unfold click_instruction.
  assert (Hhere : pc_at app (current_snapshot app) <> Some i) by congruence.
  destruct (search_backward fuel app i Hnav Hfuel)
    as [(jb & Hjb & Hpcb & Hnearb & Hwb) | (Hnoneb & Hwb)];
  destruct (search_forward fuel app i Hnav Hfuel)
    as [(jf & Hjf & Hpcf & Hnearf & Hwf) | (Hnonef & Hwf)];
  destruct (Z.gtb_spec (pc_of current) i) as [Hside | Hside];
  destruct Hnav as [Hcursor _];
  rewrite ?Hwb, ?Hwf; cbn [mbind outcome_bind bind negb]; rewrite ?Hwb, ?Hwf;
  cbn [mbind outcome_bind bind negb].
  - left. exists jb. split; [reflexivity |]. split; [lia |]. split; [exact Hpcb |].
    split; [intros m [Hm | Hm]; [auto | lia] |]. split; [auto | lia].
  - left. exists jf. split; [reflexivity |]. split; [lia |]. split; [exact Hpcf |].
    split; [intros m [Hm | Hm]; [lia | auto] |]. split; [lia |].
    intros _. left. lia.
  - left. exists jb. split; [reflexivity |]. split; [lia |]. split; [exact Hpcb |].
    split; [intros m [Hm | Hm]; [auto | lia] |]. split; [auto | lia].
  - left. exists jb. split; [reflexivity |]. split; [lia |]. split; [exact Hpcb |].
    split; [intros m [Hm | Hm]; [auto | lia] |]. split; [auto | lia].
  - left. exists jf. split; [reflexivity |]. split; [lia |]. split; [exact Hpcf |].
    split; [intros m [Hm | Hm]; [lia | auto] |]. split; [lia | auto].
  - left. exists jf. split; [reflexivity |]. split; [lia |]. split; [exact Hpcf |].
    split; [intros m [Hm | Hm]; [lia | auto] |]. split; [lia | auto].
  - right. split; [reflexivity |]. intros m Hm.
    destruct (Z.lt_total m (current_snapshot app)) as [Hlt | [-> | Hgt]];
      [apply Hnoneb; lia | exact Hhere | apply Hnonef; lia].
  - right. split; [reflexivity |]. intros m Hm.
    destruct (Z.lt_total m (current_snapshot app)) as [Hlt | [-> | Hgt]];
      [apply Hnoneb; lia | exact Hhere | apply Hnonef; lia].
Qed.

Lemma disassembly_row_reads fuel current clicked app i :
  row_readable (instructions app) i ->
  disassembly_row fuel current clicked app i
  = let app1 := if (pc_of current =? i) && disassembly_scroll_to app
                then clear_disassembly_scroll_to app else app in
    if negb (pc_of current =? i) && clicked i
    then click_instruction fuel current app1 i else Done app1.
Proof.
  intros (Hi & Hslot & Hnext). unfold disassembly_row.
  change INSN_PAIR_SIZE with 8.
  destruct (at_index_in_range (instructions app) (i / 8))
    as (instruction & -> & Hlook); [split; [apply Z.div_pos; lia | exact Hslot] |].
  cbn [mbind outcome_bind bind].
  destruct (bool_decide_reflect (branch_from_times instruction <> ∅)) as [Hfrom |];
    [| reflexivity].
  destruct (at_index_in_range (instructions app) (i / 8 + 1)) as (next & -> & _);
    [| reflexivity].
  split; [pose proof (Z.div_pos i 8); lia | apply (Hnext instruction); assumption].
Qed.

Lemma disassembly_rows_quiet fuel current clicked rows app :
  Forall (row_readable (instructions app)) rows ->
  Forall (fun r => clicked r = false \/ pc_of current = r) rows ->
  disassembly_rows fuel current clicked app rows
  = Done (if disassembly_scroll_to app && bool_decide (pc_of current ∈ rows)
          then clear_disassembly_scroll_to app else app).
Proof.
  revert app. induction rows as [| r rows IH]; intros app Hread Hquiet;
    cbn [disassembly_rows].
  - rewrite andb_false_r. reflexivity.
  - inversion Hread as [| ? ? Hr Hread']; subst.
    inversion Hquiet as [| ? ? Hq Hquiet']; subst.
    rewrite disassembly_row_reads by exact Hr. cbv zeta.
    replace (negb (pc_of current =? r) && clicked r) with false
      by (destruct Hq as [-> | ->]; [apply eq_sym, andb_false_r
                                     | rewrite Z.eqb_refl; reflexivity]).
    cbn [mbind outcome_bind bind].
    destruct (Z.eqb_spec (pc_of current) r) as [Hpc | Hpc]; cbn [andb].
    + rewrite (bool_decide_true (pc_of current ∈ r :: rows))
        by (rewrite Hpc; apply list_elem_of_here).
      destruct (disassembly_scroll_to app) eqn:Hflag; cbn [andb].
      * rewrite IH by assumption. reflexivity.
      * rewrite IH by assumption. rewrite Hflag. reflexivity.
    + rewrite IH by assumption. f_equal.
      destruct (decide (pc_of current ∈ rows)) as [Hin | Hout].
      * rewrite !bool_decide_true; [reflexivity | | exact Hin].
        apply list_elem_of_further, Hin.
      * rewrite !bool_decide_false; [reflexivity | | exact Hout].
        intros Hin. apply elem_of_cons in Hin as [? | ?]; contradiction.
Qed.

Lemma row_addresses_split i :
  defs_ok -> 0 <= i < VU1_PROGSIZE -> i mod INSN_PAIR_SIZE = 0 ->
  exists before after,
    row_addresses = before ++ i :: after
    /\ (forall r, r ∈ before <-> 0 <= r < i /\ r mod INSN_PAIR_SIZE = 0)
    /\ (forall r, r ∈ after <->
                  i < r < VU1_PROGSIZE /\ r mod INSN_PAIR_SIZE = 0).
Proof.
  intros Hdefs Hi Hrow. destruct (row_count Hdefs) as (Hcount & Hrows & Hlast).
  unfold row_addresses. rewrite Hcount.
  set (slots := Z.to_nat (VU1_PROGSIZE / INSN_PAIR_SIZE)).
  set (k := Z.to_nat (i / INSN_PAIR_SIZE)).
  assert (Hk : i = Z.of_nat k * INSN_PAIR_SIZE /\ (k < slots)%nat).
  { subst k slots. unfold INSN_PAIR_SIZE in *. Z.div_mod_to_equations. lia. }
  destruct Hk as [Hik Hk].
  assert (Hslots : Z.of_nat slots * 8 = VU1_PROGSIZE) by (subst slots; lia).
  exists (map (fun k => Z.of_nat k * INSN_PAIR_SIZE) (seq 0 k)),
         (map (fun k => Z.of_nat k * INSN_PAIR_SIZE) (seq (S k) (slots - S k))).
  split.
  - replace slots with (k + S (slots - S k))%nat at 1 by lia.
    rewrite seq_app, map_app. cbn [seq map Nat.add]. rewrite <- Hik. reflexivity.
  - unfold INSN_PAIR_SIZE in *. split; intros r; rewrite list_elem_of_fmap; split.
    + intros (m & -> & Hm). apply elem_of_seq in Hm.
      rewrite Z.mod_mul by lia. lia.
    + intros [Hr Hmod]. exists (Z.to_nat (r / 8)). rewrite elem_of_seq.
      Z.div_mod_to_equations. lia.
    + intros (m & -> & Hm). apply elem_of_seq in Hm.
      rewrite Z.mod_mul by lia. lia.
    + intros [Hr Hmod]. exists (Z.to_nat (r / 8)). rewrite elem_of_seq.
      Z.div_mod_to_equations. lia.
Qed.

(** X13: The disassembly window drawn with a click on the row of the
    instruction at address [i], in a loaded session whose last slot has
    no entry in [branch_from_times].  The store and the table stay as
    they are.  If the current snapshot is at [i], the cursor stays and
    the scroll request is taken.  Else the cursor moves to a snapshot at
    [i] if the store has one, the nearest on its side of the cursor, and
    [snapshots_scroll_to] is raised; the earlier snapshots are searched
    first when [i] lies below the current program counter and the later
    ones when it lies above.  The window was entered with the snapshot
    before the move, and its row further down takes the scroll request
    the move raises: [disassembly_scroll_to] is left raised exactly when
    [i] lies above the program counter of that snapshot.  If the store
    has no snapshot at [i], the cursor stays and the scroll request is
    taken. *)
Theorem click_instruction_finds fuel app i pc :
  defs_ok -> navigable app -> size (snapshots app) < Z.of_nat fuel ->
  size (instructions app) = VU1_PROGSIZE / INSN_PAIR_SIZE ->
  (forall instruction, last (instructions app) = Some instruction ->
     branch_from_times instruction = ∅) ->
  pc_at app (current_snapshot app) = Some pc ->
  pc < VU1_PROGSIZE -> pc mod INSN_PAIR_SIZE = 0 ->
  0 <= i < VU1_PROGSIZE -> i mod INSN_PAIR_SIZE = 0 ->
  let cursor := current_snapshot app in
  let n := size (snapshots app) in
  exists app',
    disassembly_window fuel (fun r => bool_decide (r = i)) app = Done app'
    /\ snapshots app' = snapshots app /\ instructions app' = instructions app
    /\ (pc = i ->
        current_snapshot app' = cursor
        /\ snapshots_scroll_to app' = snapshots_scroll_to app
        /\ disassembly_scroll_to app' = false)
    /\ (pc <> i ->
        (exists j,
            0 <= j < n /\ pc_at app j = Some i
            /\ (forall m, j < m < cursor \/ cursor < m < j -> pc_at app m <> Some i)
            /\ (j < cursor ->
                i < pc \/ forall m, cursor < m < n -> pc_at app m <> Some i)
            /\ (cursor < j ->
                pc < i \/ forall m, 0 <= m < cursor -> pc_at app m <> Some i)
            /\ current_snapshot app' = j
            /\ snapshots_scroll_to app' = true
            /\ disassembly_scroll_to app' = bool_decide (pc < i))
        \/ ((forall m, 0 <= m < n -> pc_at app m <> Some i)
            /\ current_snapshot app' = cursor
            /\ snapshots_scroll_to app' = snapshots_scroll_to app
            /\ disassembly_scroll_to app' = false)).
Proof.
  intros Hdefs Hnav Hfuel Hsize Hquiet Hpc Hpcrow Hpcmod Hi Himod cursor n.
  subst cursor n. unfold disassembly_window.
  destruct (at_index_in_range (snapshots app) (current_snapshot app))
    as (current & -> & Hlook); [apply Hnav |].
  cbn [mbind outcome_bind bind].
  assert (Hcurrent : pc_of current = pc).
  { unfold pc_at in Hpc. rewrite Hlook in Hpc. cbn in Hpc. congruence. }
  pose proof (pc_of_bounds current) as Hpc0. rewrite Hcurrent in Hpc0.
  pose proof (row_addresses_readable (instructions app) Hdefs Hsize Hquiet) as Hread.
  destruct (row_addresses_split i Hdefs Hi Himod)
    as (before & after & Hrows & Hbefore & Hafter).
  rewrite Hrows in Hread |- *.
  apply Forall_app in Hread as [Hread1 Hread2].
  apply Forall_cons in Hread2 as [Hreadi Hread2].
  assert (Hquiet1 : Forall (fun r => bool_decide (r = i) = false \/ pc_of current = r)
                      before).
  { apply Forall_forall. intros r Hr. apply Hbefore in Hr. left.
    apply bool_decide_false. lia. }
  assert (Hquiet2 : Forall (fun r => bool_decide (r = i) = false \/ pc_of current = r)
                      after).
  { apply Forall_forall. intros r Hr. apply Hafter in Hr. left.
    apply bool_decide_false. lia. }
  rewrite disassembly_rows_app, disassembly_rows_quiet by assumption.
  cbn [mbind outcome_bind bind disassembly_rows].
  set (app1 := if disassembly_scroll_to app && bool_decide (pc_of current ∈ before)
               then clear_disassembly_scroll_to app else app).
  assert (H1 : current_snapshot app1 = current_snapshot app
               /\ snapshots app1 = snapshots app
               /\ snapshots_scroll_to app1 = snapshots_scroll_to app
               /\ instructions app1 = instructions app
               /\ disassembly_scroll_to app1
                  = disassembly_scroll_to app && negb (bool_decide (pc < i))).
  { subst app1. rewrite Hcurrent.
    rewrite (bool_decide_ext (pc ∈ before) (pc < i)) by (rewrite Hbefore; lia).
    destruct (disassembly_scroll_to app) eqn:Hflag, (bool_decide (pc < i));
      cbn; rewrite ?Hflag; auto. }
  clearbody app1. destruct H1 as (Hc1 & Hs1 & Hl1 & Hi1 & Hd1).
  assert (Hnav1 : navigable app1) by (unfold navigable in *; rewrite Hc1, Hs1; exact Hnav).
  rewrite disassembly_row_reads by (rewrite Hi1; exact Hreadi). cbv zeta.
  rewrite bool_decide_true by reflexivity. rewrite andb_true_r.
  assert (Hafter_pc : bool_decide (pc_of current ∈ after) = bool_decide (i < pc)).
  { rewrite Hcurrent. apply bool_decide_ext. rewrite Hafter. lia. }
  destruct (Z.eqb_spec (pc_of current) i) as [Heq | Hne]; cbn [negb andb].
  - cbn [mbind outcome_bind bind].
    rewrite disassembly_rows_quiet;
      [| destruct (disassembly_scroll_to app1); cbn; rewrite ?Hi1; exact Hread2
       | exact Hquiet2].
    eexists. split; [reflexivity |].
    assert (Hpci : pc = i) by congruence.
    rewrite Hafter_pc, (bool_decide_false (i < pc)) by lia. rewrite andb_false_r.
    rewrite (bool_decide_false (pc < i)) in Hd1 by lia.
    destruct (disassembly_scroll_to app1) eqn:Hflag1; cbn;
      rewrite ?Hflag1; (split; [exact Hs1 |]); (split; [exact Hi1 |]);
      (split; [auto | intros; contradiction]).
  - assert (Hpci : pc <> i) by congruence.
    destruct (click_instruction_lands fuel current app1 i)
      as [(j & -> & Hj & Hpcj & Hnear & Hlow & Hhigh) | (-> & Hnone)];
      [exact Hnav1 | rewrite Hs1; exact Hfuel
      | rewrite (pc_at_store app app1), Hc1 by exact Hs1; congruence | exact Hne | |];
      cbn [mbind outcome_bind bind].
    + rewrite disassembly_rows_quiet; [| cbn; rewrite ?Hi1; exact Hread2 | exact Hquiet2].
      eexists. split; [reflexivity |]. cbn [disassembly_scroll_to
        set_disassembly_scroll_to andb]. rewrite Hafter_pc.
      rewrite Hc1, Hs1, Hcurrent in *.
      assert (Hpcs : forall m, pc_at app1 m = pc_at app m)
        by (intros m; apply pc_at_store; exact Hs1).
      destruct (bool_decide_reflect (i < pc)) as [Hlt | Hge]; cbn.
      * split; [exact Hs1 |]. split; [exact Hi1 |].
        split; [intros; contradiction |]. intros _. left. exists j.
        rewrite <- Hpcs. split; [exact Hj |]. split; [exact Hpcj |].
        split; [intros m Hm; rewrite <- Hpcs; auto |].
        split; [intros Hside; destruct (Hlow Hside) as [? | Hn]; [auto |];
                right; intros m Hm; rewrite <- Hpcs; auto |].
        split; [intros Hside; destruct (Hhigh Hside) as [? | Hn]; [auto |];
                right; intros m Hm; rewrite <- Hpcs; auto |].
        split; [reflexivity |]. split; [reflexivity |].
        symmetry. apply bool_decide_false. lia.
      * split; [exact Hs1 |]. split; [exact Hi1 |].
        split; [intros; contradiction |]. intros _. left. exists j.
        rewrite <- Hpcs. split; [exact Hj |]. split; [exact Hpcj |].
        split; [intros m Hm; rewrite <- Hpcs; auto |].
        split; [intros Hside; destruct (Hlow Hside) as [? | Hn]; [auto |];
                right; intros m Hm; rewrite <- Hpcs; auto |].
        split; [intros Hside; destruct (Hhigh Hside) as [? | Hn]; [auto |];
                right; intros m Hm; rewrite <- Hpcs; auto |].
        split; [reflexivity |]. split; [reflexivity |].
        symmetry. apply bool_decide_true. lia.
    + rewrite disassembly_rows_quiet; [| rewrite Hi1; exact Hread2 | exact Hquiet2].
      eexists. split; [reflexivity |]. rewrite Hafter_pc, Hd1.
      rewrite Hs1 in Hnone.
      assert (Hpcs : forall m, pc_at app1 m = pc_at app m)
        by (intros m; apply pc_at_store; exact Hs1).
      destruct (disassembly_scroll_to app), (bool_decide_reflect (pc < i)),
        (bool_decide_reflect (i < pc)); cbn; try lia;
        (split; [exact Hs1 |]); (split; [exact Hi1 |]);
        (split; [intros; contradiction |]); intros _; right;
        (split; [intros m Hm; rewrite <- Hpcs; auto |]);
        rewrite ?Hd1; auto.
Qed.

(** X14: The D key and the A key undo each other: in a session whose cursor
    is an index of the store, if the D key moved the cursor then the A
    key pressed in the next frame brings it back, and the other way
    round. *)
Theorem keys_a_d_undo fuel app app1 :
  navigable app -> size (snapshots app) < Z.of_nat fuel ->
  current_snapshot app1 <> current_snapshot app ->
  (handle_keys fuel false false false true app = Done app1 ->
   exists app2, handle_keys fuel false false true false app1 = Done app2
                /\ current_snapshot app2 = current_snapshot app)
  /\ (handle_keys fuel false false true false app = Done app1 ->
      exists app2, handle_keys fuel false false false true app1 = Done app2
                   /\ current_snapshot app2 = current_snapshot app).
Proof.
  intros Hnav Hfuel Hmoved. unfold handle_keys. cbn [andb]. cbv zeta.
  destruct (at_index_in_range (snapshots app) (current_snapshot app))
    as (current & -> & Hlook); [apply Hnav |].
  cbn [mbind outcome_bind bind].
  assert (Hhere : pc_at app (current_snapshot app) = Some (pc_of current)).
  { unfold pc_at. rewrite Hlook. reflexivity. }
  pose proof Hnav as [Hcursor Hn].
  split; intros H.
  - destruct (search_forward fuel app (pc_of current) Hnav Hfuel)
      as [(j & Hj & Hpc & Hnear & Hw) | (_ & Hw)];
      rewrite Hw in H; cbn [mbind outcome_bind bind] in H; injection H as <-;
      [| contradiction].
    assert (Hnav1 : navigable (set_cursor app j)) by (unfold navigable; cbn; lia).
    cbn [set_cursor current_snapshot snapshots].
    destruct (at_index_in_range (snapshots app) j) as (landed & -> & Hlook1); [lia |].
    cbn [mbind outcome_bind bind].
    assert (Hlanded : pc_of landed = pc_of current).
    { unfold pc_at in Hpc. rewrite Hlook1 in Hpc. cbn in Hpc. congruence. }
    rewrite Hlanded.
    destruct (search_backward fuel (set_cursor app j) (pc_of current) Hnav1 Hfuel)
      as [(j' & Hj' & Hpc' & Hnear' & ->) | (Hnone & _)]; cbn in *.
    + eexists. split; [reflexivity |]. cbn.
      destruct (Z.lt_total j' (current_snapshot app)) as [Hlt | [-> | Hgt]];
        [| reflexivity |].
      * exfalso. apply (Hnear' (current_snapshot app)); [lia | exact Hhere].
      * exfalso. apply (Hnear j'); [lia | exact Hpc'].
    + exfalso. apply (Hnone (current_snapshot app)); [lia | exact Hhere].
  - destruct (search_backward fuel app (pc_of current) Hnav Hfuel)
      as [(j & Hj & Hpc & Hnear & Hw) | (_ & Hw)];
      rewrite Hw in H; cbn [mbind outcome_bind bind] in H; injection H as <-;
      [| contradiction].
    assert (Hnav1 : navigable (set_cursor app j)) by (unfold navigable; cbn; lia).
    cbn [set_cursor current_snapshot snapshots].
    destruct (at_index_in_range (snapshots app) j) as (landed & -> & Hlook1); [lia |].
    cbn [mbind outcome_bind bind].
    assert (Hlanded : pc_of landed = pc_of current).
    { unfold pc_at in Hpc. rewrite Hlook1 in Hpc. cbn in Hpc. congruence. }
    rewrite Hlanded.
    destruct (search_forward fuel (set_cursor app j) (pc_of current) Hnav1 Hfuel)
      as [(j' & Hj' & Hpc' & Hnear' & ->) | (Hnone & _)]; cbn in *.
    + eexists. split; [reflexivity |]. cbn.
      destruct (Z.lt_total j' (current_snapshot app)) as [Hlt | [-> | Hgt]];
        [| reflexivity |].
      * exfalso. apply (Hnear j'); [lia | exact Hpc'].
      * exfalso. apply (Hnear' (current_snapshot app)); [lia | exact Hhere].
    + exfalso. apply (Hnone (current_snapshot app)); [lia | exact Hhere].
Qed.

End Landing.

(** ** Hexadecimal text *)

Section Hexadecimal.

Lemma decode_hex_loop_byte b rest current_byte :
  decode_hex_loop (hex_of_byte b ++ rest) current_byte false
  = b :: decode_hex_loop rest (Z.of_N (Byte.to_N b)) false.
Proof. destruct b; reflexivity. Qed.

Lemma decode_hex_loop_bytes bs current_byte :
  decode_hex_loop (hex_of_bytes bs) current_byte false = bs.
Proof.
  revert current_byte. induction bs as [| b bs IH]; intros current_byte.
  - reflexivity.
  - unfold hex_of_bytes. cbn [map concat]. rewrite decode_hex_loop_byte.
    f_equal. apply IH.
Qed.

(** X15: Reading back what was written: [decode_hex] on the text that spells
    each byte of a sequence with two lower-case hexadecimal digits gives
    the sequence. *)
Theorem decode_hex_round_trip bs :
  decode_hex (string_of_list_byte (hex_of_bytes bs)) = bs.
Proof.
  unfold decode_hex. rewrite list_byte_of_string_of_list_byte.
  apply decode_hex_loop_bytes.
Qed.

Lemma is_digit_char_nibble c :
  (is_digit_char c /\ exists nibble, nibble_of c = Some nibble)
  \/ (~ is_digit_char c /\ nibble_of c = None).
Proof.
  unfold is_digit_char. destruct (nibble_of c) as [nibble |].
  - left. split; [apply bool_decide_pack |]; eexists; reflexivity.
  - right. split; [| reflexivity].
    intros H. apply bool_decide_unpack in H. destruct H as [? [=]].
Qed.

Lemma decode_hex_loop_filter input current_byte reading_second_nibble :
  decode_hex_loop (filter (fun c => is_digit_char c) input)
    current_byte reading_second_nibble
  = decode_hex_loop input current_byte reading_second_nibble.
Proof.
  revert current_byte reading_second_nibble.
  induction input as [| c input IH]; intros current_byte flag; [reflexivity |].
  rewrite filter_cons.
  destruct (is_digit_char_nibble c) as [(Hdigit & nibble & Hc) | (Hdigit & Hc)].
  - rewrite decide_True by exact Hdigit.
    cbn [decode_hex_loop]. rewrite Hc.
    destruct flag; cbn [negb]; cbv zeta; rewrite IH; reflexivity.
  - rewrite decide_False by exact Hdigit.
    cbn [decode_hex_loop]. rewrite Hc. apply IH.
Qed.

Lemma decode_hex_loop_length input current_byte reading_second_nibble :
  length (decode_hex_loop input current_byte reading_second_nibble)
  = ((length (filter (fun c => is_digit_char c) input)
      + (if reading_second_nibble then 1 else 0)) / 2)%nat.
Proof.
  revert current_byte reading_second_nibble.
  induction input as [| c input IH]; intros current_byte flag.
  - destruct flag; reflexivity.
  - rewrite filter_cons. cbn [decode_hex_loop].
    destruct (is_digit_char_nibble c) as [(Hdigit & nibble & Hc) | (Hdigit & Hc)];
      rewrite Hc.
    + rewrite decide_True by exact Hdigit.
      destruct flag; cbn [negb]; cbv zeta; cbn [length]; rewrite IH.
      * replace (S (length (filter (fun c => is_digit_char c) input)) + 1)%nat
          with (length (filter (fun c => is_digit_char c) input) + 0 + 1 * 2)%nat
          by lia.
        rewrite Nat.div_add by lia. lia.
      * f_equal. lia.
    + rewrite decide_False by exact Hdigit.
      apply IH.
Qed.

(** X16: [decode_hex] reads the ASCII digits and letters of the text and
    nothing else: every other character can be left out without changing
    the result, which has one byte for every two characters read, an odd
    last one being dropped. *)
Theorem decode_hex_skips text :
  let read := filter (fun c => is_digit_char c) (list_byte_of_string text) in
  decode_hex text = decode_hex (string_of_list_byte read)
  /\ length (decode_hex text) = (length read / 2)%nat.
Proof.
  intros read. subst read. unfold decode_hex. split.
  - rewrite list_byte_of_string_of_list_byte, decode_hex_loop_filter. reflexivity.
  - rewrite decode_hex_loop_length. f_equal. lia.
Qed.

Lemma nibble_of_hex_digit d : 0 <= d < 16 -> nibble_of (hex_digit d) = Some d.
Proof.
  intros Hd.
  assert (Hcases : d = 0 \/ d = 1 \/ d = 2 \/ d = 3 \/ d = 4 \/ d = 5 \/ d = 6
                   \/ d = 7 \/ d = 8 \/ d = 9 \/ d = 10 \/ d = 11 \/ d = 12
                   \/ d = 13 \/ d = 14 \/ d = 15) by lia.
  repeat (destruct Hcases as [-> | Hcases]; [reflexivity |]).
  subst d. reflexivity.
Qed.

Lemma spelled_snoc text c :
  spelled (text ++ [c]) = (v ← spelled text; d ← nibble_of c; Some (16 * v + d)).
Proof. unfold spelled. rewrite foldl_app. reflexivity. Qed.

Lemma hex_digits_spelled fuel n :
  0 <= n < 16 ^ Z.of_nat fuel -> (0 < fuel)%nat ->
  spelled (hex_digits fuel n) = Some n
  /\ (1 <= length (hex_digits fuel n) <= fuel)%nat.
Proof.
  revert n. induction fuel as [| fuel IH]; intros n Hn Hfuel; [lia |].
  cbn [hex_digits]. rewrite spelled_snoc, length_app.
  rewrite nibble_of_hex_digit by (apply Z.mod_pos_bound; lia).
  destruct (Z.ltb_spec n 16) as [Hsmall | Hbig].
  - cbn. split; [| lia]. f_equal. rewrite Z.mod_small by lia. reflexivity.
  - assert (Hfuel' : (0 < fuel)%nat).
    { destruct fuel; [| lia]. change (16 ^ Z.of_nat 1) with 16 in Hn. lia. }
    destruct (IH (n / 16)) as [-> Hlen]; [| exact Hfuel' |].
    + split; [apply Z.div_pos; lia |].
      apply Z.div_lt_upper_bound; [lia |].
      rewrite Nat2Z.inj_succ, Z.pow_succ_r in Hn by lia. lia.
    + cbn. split; [| lia]. f_equal. pose proof (Z.div_mod n 16). lia.
Qed.

(** X17: Reading back an address: the text [to_hex] writes for a
    [std::size_t] has between one and sixteen characters, all of them
    digits to [decode_hex], and spells the number. *)
Theorem to_hex_spelled n :
  0 <= n < 2 ^ 64 ->
  spelled (list_byte_of_string (to_hex n)) = Some n
  /\ (1 <= length (list_byte_of_string (to_hex n)) <= 16)%nat.
Proof.
  intros Hn. unfold to_hex.
  destruct (hex_digits_spelled 16 n) as [Hspelled Hlen]; [exact Hn | lia |].
  rewrite list_byte_of_string_of_list_byte. split; [exact Hspelled | exact Hlen].
Qed.

End Hexadecimal.

(** ** The byte search of the memory view *)

Section ByteSearch.
Context `{defs : Pcsx2Defs}.

(** X18: What the byte search reports, for a pattern no longer than the
    memory: the lowest address below [VU1_MEMSIZE - n] at which the [n]
    bytes of the pattern occur, and no match exactly if they occur at no
    address below that bound. *)
Theorem find_bytes_reports memory value_raw :
  let bound := VU1_MEMSIZE - size value_raw in
  size memory = VU1_MEMSIZE -> size value_raw <= VU1_MEMSIZE ->
  VU1_MEMSIZE < 2 ^ 64 ->
  exists r,
    find_bytes memory value_raw = Done r
    /\ (forall a, r = Some a <->
          0 <= a < bound /\ occurs_at memory value_raw a
          /\ forall b, 0 <= b < a -> ~ occurs_at memory value_raw b)
    /\ (r = None <-> forall b, 0 <= b < bound -> ~ occurs_at memory value_raw b).
Proof.
  intros bound Hsize Hfits Hmax. subst bound.
  destruct (find_bytes_lowest memory value_raw)
    as [(a0 & Ha0 & -> & Hocc & Hlow) | (-> & Hnone)];
    [exact Hsize | lia | exact Hmax | |].
  - exists (Some a0). split; [reflexivity |]. split.
    + intros a. split.
      * intros [= <-]. auto.
      * intros (Ha & Hocc' & Hlow'). f_equal.
        destruct (Z.lt_total a0 a) as [Hlt | [Heq | Hgt]]; [| exact Heq |].
        -- exfalso. apply (Hlow' a0); [lia | exact Hocc].
        -- exfalso. apply (Hlow a); [lia | exact Hocc'].
    + split; [intros [=] |]. intros Hnone. exfalso. apply (Hnone a0); assumption.
  - exists None. split; [reflexivity |]. split.
    + intros a. split; [intros [=] |].
      intros (Ha & Hocc & _). exfalso. apply (Hnone a); assumption.
    + split; auto.
Qed.

(** X19: A text with fewer than two digits gives the empty pattern, and the
    search for the empty pattern reports a match at address 0. *)
Theorem find_bytes_without_digits text memory :
  (length (filter (fun c => is_digit_char c) (list_byte_of_string text)) < 2)%nat ->
  size memory = VU1_MEMSIZE -> 0 < VU1_MEMSIZE < 2 ^ 64 ->
  decode_hex text = [] /\ find_bytes memory (decode_hex text) = Done (Some 0).
Proof.
  intros Hdigits Hsize Hmem.
  assert (Hempty : decode_hex text = []).
  { apply length_zero_iff_nil. unfold decode_hex.
    rewrite decode_hex_loop_length, Nat.add_0_r. apply Nat.div_small. exact Hdigits. }
  split; [exact Hempty |]. rewrite Hempty. unfold find_bytes.
  change (size []) with 0. rewrite Z.sub_0_r, to_size_t_small by lia.
  destruct (Z.to_nat VU1_MEMSIZE) as [| remaining] eqn:Hiter; [lia |].
  cbn [find_bytes_from]. unfold memcmp_at. change (size []) with 0.
  rewrite Hsize.
  replace ((0 <=? 0) && (0 + 0 <=? VU1_MEMSIZE)) with true
    by (symmetry; apply andb_true_intro; split; apply Z.leb_le; lia).
  reflexivity.
Qed.

(** X20: A pattern longer than the memory: the bound of the loop wraps
    around, and the first comparison already extends past the end of the
    memory array. *)
Theorem find_bytes_long_pattern memory value_raw :
  size memory = VU1_MEMSIZE -> VU1_MEMSIZE < size value_raw < 2 ^ 64 ->
  find_bytes memory value_raw = Fail OutOfBounds.
Proof.
  intros Hsize Hlong. unfold find_bytes.
  pose proof (size_nonneg memory) as Hnonneg.
  assert (Hwrap : to_size_t (VU1_MEMSIZE - size value_raw)
                  = VU1_MEMSIZE - size value_raw + 2 ^ 64).
  { unfold to_size_t. symmetry. apply (Z.mod_unique _ _ (-1)); lia. }
  rewrite Hwrap.
  destruct (Z.to_nat (VU1_MEMSIZE - size value_raw + 2 ^ 64)) as [| remaining] eqn:Hiter;
    [lia |].
  cbn [find_bytes_from]. unfold memcmp_at.
  replace (0 + size value_raw <=? size memory) with false
    by (symmetry; apply Z.leb_gt; lia).
  reflexivity.
Qed.

End ByteSearch.

(** ** Comment files *)

Section CommentLines.
Context `{defs : Pcsx2Defs}.

Lemma split_line_written line rest :
  newline ∉ line -> split_line (line ++ newline :: rest) = (line, rest).
Proof.
  induction line as [| c line IH]; intros Hline; cbn [app split_line].
  - rewrite decide_True by reflexivity. reflexivity.
  - apply not_elem_of_cons in Hline as [Hc Hline].
    rewrite decide_False by congruence. rewrite IH by exact Hline. reflexivity.
Qed.

Lemma getline_written line rest :
  newline ∉ line -> getline (line ++ newline :: rest) = Some (line, rest).
Proof.
  intros Hline. rewrite <- (split_line_written line rest Hline).
  destruct line; reflexivity.
Qed.

Lemma read_comment_lines_written lines i slots cs :
  Forall (fun line => newline ∉ line) lines -> (i + slots <= length cs)%nat ->
  read_comment_lines (concat (map (fun line => line ++ [newline]) lines)) i slots cs
  = take i cs ++ take slots lines ++ drop (i + min slots (length lines)) cs.
Proof.
  intros Hlines. revert i slots cs.
  induction Hlines as [| line lines Hline Hlines IH]; intros i slots cs Hroom.
  - cbn [map concat length]. rewrite take_nil, Nat.min_0_r, Nat.add_0_r.
    cbn [app]. rewrite take_drop. destruct slots; reflexivity.
  - cbn [map concat]. rewrite <- app_assoc. cbn [app].
    destruct slots as [| slots]; cbn [read_comment_lines];
      rewrite getline_written by exact Hline.
    + cbn [take Nat.min app]. rewrite Nat.add_0_r, take_drop. reflexivity.
    + rewrite IH by (rewrite length_insert; lia).
      rewrite (take_S_r _ _ line) by (apply list_lookup_insert_eq; lia).
      rewrite take_insert_ge by lia.
      rewrite drop_insert_lt by lia.
      cbn [take length Nat.min]. rewrite <- app_assoc. cbn [app].
      rewrite <- Nat.add_succ_comm. reflexivity.
Qed.

(** X21: Loading a comment file whose lines all end in an end-of-line: the
    first lines become the comments of the first instruction slots, lines
    beyond the number of slots are ignored, and the comments of the slots
    the file has no line for stay as they were. *)
Theorem parse_comment_file_lines st path lines :
  length (comments st) = COMMENT_SLOTS ->
  Forall (fun line => newline ∉ line) lines ->
  parse_comment_file st path
    (Some (concat (map (fun line => line ++ [newline]) lines)))
  = {| comments := take COMMENT_SLOTS lines ++ drop (length lines) (comments st);
       comments_loaded := true; comment_file_path := path |}.
Proof.
  intros Hslots Hlines. unfold parse_comment_file. f_equal.
  rewrite read_comment_lines_written by (auto; lia).
  rewrite take_0, Nat.add_0_l, app_nil_l. f_equal.
  destruct (Nat.le_gt_cases (length lines) COMMENT_SLOTS).
  - rewrite Nat.min_r by lia. reflexivity.
  - rewrite Nat.min_l by lia. rewrite !drop_ge by lia. reflexivity.
Qed.

(** X22: Saving and loading again: if no comment contains an end-of-line, the
    file [save_comment_file] writes is read back by [parse_comment_file]
    as the same comments, whatever the comments were before the load. *)
Theorem save_then_parse_comments st st' path :
  length (comments st) = COMMENT_SLOTS -> length (comments st') = COMMENT_SLOTS ->
  Forall (fun comment => newline ∉ comment) (comments st) ->
  comments (parse_comment_file st' path (Some (save_comment_file st)))
  = comments st
  /\ comments_loaded (parse_comment_file st' path (Some (save_comment_file st)))
     = true.
Proof.
  intros Hslots Hslots' Hlines. unfold parse_comment_file, save_comment_file.
  cbn [comments comments_loaded]. split; [| reflexivity].
  rewrite read_comment_lines_written by (auto; lia).
  rewrite take_0, Nat.add_0_l, app_nil_l.
  rewrite take_ge by lia. rewrite drop_ge by lia.
  apply app_nil_r.
Qed.

End CommentLines.

(** ** The session after a load *)

Section FirstFrame.
Context `{defs : Pcsx2Defs}.

Lemma parse_packets_cursor fuel version trace app current app' current' :
  parse_packets fuel version trace app current = Done (app', current') ->
  current_snapshot app' = current_snapshot app.
Proof.
  revert trace app current.
  induction fuel as [| fuel IH]; intros trace app current H; [discriminate H |].
  cbn [parse_packets] in H. destruct trace as [| ty trace].
  - injection H as <- <-. reflexivity.
  - bind_inv H. destruct a as [[app1 current1] rest].
    pose proof (packet_step_session _ _ _ _ _ _ _ _ E) as (Hc & _).
    apply IH in H. congruence.
Qed.

(** X23: The first frame after the load of a fresh session: the cursor is at
    index 0; if the trace had no push the store is empty and the key
    handling of the main loop indexes it out of range, whatever keys are
    down; if it had one, the cursor is an index of the store. *)
Theorem parse_trace_first_frame trace memory0 program0 app'
    fuel key_w key_s key_a key_d :
  parse_trace new_app trace memory0 program0 = Done app' ->
  current_snapshot app' = 0
  /\ (snapshots app' = [] ->
      handle_keys fuel key_w key_s key_a key_d app' = Fail OutOfBounds)
  /\ (snapshots app' <> [] -> size (snapshots app') < 2 ^ 31 -> navigable app').
Proof.
  intros H.
  apply parse_trace_Done in H as (version & header & body & _ & _ & H).
  unfold read_packets in H. bind_inv H. destruct a as [app1 current1].
  injection H as <-. apply parse_packets_cursor in E. cbn in E.
  split; [exact E |]. split.
  - intros Hempty. destruct app1 as [cursor store ? ? table].
    cbn in E, Hempty. subst cursor store.
    destruct key_w, key_s; reflexivity.
  - intros Hsome Hfits. unfold navigable. rewrite E.
    destruct (snapshots app1); [contradiction |].
    unfold size in *. cbn [length] in *. lia.
Qed.

End FirstFrame.

(** ** The further properties on the example data *)

Lemma parse_trace_tagged_witness :
  parse_trace new_app (magic_tag ++ [x04; x00; x00; x00] ++ [])
    (zeros VU1_MEMSIZE) (zeros VU1_PROGSIZE) = Fail FormatTooNew
  /\ parse_trace new_app (magic_tag ++ [x03; x00]) [] [] = Fail UnexpectedEof.
Proof.
  destruct (parse_trace_tagged new_app (zeros VU1_MEMSIZE) (zeros VU1_PROGSIZE))
    as (_ & Hversion & _).
  destruct (parse_trace_tagged new_app [] []) as (Hshort & _).
  split.
  - rewrite Hversion by reflexivity. reflexivity.
  - apply Hshort. cbn. lia.
Defined.

Lemma packet_step_errors_witness :
  packet_step 3 "Z" [] new_app (new_current [] []) = Fail (InvalidPacketType "Z")
  /\ packet_step 3 "L" [x20; x00; x00; x00; x10] new_app (new_current [] [])
     = Fail UnexpectedEof.
Proof.
  split.
  - apply (packet_step_errors 3 "Z"%byte). reflexivity.
  - apply (proj2 (packet_step_errors 3 "L"%byte _ _ _) 8%nat); [reflexivity | cbn; lia].
Defined.

Lemma parse_trace_fails_by_exit_witness :
  exists f,
    parse_trace new_app unknown_packet_trace (zeros VU1_MEMSIZE) (zeros VU1_PROGSIZE)
    = Fail f
    /\ f <> OutOfBounds /\ f <> DivisionByZero /\ f <> OutOfFuel.
Proof.
  destruct (parse_trace new_app unknown_packet_trace
              (zeros VU1_MEMSIZE) (zeros VU1_PROGSIZE))
    as [app' | f] eqn:Hload; [vm_compute in Hload; discriminate Hload |].
  exists f. split; [reflexivity |].
  exact (parse_trace_fails_by_exit _ _ _ _ f pcsx2_ok Hload).
Defined.

Lemma parse_packets_append_only_witness :
  exists app' current',
    parse_packets 2 3 ["P"%byte] (demo_loop 0) (demo_snapshot 8 0 0)
    = Done (app', current')
    /\ snapshots (demo_loop 0) `prefix_of` snapshots app'
    /\ current_snapshot app' = 0.
Proof.
  destruct (parse_packets 2 3 ["P"%byte] (demo_loop 0) (demo_snapshot 8 0 0))
    as [[app' current'] | f] eqn:Hrun; [| vm_compute in Hrun; discriminate Hrun].
  exists app', current'. split; [reflexivity |].
  destruct (parse_packets_append_only _ _ _ _ _ _ _ Hrun) as (Hprefix & Hcursor & _).
  split; [exact Hprefix | exact Hcursor].
Defined.

Lemma parse_trace_snapshots_valid_witness :
  exists app',
    parse_trace new_app loop_trace (zeros VU1_MEMSIZE) (zeros VU1_PROGSIZE) = Done app'
    /\ Forall (fun snap => pc_valid snap /\ sized snap) (snapshots app').
Proof.
  destruct (parse_trace new_app loop_trace (zeros VU1_MEMSIZE) (zeros VU1_PROGSIZE))
    as [app' | f] eqn:Hload; [| vm_compute in Hload; discriminate Hload].
  exists app'. split; [reflexivity |].
  apply (parse_trace_snapshots_valid new_app loop_trace
           (zeros VU1_MEMSIZE) (zeros VU1_PROGSIZE));
    [apply length_replicate | apply length_replicate | exact Hload].
Defined.

(** The load of [loop_trace] returns a session with three snapshots. *)
Ltac load_loop_trace app' Hload Hsize :=
  destruct (parse_trace new_app loop_trace (zeros VU1_MEMSIZE) (zeros VU1_PROGSIZE))
    as [app' | ?] eqn:Hload; [| vm_compute in Hload; discriminate Hload];
  assert (Hsize : size (snapshots app') = 3)
    by (change (size (snapshots app'))
          with (match Done app' with
                | Done a => size (snapshots a)
                | Fail _ => 0
                end);
        rewrite <- Hload; vm_compute; reflexivity).

Lemma parse_trace_execution_counts_witness :
  exists app',
    parse_trace new_app loop_trace (zeros VU1_MEMSIZE) (zeros VU1_PROGSIZE) = Done app'
    /\ size (instructions app') = 2048
    /\ forall slot i, instructions app' !! slot = Some i ->
         times_executed i = Z.of_nat (executions (snapshots app') slot).
Proof.
  load_loop_trace app' Hload Hsize.
  exists app'. split; [reflexivity |].
  destruct (parse_trace_execution_counts new_app loop_trace
              (zeros VU1_MEMSIZE) (zeros VU1_PROGSIZE) app')
    as [Htable Hcounts];
    [exact pcsx2_ok | reflexivity | exact Hload | rewrite Hsize; reflexivity |].
  split; [exact Htable |].
  intros slot i Hslot. apply (Hcounts slot i Hslot).
Defined.

Lemma parse_trace_branch_counts_witness :
  exists app',
    parse_trace new_app loop_trace (zeros VU1_MEMSIZE) (zeros VU1_PROGSIZE) = Done app'
    /\ branch_to_count (instructions app') 1 0
       = Z.of_nat (count_adjacent (branch_out 1 0) (snapshots app')).
Proof.
  load_loop_trace app' Hload Hsize.
  exists app'. split; [reflexivity |].
  apply (parse_trace_branch_counts new_app loop_trace
           (zeros VU1_MEMSIZE) (zeros VU1_PROGSIZE) app');
    [exact pcsx2_ok | reflexivity | exact Hload | rewrite Hsize; reflexivity].
Defined.

Lemma parse_trace_branches_mirror_witness :
  exists app',
    parse_trace new_app loop_trace (zeros VU1_MEMSIZE) (zeros VU1_PROGSIZE) = Done app'
    /\ branch_to_count (instructions app') (Z.to_nat (8 / INSN_PAIR_SIZE)) 0
       = branch_from_count (instructions app') (Z.to_nat (0 / INSN_PAIR_SIZE)) 8.
Proof.
  load_loop_trace app' Hload Hsize.
  exists app'. split; [reflexivity |].
  apply (parse_trace_branches_mirror new_app loop_trace
           (zeros VU1_MEMSIZE) (zeros VU1_PROGSIZE) app');
    [exact pcsx2_ok | reflexivity | exact Hload | lia | reflexivity | lia | reflexivity].
Defined.

Lemma patch_memory_narrow_witness :
  exists current',
    packet_step 3 "m" ([x10; x00] ++ [x2a; x00; x00; x00] ++ [])
      new_app (demo_snapshot 0 0 0) = Done (new_app, current', [])
    /\ memory current' !! 16%nat = Some x2a
    /\ memory current' !! 20%nat = Some x00.
Proof.
  pose proof (patch_memory_narrow 3 [x10; x00] [x2a; x00; x00; x00] []
                new_app (demo_snapshot 0 0 0)) as H.
  cbv zeta in H.
  destruct H as (current' & Hstep & _ & _ & _ & _ & _ & _ & _ & Hdata & Hrest);
    [reflexivity | reflexivity | by_evaluation | by_evaluation |].
  exists current'. split; [exact Hstep |]. split.
  - apply (Hdata 0%nat). lia.
  - rewrite (Hrest 20%nat) by (vm_compute; lia). by_evaluation.
Defined.

Lemma walk_until_pc_equal_sound_witness :
  walk_until_pc_equal 4 (demo_loop 0) 0 1 = Done (true, set_cursor (demo_loop 0) 2)
  /\ pc_at (demo_loop 0) (current_snapshot (set_cursor (demo_loop 0) 2)) = Some 0.
Proof.
  assert (H : walk_until_pc_equal 4 (demo_loop 0) 0 1
              = Done (true, set_cursor (demo_loop 0) 2)) by by_evaluation.
  split; [exact H |].
  destruct (walk_until_pc_equal_sound _ _ _ _ _ _ H) as (_ & _ & Hmoved & _).
  apply Hmoved. reflexivity.
Defined.

Lemma walk_until_mem_access_sound_witness :
  exists visited app',
    walk_until_mem_access 4 (demo_read_late 0) 0x20 = (visited, Done app')
    /\ Forall (fun i => 0 <= i < size (snapshots (demo_read_late 0))) visited
    /\ snapshots app' = snapshots (demo_read_late 0).
Proof.
  destruct (walk_until_mem_access 4 (demo_read_late 0) 0x20)
    as [visited [app' | f]] eqn:Hwalk; [| vm_compute in Hwalk; discriminate Hwalk].
  exists visited, app'. split; [reflexivity |].
  destruct (walk_until_mem_access_sound _ _ _ _ _ Hwalk) as (Hvisited & Hstore & _).
  split; [exact Hvisited | exact Hstore].
Defined.

(** A fact about the value a computation returned, read off the
    computation. *)
Lemma outcome_fact {A B} (m : outcome A) (a : A) (g : A -> B) (b d : B) :
  m = Done a ->
  match m with Done x => g x | Fail _ => d end = b ->
  g a = b.
Proof. intros -> H. exact H. Qed.

Lemma demo_loop_quiet instruction :
  last (instructions (demo_loop 0)) = Some instruction ->
  branch_from_times instruction = ∅.
Proof. intros H. vm_compute in H. injection H as <-. reflexivity. Qed.

Lemma react_all_navigable_witness :
  (exists app',
     react_all 4 [Keys false true false false;
                  Disassembly (fun r => bool_decide (r = 0)); ClickByte 0x20;
                  SelectSnapshot 2; Iterate false] (demo_loop 0)
     = Done app'
     /\ 0 <= current_snapshot app' < size (snapshots (demo_loop 0))
     /\ snapshots app' = snapshots (demo_loop 0))
  /\ (exists app',
        parse_trace new_app last_pair_trace (zeros VU1_MEMSIZE) (zeros VU1_PROGSIZE)
        = Done app'
        /\ react 3 (Disassembly (fun _ => false)) app' = Fail OutOfBounds).
Proof.
  split.
  - destruct (react_all_navigable 4
                [Keys false true false false;
                 Disassembly (fun r => bool_decide (r = 0)); ClickByte 0x20;
                 SelectSnapshot 2; Iterate false] (demo_loop 0))
      as [Hreturns _].
    + exact pcsx2_ok.
    + by_evaluation.
    + by_evaluation.
    + by_evaluation.
    + repeat (constructor; [by_evaluation |]). constructor.
    + destruct (Hreturns demo_loop_quiet) as (app' & Hrun & Hcursor & Hstore & _).
      exists app'. auto.
  - destruct (parse_trace new_app last_pair_trace
                (zeros VU1_MEMSIZE) (zeros VU1_PROGSIZE))
      as [app' | f] eqn:Hload; [| vm_compute in Hload; discriminate Hload].
    exists app'. split; [reflexivity |].
    assert (Hcursor : current_snapshot app' = 0)
      by (apply (outcome_fact _ _ current_snapshot 0 0 Hload); vm_compute; reflexivity).
    assert (Hstore : size (snapshots app') = 2)
      by (apply (outcome_fact _ _ (fun a => size (snapshots a)) 2 0 Hload);
          vm_compute; reflexivity).
    assert (Htable : size (instructions app') = VU1_PROGSIZE / INSN_PAIR_SIZE)
      by (apply (outcome_fact _ _ (fun a => size (instructions a)) _ 0 Hload);
          vm_compute; reflexivity).
    assert (Hlast : match last (instructions app') with
                    | Some instruction =>
                      bool_decide (branch_from_times instruction <> ∅)
                    | None => false
                    end = true)
      by (apply (outcome_fact _ _
                   (fun a => match last (instructions a) with
                             | Some instruction =>
                               bool_decide (branch_from_times instruction <> ∅)
                             | None => false
                             end) true false Hload);
          vm_compute; reflexivity).
    destruct (last (instructions app')) as [instruction |] eqn:Hinstruction;
      [| discriminate Hlast].
    apply bool_decide_eq_true in Hlast.
    destruct (react_all_navigable 3 [] app') as [_ Hoverrun].
    + exact pcsx2_ok.
    + unfold navigable. rewrite Hcursor, Hstore. lia.
    + rewrite Hstore. lia.
    + exact Htable.
    + constructor.
    + apply (Hoverrun instruction); assumption.
Defined.

Lemma click_instruction_finds_witness :
  exists app',
    disassembly_window 4 (fun r => bool_decide (r = 8)) (demo_loop 0) = Done app'
    /\ current_snapshot app' = 1
    /\ snapshots_scroll_to app' = true /\ disassembly_scroll_to app' = true
    /\ snapshots app' = snapshots (demo_loop 0).
Proof.
  pose proof (click_instruction_finds 4 (demo_loop 0) 8 0) as H. cbv zeta in H.
  destruct H as (app' & Hrun & Hstore & _ & _ & Hclick);
    [exact pcsx2_ok | by_evaluation | by_evaluation | by_evaluation
    | exact demo_loop_quiet | by_evaluation | by_evaluation | by_evaluation
    | by_evaluation | by_evaluation |].
  exists app'. split; [exact Hrun |].
  destruct Hclick as [(j & Hj & Hpc & _ & _ & _ & Hcursor & Hlist & Hcode)
                     | (Hnone & _)]; [lia | |].
  - unfold size in Hj; cbn in Hj.
    assert (j = 0 \/ j = 1 \/ j = 2) as [-> | [-> | ->]] by lia;
      [discriminate Hpc | | discriminate Hpc].
    rewrite Hcode. auto.
  - exfalso. apply (Hnone 1); by_evaluation.
Defined.

Lemma keys_a_d_undo_witness :
  exists app2,
    handle_keys 4 false false false true (demo_loop 0)
    = Done (set_cursor (demo_loop 0) 2)
    /\ handle_keys 4 false false true false (set_cursor (demo_loop 0) 2) = Done app2
    /\ current_snapshot app2 = 0.
Proof.
  assert (H1 : handle_keys 4 false false false true (demo_loop 0)
               = Done (set_cursor (demo_loop 0) 2)) by by_evaluation.
  destruct (keys_a_d_undo 4 (demo_loop 0) (set_cursor (demo_loop 0) 2)) as [H _];
    [by_evaluation | by_evaluation | by_evaluation |].
  destruct (H H1) as (app2 & H2 & Hcursor).
  exists app2. auto.
Defined.

Lemma find_bytes_reports_witness :
  exists r,
    find_bytes marked_memory [x01] = Done r
    /\ (r = Some 0x3ff0 <->
        0 <= 0x3ff0 < VU1_MEMSIZE - size [x01]
        /\ occurs_at marked_memory [x01] 0x3ff0
        /\ forall b, 0 <= b < 0x3ff0 -> ~ occurs_at marked_memory [x01] b).
Proof.
  pose proof (find_bytes_reports marked_memory [x01]) as H. cbv zeta in H.
  destruct H as (r & Hrun & Hsome & _); [by_evaluation | by_evaluation | by_evaluation |].
  exists r. split; [exact Hrun | apply Hsome].
Defined.

Lemma find_bytes_without_digits_witness :
  decode_hex "7" = [] /\ find_bytes marked_memory (decode_hex "7") = Done (Some 0).
Proof.
  apply (find_bytes_without_digits "7" marked_memory);
    [vm_compute; lia | by_evaluation | by_evaluation].
Defined.

Lemma find_bytes_long_pattern_witness :
  find_bytes marked_memory (zeros (VU1_MEMSIZE + 1)) = Fail OutOfBounds.
Proof.
  apply (find_bytes_long_pattern marked_memory (zeros (VU1_MEMSIZE + 1)));
    by_evaluation.
Defined.

Lemma to_hex_spelled_witness :
  spelled (list_byte_of_string (to_hex 0x3ff0)) = Some 0x3ff0
  /\ (1 <= length (list_byte_of_string (to_hex 0x3ff0)) <= 16)%nat.
Proof. apply (to_hex_spelled 0x3ff0). lia. Defined.

Lemma parse_comment_file_lines_witness :
  parse_comment_file demo_comments (list_byte_of_string "b.txt")
    (Some (concat (map (fun line => line ++ [newline])
                     [list_byte_of_string "entry"; []; list_byte_of_string "exit"])))
  = {| comments :=
         take COMMENT_SLOTS
           [list_byte_of_string "entry"; []; list_byte_of_string "exit"]
         ++ drop 3 (comments demo_comments);
       comments_loaded := true;
       comment_file_path := list_byte_of_string "b.txt" |}.
Proof.
  apply (parse_comment_file_lines demo_comments (list_byte_of_string "b.txt")
           [list_byte_of_string "entry"; []; list_byte_of_string "exit"]).
  - by_evaluation.
  - apply (bool_decide_unpack _). vm_compute. exact I.
Defined.

Lemma save_then_parse_comments_witness :
  comments (parse_comment_file blank_comments []
              (Some (save_comment_file demo_comments)))
  = comments demo_comments
  /\ comments_loaded (parse_comment_file blank_comments []
                        (Some (save_comment_file demo_comments))) = true.
Proof.
  apply (save_then_parse_comments demo_comments blank_comments []).
  - by_evaluation.
  - by_evaluation.
  - apply (bool_decide_unpack _). vm_compute. exact I.
Defined.

Lemma parse_trace_first_frame_witness :
  exists app',
    parse_trace new_app loop_trace (zeros VU1_MEMSIZE) (zeros VU1_PROGSIZE) = Done app'
    /\ current_snapshot app' = 0.
Proof.
  destruct (parse_trace new_app loop_trace (zeros VU1_MEMSIZE) (zeros VU1_PROGSIZE))
    as [app' | f] eqn:Hload; [| vm_compute in Hload; discriminate Hload].
  exists app'. split; [reflexivity |].
  apply (parse_trace_first_frame loop_trace (zeros VU1_MEMSIZE) (zeros VU1_PROGSIZE)
           app' 4 false false false false Hload).
Defined.
